(** * galoscale: PDF preview scripts

    A shallow embedding of the three PDF preview scripts of the repository
    and the properties of their page scheduling, source validation and DOM
    placement.

    - [Lazy]     : the lazy renderer [renderPDFLazy] (placeholders first,
                   viewport-triggered rendering behind a concurrency gate);
    - [Preview]  : the sequential [renderPDF] of [src/js/pdf-preview.js]
                   with its own [toArrayBufferWithSize];
    - [Parallel] : the [renderPDF] that renders every page at once and
                   appends the canvases afterwards.
    - [Chained]  : the [renderPDF] of [src/js/pdf-preview.js] that chains
                   promises and appends each canvas when it is painted.

    The PDF library, [fetch] and the intersection observer are external:
    they appear as section variables (what they answer) and as events
    (when their promises settle).  An async function is a function on the
    world it acts on; the points where promises settle are the events of a
    step function, one event per run of code between two suspension
    points.

    Numbers: byte counts, the counter [active] and the limits are integers
    ([Z]); page numbers are natural numbers; scales and viewport sizes are
    exact rationals ([Qc]). *)

From Stdlib Require Import ZArith QArith Qcanon Ascii.
From stdpp Require Import gmap strings list pretty.

Open Scope Z_scope.

(** ** JavaScript values shared by the scripts *)

(** A thrown or rejected value.  [err?.message] is [None] when the value is
    nullish or carries no message. *)
Record Error := mkError { message : option string }.

(** [new Error(text)] *)
Definition new_Error (text : string) : Error := mkError (Some text).

(** [a || b] on strings: the empty string and [undefined] are falsy. *)
Definition or_else (a : option string) (b : string) : string :=
  match a with
  | Some s => if decide (s = "") then b else s
  | None => b
  end.

(** [a ?? b] *)
Definition nullish {A} (a : option A) (b : A) : A :=
  match a with
  | Some x => x
  | None => b
  end.

(** An [ArrayBuffer] is its bytes. *)
Definition ArrayBuffer := list Byte.byte.

Definition byteLength (buf : ArrayBuffer) : Z := Z.of_nat (length buf).

(** A typed array or [DataView]: a window of [view_byteLength] bytes that
    starts [byteOffset] bytes into [buffer].  Both [input.byteLength] and
    [input.buffer] are always there. *)
Record TypedArray := {
  buffer : ArrayBuffer;
  byteOffset : nat;
  view_byteLength : nat;
}.

(** The bytes a view gives access to. *)
Definition view_bytes (v : TypedArray) : list Byte.byte :=
  take (view_byteLength v) (drop (byteOffset v) (buffer v)).

(** A view is well formed when its window lies inside its buffer. *)
Definition view_wf (v : TypedArray) : Prop :=
  (byteOffset v + view_byteLength v <= length (buffer v))%nat.

Record Blob := {
  blob_size : Z;
  blob_arrayBuffer : Error + ArrayBuffer;      (* input.arrayBuffer() *)
}.

(** The response of [fetch].  [res_content_length] is the value of
    [Number(res.headers.get("content-length"))]: [None] stands for [NaN],
    an absent header gives [Some 0] (as [Number(null)] is [0]). *)
Record Response := {
  res_ok : bool;
  res_status : Z;
  res_content_length : option Z;
  res_arrayBuffer : Error + ArrayBuffer;       (* res.arrayBuffer() *)
}.

(** The [src] argument: [string|Blob|ArrayBuffer|TypedArray], or anything
    else. *)
Inductive Source :=
  | SrcString (url : string)
  | SrcBlob (b : Blob)
  | SrcArrayBuffer (a : ArrayBuffer)
  | SrcView (v : TypedArray)
  | SrcOther.

(** ** The PDF library *)

Record Viewport := { vp_width : Qc; vp_height : Qc }.

Record PDFPage := {
  getViewport : Qc → Viewport;                 (* page.getViewport({ scale }) *)
}.

Record PDFDocument := {
  numPages : nat;
  getPage : nat → Error + PDFPage;             (* await pdf.getPage(n) *)
}.

(** ** The DOM under the container *)

Record Canvas := {
  cv_width : Qc;
  cv_height : Qc;
  cv_maxWidth : string;
  cv_classList : list string;
  cv_page : nat;                               (* the page painted on it *)
}.

Inductive ContentChild :=
  | ContentCanvas (c : Canvas)
  | ContentError (text : string).              (* div.pdf-error *)

(** [classList.add] *)
Definition classList_add (c : string) (l : list string) : list string :=
  if decide (c ∈ l) then l else l ++ [c].

(** ASCII white space, as the DOM has it: tab, line feed, form feed,
    carriage return and space. *)
Definition is_whitespace (a : Ascii.ascii) : bool :=
  Ascii.eqb a "009"%char || Ascii.eqb a "010"%char || Ascii.eqb a "012"%char
  || Ascii.eqb a "013"%char || Ascii.eqb a " "%char.

(** The tokens [classList.add] takes: for the empty string it throws a
    [SyntaxError], for a token with white space an
    [InvalidCharacterError]. *)
Definition valid_token (token : string) : bool :=
  negb (String.eqb token "")
  && forallb (λ a, negb (is_whitespace a)) (String.list_ascii_of_string token).

(** [classList.contains] *)
Definition classList_contains (c : string) (l : list string) : bool :=
  bool_decide (c ∈ l).

(** A page placeholder: [div.pdf-page-holder] with its sizer and its content
    box.  [dataset_page] is the page number (written with [String(i)], read
    back with [Number]). *)
Record Holder := {
  dataset_page : nat;
  holder_classList : list string;
  sizer_paddingTop : Qc;                       (* in percent *)
  content : list ContentChild;
}.

(** The children of the container. *)
Inductive Node :=
  | Div (classList : list string) (textContent : string)
  | PageHolder (h : Holder)
  | CanvasEl (c : Canvas).

(** What [querySelector(".pdf-loader")] matches: any element of that class
    under the container, found in document order.  Under a holder these
    are the holder itself and the canvases in its content box; its sizer,
    its content box and an error message have classes of their own. *)
Definition child_is_loader (c : ContentChild) : bool :=
  match c with
  | ContentCanvas canvas => classList_contains "pdf-loader" (cv_classList canvas)
  | ContentError _ => false
  end.

(** The child, or an element under it, is of class [pdf-loader]. *)
Definition is_loader (n : Node) : bool :=
  match n with
  | Div cl _ => classList_contains "pdf-loader" cl
  | PageHolder h =>
      classList_contains "pdf-loader" (holder_classList h)
      || existsb child_is_loader (content h)
  | CanvasEl canvas => classList_contains "pdf-loader" (cv_classList canvas)
  end.

(** A content box without the first loader in it. *)
Fixpoint remove_child_loader (content : list ContentChild)
  : list ContentChild :=
  match content with
  | [] => []
  | c :: rest => if child_is_loader c then rest else c :: remove_child_loader rest
  end.

(** What is left of a child after [loader.remove()] on the first loader
    that it is or holds: nothing when the child is the loader, the holder
    with one canvas less when the loader is in its content box. *)
Definition without_loader (n : Node) : list Node :=
  match n with
  | PageHolder h =>
      if classList_contains "pdf-loader" (holder_classList h) then []
      else [PageHolder {| dataset_page := dataset_page h;
                          holder_classList := holder_classList h;
                          sizer_paddingTop := sizer_paddingTop h;
                          content := remove_child_loader (content h) |}]
  | _ => []
  end.

(** [const loader = container.querySelector(".pdf-loader");
     if (loader) loader.remove();] *)
Fixpoint removeLoader (container : list Node) : list Node :=
  match container with
  | [] => []
  | n :: rest =>
      if is_loader n then without_loader n ++ rest
      else n :: removeLoader rest
  end.

(** [container.querySelector(`.pdf-page-holder[data-page="${pageNum}"]`)] *)
Fixpoint querySelector_holder (pageNum : nat) (container : list Node)
  : option Holder :=
  match container with
  | [] => None
  | PageHolder h :: rest =>
      if decide (dataset_page h = pageNum) then Some h
      else querySelector_holder pageNum rest
  | _ :: rest => querySelector_holder pageNum rest
  end.

(** Mutating the element [querySelector_holder] found. *)
Fixpoint with_holder (pageNum : nat) (f : Holder → Holder)
    (container : list Node) : list Node :=
  match container with
  | [] => []
  | PageHolder h :: rest =>
      if decide (dataset_page h = pageNum) then PageHolder (f h) :: rest
      else PageHolder h :: with_holder pageNum f rest
  | n :: rest => n :: with_holder pageNum f rest
  end.

(** The page numbers of the holders under the container, in document
    order. *)
Fixpoint holder_pages (container : list Node) : list nat :=
  match container with
  | [] => []
  | PageHolder h :: rest => dataset_page h :: holder_pages rest
  | _ :: rest => holder_pages rest
  end.

(** ** Calls into the outside world, in the order they are made *)

Inductive Call :=
  | Fetch (url : string)
  | ReadBody (url : string)                    (* res.arrayBuffer() *)
  | ReadBlob                                   (* input.arrayBuffer() *)
  | GetDocument (data : ArrayBuffer)
  | GetPage (pageNum : nat)
  | Render (pageNum : nat)                     (* page.render(...).promise *)
  | NewObserver (rootMargin : string).

(** What an async function has done so far: the container it mutates and the
    calls it has made. *)
Record World := {
  dom : list Node;
  calls : list Call;
}.

(** An async function body: it runs on a world and either throws or
    returns. *)
Definition IO (A : Type) : Type := World → (Error + A) * World.

#[global] Instance IO_ret : MRet IO := λ A x w, (inr x, w).
#[global] Instance IO_bind : MBind IO := λ A B f m w,
  match m w with
  | (inr x, w') => f x w'
  | (inl e, w') => (inl e, w')
  end.

Definition throw {A} (e : Error) : IO A := λ w, (inl e, w).

(** Record a call and continue with (or reject with) its answer. *)
Definition await {A} (c : Call) (answer : Error + A) : IO A :=
  λ w, (answer, {| dom := dom w; calls := calls w ++ [c] |}).

Definition modify_dom (f : list Node → list Node) : IO unit :=
  λ w, (inr (), {| dom := f (dom w); calls := calls w |}).

(** The options object and its destructuring defaults. *)
Record Options := {
  opt_scale : option Qc;
  opt_className : option string;
  opt_minBytes : option Z;
  opt_rootMargin : option string;
  opt_concurrent : option Z;
}.

Definition no_options : Options :=
  {| opt_scale := None; opt_className := None; opt_minBytes := None;
     opt_rootMargin := None; opt_concurrent := None |}.

(** [`PDF is too small: ${size} bytes (min ${minBytes})`] *)
Definition too_small (size minBytes : Z) : Error :=
  new_Error ("PDF is too small: " +:+ pretty size +:+ " bytes (min "
             +:+ pretty minBytes +:+ ")").

(** [`Failed to fetch PDF (HTTP ${res.status})`] *)
Definition fetch_failed (status : Z) : Error :=
  new_Error ("Failed to fetch PDF (HTTP " +:+ pretty status +:+ ")").

Definition unsupported_source : Error :=
  new_Error "Unsupported PDF source type.".

(** * The lazy renderer *)

Module Lazy.

Section renderPDFLazy.

(** The outside world. *)
Variable fetch : string → Error + Response.
Variable getDocument : ArrayBuffer → Error + PDFDocument.
(** [new IntersectionObserver(cb, { root: null, rootMargin, threshold })]
    throws on a root margin it cannot parse. *)
Variable IntersectionObserver : string → option Error.
(** What [classList.add(token)] throws for a token it does not take. *)
Variable tokenError : string → Error.

Variable options : Options.

Definition scale : Qc := default (Q2Qc (3 # 2)) (opt_scale options).
Definition className : string := default "pdf-sheet" (opt_className options).
Definition minBytes : Z := default (5 * 1024) (opt_minBytes options).
Definition rootMargin : string := default "600px" (opt_rootMargin options).
Definition concurrent : Z := default 2 (opt_concurrent options).

Definition toArrayBufferWithSize (input : Source) : IO ArrayBuffer :=
  match input with
  | SrcString url =>
      res ← await (Fetch url) (fetch url);
      if negb (res_ok res) then throw (fetch_failed (res_status res))
      else
        let len := res_content_length res in
        match len with
        | Some len =>
            if bool_decide (0 < len) && bool_decide (len < minBytes)
            then throw (too_small len minBytes)
            else mret ()
        | None => mret ()
        end;;
        buf ← await (ReadBody url) (res_arrayBuffer res);
        if bool_decide (byteLength buf < minBytes)
        then throw (too_small (byteLength buf) minBytes)
        else mret buf
  | SrcBlob input =>
      if bool_decide (blob_size input < minBytes)
      then throw (too_small (blob_size input) minBytes)
      else await ReadBlob (blob_arrayBuffer input)
  | SrcArrayBuffer input =>
      if bool_decide (byteLength input < minBytes)
      then throw (too_small (byteLength input) minBytes)
      else mret input
  | SrcView input =>
      let size :=
        nullish (Some (Z.of_nat (view_byteLength input)))
          (nullish (Some (byteLength (buffer input))) 0) in
      if bool_decide (size < minBytes)
      then throw (too_small size minBytes)
      else mret (buffer input)
  | SrcOther => throw unsupported_source
  end.

(** *** Set-up: validation, document open, placeholders, observer *)

(** One placeholder: holder, intrinsic-ratio sizer, empty content box. *)
Definition placeholder (aspectRatio : Qc) (i : nat) : Node :=
  PageHolder {| dataset_page := i;
                holder_classList := ["pdf-page-holder"];
                sizer_paddingTop := aspectRatio * Q2Qc 100;
                content := [] |}.

(** [for (let i = 1; i <= pdf.numPages; i++) { ... frag.appendChild(holder) }] *)
Definition placeholders (numPages : nat) (aspectRatio : Qc) : list Node :=
  placeholder aspectRatio <$> seq 1 numPages.

(** The body of the [try] block, up to the [return]. *)
Definition main (src : Source) : IO PDFDocument :=
  data ← toArrayBufferWithSize src;
  pdf ← await (GetDocument data) (getDocument data);
  firstPage ← await (GetPage 1) (getPage pdf 1);
  let firstViewport := getViewport firstPage scale in
  let aspectRatio := (vp_height firstViewport / vp_width firstViewport)%Qc in
  let frag := placeholders (numPages pdf) aspectRatio in
  modify_dom (λ container, container ++ frag);;
  modify_dom removeLoader;;
  await (NewObserver rootMargin)
    (match IntersectionObserver rootMargin with
     | Some e => inl e
     | None => inr ()
     end);;
  mret pdf.

(** What the promise of [renderPDFLazy] resolves to. *)
Inductive Resolved :=
  | Undefined
  | Teardown (pdf : PDFDocument).            (* { disconnect() { ... } } *)

(** The [catch] block: one [div.pdf-error] appended to the container. *)
Definition on_fatal (err : Error) (container : list Node) : list Node :=
  container ++ [Div ["pdf-error"] (or_else (message err) "Failed to load PDF.")].

Definition renderPDFLazy (src : Source) (container : list Node)
  : Resolved * World :=
  match main src {| dom := container; calls := [] |} with
  | (inr pdf, w) =>
      (Teardown pdf, {| dom := removeLoader (dom w); calls := calls w |})
  | (inl err, w) =>
      (Undefined,
       {| dom := removeLoader (on_fatal err (dom w)); calls := calls w |})
  end.

(** *** The scheduler: [renderPage], [pump], [enqueue], observer callback *)

(** The document the closures capture. *)
Variable pdf : PDFDocument.

(** The variables the closures share.  [settled] counts the promises of
    [renderPage] that have resolved while the [.finally] callback [pump]
    attached to them has not run yet.  [pushed] and [started] are history
    logs: every [queue.push], and every call of [renderPage] that got past
    its guard, in order. *)
Record State := {
  container : list Node;
  inFlight : gset nat;
  queue : list nat;
  active : Z;
  settled : nat;
  pushed : list nat;
  started : list nat;
}.

Definition init (container : list Node) : State :=
  {| container := container; inFlight := ∅; queue := []; active := 0;
     settled := 0; pushed := []; started := [] |}.

(** Assignments to one variable. *)
Definition set_container (c : list Node) (s : State) : State :=
  {| container := c; inFlight := inFlight s; queue := queue s;
     active := active s; settled := settled s;
     pushed := pushed s; started := started s |}.
Definition set_inFlight (f : gset nat) (s : State) : State :=
  {| container := container s; inFlight := f; queue := queue s;
     active := active s; settled := settled s;
     pushed := pushed s; started := started s |}.
Definition set_queue (q : list nat) (s : State) : State :=
  {| container := container s; inFlight := inFlight s; queue := q;
     active := active s; settled := settled s;
     pushed := pushed s; started := started s |}.
Definition set_active (a : Z) (s : State) : State :=
  {| container := container s; inFlight := inFlight s; queue := queue s;
     active := a; settled := settled s;
     pushed := pushed s; started := started s |}.
Definition set_settled (n : nat) (s : State) : State :=
  {| container := container s; inFlight := inFlight s; queue := queue s;
     active := active s; settled := n;
     pushed := pushed s; started := started s |}.
Definition log_push (pageNum : nat) (s : State) : State :=
  {| container := container s; inFlight := inFlight s; queue := queue s;
     active := active s; settled := settled s;
     pushed := pushed s ++ [pageNum]; started := started s |}.
Definition log_start (pageNum : nat) (s : State) : State :=
  {| container := container s; inFlight := inFlight s; queue := queue s;
     active := active s; settled := settled s;
     pushed := pushed s; started := started s ++ [pageNum] |}.

(** [renderPage(pageNum)] up to its first [await]. *)
Definition renderPage_begin (pageNum : nat) (s : State) : State :=
  if decide (pageNum ∈ inFlight s)
  then (* return; the promise is resolved at once *)
    set_settled (S (settled s)) s
  else
    log_start pageNum (set_inFlight ({[pageNum]} ∪ inFlight s) s).

(** The [catch] block of [renderPage]. *)
Definition show_error (pageNum : nat) (e : Error) (h : Holder) : Holder :=
  {| dataset_page := dataset_page h;
     holder_classList := holder_classList h;
     sizer_paddingTop := sizer_paddingTop h;
     content :=
       [ContentError
          (or_else (message e) ("Failed to render page " +:+ pretty pageNum))] |}.

(** The end of the [try] block of [renderPage]. *)
Definition show_canvas (canvas : Canvas) (h : Holder) : Holder :=
  {| dataset_page := dataset_page h;
     holder_classList := classList_add "pdf-page-rendered" (holder_classList h);
     sizer_paddingTop := sizer_paddingTop h;
     content := [ContentCanvas canvas] |}.

(** The canvas of a page; [canvas.classList.add(className)] throws when
    [className] is no token. *)
Definition new_canvas (pageNum : nat) (viewport : Viewport) : Error + Canvas :=
  if valid_token className then
    inr {| cv_width := vp_width viewport; cv_height := vp_height viewport;
           cv_maxWidth := "100%"; cv_classList := classList_add className [];
           cv_page := pageNum |}
  else inl (tokenError className).

(** What the [try] block of [renderPage] comes to: [pdf.getPage] answers,
    the canvas is made, then [page.render(...).promise] settles with
    [render] ([None]: painted, [Some e]: rejected).  When the canvas cannot
    be made [page.render] is not called, and [render] does not count. *)
Definition render_outcome (pageNum : nat) (render : option Error)
  : Error + Canvas :=
  match getPage pdf pageNum with
  | inr page =>
      let viewport := getViewport page scale in
      match new_canvas pageNum viewport with
      | inr canvas =>
          match render with
          | None => inr canvas
          | Some e => inl e
          end
      | inl e => inl e
      end
  | inl e => inl e
  end.

(** [renderPage(pageNum)] from its first [await] on: the holder is filled
    in with the canvas or with the error, and the [finally] block takes the
    page out of [inFlight]; the promise of [renderPage] is resolved. *)
Definition renderPage_end (pageNum : nat) (render : option Error) (s : State)
  : State :=
  let container' :=
    match render_outcome pageNum render with
    | inr canvas => with_holder pageNum (show_canvas canvas) (container s)
    | inl e => with_holder pageNum (show_error pageNum e) (container s)
    end in
  set_settled (S (settled s))
    (set_inFlight (inFlight s ∖ {[pageNum]})
       (set_container container' s)).

(** The loop of [pump], by recursion on the queue it shifts:
    [while (active < concurrent && queue.length) {
       const next = queue.shift(); if (!next) break;
       active++; renderPage(next).finally(...); }] *)
Fixpoint pump_loop (q : list nat) (s : State) : State :=
  match q with
  | [] => set_queue [] s
  | next :: rest =>
      if bool_decide (active s < concurrent) then
        if decide (next = 0%nat) then set_queue rest s
        else
          pump_loop rest
            (renderPage_begin next
               (set_active (active s + 1) (set_queue rest s)))
      else set_queue q s
  end.

Definition pump (s : State) : State := pump_loop (queue s) s.

Definition enqueue (pageNum : nat) (s : State) : State :=
  if bool_decide (pageNum ∉ queue s) && bool_decide (pageNum ∉ inFlight s)
  then pump (log_push pageNum (set_queue (queue s ++ [pageNum]) s))
  else s.

(** The callback of [.finally]: [active--; pump();] *)
Definition on_finally (s : State) : State :=
  pump (set_active (active s - 1) (set_settled (pred (settled s)) s)).

(** An [IntersectionObserverEntry]; the target is one of the observed
    holders, named by its page number (set-up makes one holder per
    page). *)
Record Entry := {
  target : nat;
  isIntersecting : bool;
}.

(** One entry of the observer callback.  [None]: the target is not a
    holder of the container. *)
Definition on_entry (entry : Entry) (s : State) : option State :=
  holder ← querySelector_holder (target entry) (container s);
  if isIntersecting entry then
    let pageNum := dataset_page holder in
    let already :=
      classList_contains "pdf-page-rendered" (holder_classList holder) in
    if negb already then Some (enqueue pageNum s) else Some s
  else Some s.

(** [for (const entry of entries) { ... }] *)
Fixpoint on_intersect (entries : list Entry) (s : State) : option State :=
  match entries with
  | [] => Some s
  | entry :: rest => s' ← on_entry entry s; on_intersect rest s'
  end.

(** What can happen after set-up: the observer calls back; the awaits of a
    page in flight are over; a [.finally] callback runs. *)
Inductive Event :=
  | Intersect (entries : list Entry)
  | Settle (pageNum : nat) (render : option Error)
  | Finally.

(** One event; [None] when it cannot happen in [s]. *)
Definition step (s : State) (ev : Event) : option State :=
  match ev with
  | Intersect entries => on_intersect entries s
  | Settle pageNum render =>
      if decide (pageNum ∈ inFlight s)
      then Some (renderPage_end pageNum render s)
      else None
  | Finally =>
      if decide (settled s = 0%nat) then None else Some (on_finally s)
  end.

Fixpoint run (s : State) (evs : list Event) : option State :=
  match evs with
  | [] => Some s
  | ev :: rest => s' ← step s ev; run s' rest
  end.

End renderPDFLazy.

End Lazy.

(** * The sequential renderer of [pdf-preview.js] *)

Module Preview.

Section renderPDF.

Variable fetch : string → Error + Response.
Variable getDocument : ArrayBuffer → Error + PDFDocument.
(** How [page.render(...).promise] settles for a page. *)
Variable render : nat → option Error.
(** What [classList.add(token)] throws for a token it does not take. *)
Variable tokenError : string → Error.

Variable options : Options.

Definition scale : Qc := default (Q2Qc (3 # 2)) (opt_scale options).
Definition className : string := default "pdf-sheet" (opt_className options).
Definition minBytes : Z := default (5 * 1024) (opt_minBytes options).

(** [{ buf, size }] *)
Record Sized := { buf : ArrayBuffer; size : Z }.

Definition toArrayBufferWithSize (input : Source) : IO Sized :=
  modify_dom removeLoader;;
  match input with
  | SrcString url =>
      res ← await (Fetch url) (fetch url);
      if negb (res_ok res) then throw (fetch_failed (res_status res))
      else
        let measure_body : IO Sized :=
          buf ← await (ReadBody url) (res_arrayBuffer res);
          if bool_decide (byteLength buf < minBytes)
          then throw (too_small (byteLength buf) minBytes)
          else mret {| buf := buf; size := byteLength buf |} in
        match res_content_length res with
        | Some headerLen =>
            if bool_decide (0 < headerLen) then
              if bool_decide (headerLen < minBytes)
              then throw (too_small headerLen minBytes)
              else
                buf ← await (ReadBody url) (res_arrayBuffer res);
                mret {| buf := buf; size := byteLength buf |}
            else measure_body
        | None => measure_body
        end
  | SrcBlob input =>
      if bool_decide (blob_size input < minBytes)
      then throw (too_small (blob_size input) minBytes)
      else
        buf ← await ReadBlob (blob_arrayBuffer input);
        mret {| buf := buf; size := byteLength buf |}
  | SrcArrayBuffer input =>
      if bool_decide (byteLength input < minBytes)
      then throw (too_small (byteLength input) minBytes)
      else mret {| buf := input; size := byteLength input |}
  | SrcView input =>
      let size :=
        nullish (Some (Z.of_nat (view_byteLength input)))
          (nullish (Some (byteLength (buffer input))) 0) in
      if bool_decide (size < minBytes)
      then throw (too_small size minBytes)
      else mret {| buf := buffer input; size := size |}
  | SrcOther => throw unsupported_source
  end.

(** The canvas of a page; [canvas.classList.add(className)] throws when
    [className] is no token. *)
Definition new_canvas (pageNum : nat) (viewport : Viewport) : Error + Canvas :=
  if valid_token className then
    inr {| cv_width := vp_width viewport; cv_height := vp_height viewport;
           cv_maxWidth := "100%"; cv_classList := classList_add className [];
           cv_page := pageNum |}
  else inl (tokenError className).

(** [for (let pageNum = ...; pageNum <= pdf.numPages; pageNum++) { ... }],
    by recursion on the page numbers still to do. *)
Fixpoint render_pages (pdf : PDFDocument) (pageNums : list nat) : IO unit :=
  match pageNums with
  | [] => mret ()
  | pageNum :: rest =>
      page ← await (GetPage pageNum) (getPage pdf pageNum);
      let viewport := getViewport page scale in
      canvas ← (match new_canvas pageNum viewport with
                | inr canvas => mret canvas
                | inl e => throw e
                end);
      await (Render pageNum)
        (match render pageNum with
         | Some e => inl e
         | None => inr ()
         end);;
      modify_dom (λ container, container ++ [CanvasEl canvas]);;
      render_pages pdf rest
  end.

Definition main (src : Source) : IO unit :=
  sized ← toArrayBufferWithSize src;
  pdf ← await (GetDocument (buf sized)) (getDocument (buf sized));
  render_pages pdf (seq 1 (numPages pdf)).

Definition renderPDF (src : Source) (container : list Node) : World :=
  match main src {| dom := container; calls := [] |} with
  | (inr _, w) => w
  | (inl err, w) =>
      {| dom := dom w ++ [Div ["pdf-error"]
                            (or_else (message err) "Failed to load PDF.")];
         calls := calls w |}
  end.

End renderPDF.

End Preview.

(** * The renderer that paints all pages at once *)

Module Parallel.

Section renderPDF.

(** What [classList.add(token)] throws for a token it does not take. *)
Variable tokenError : string → Error.

Variable options : Options.

Definition scale : Qc := default (Q2Qc (3 # 2)) (opt_scale options).
Definition className : string := default "pdf-sheet" (opt_className options).

(** The document [pdfjsLib.getDocument(url)] has loaded. *)
Variable pdf : PDFDocument.

(** The async callback of [Array.from] for one index: waiting for
    [pdf.getPage], waiting for [page.render], or settled. *)
Inductive Task :=
  | AwaitPage
  | AwaitRender (canvas : Canvas)
  | Returned (canvas : Canvas)
  | Thrown (e : Error).

(** The promise of [Promise.all]. *)
Inductive All :=
  | Pending
  | Resolved (canvases : list Canvas)
  | Rejected (e : Error).

(** [values] and [remaining] are the result array and the counter of
    [Promise.all]; index [i] belongs to page [i + 1]. *)
Record State := {
  tasks : list Task;
  values : list (option Canvas);
  remaining : nat;
  all : All;
  container : list Node;
}.

(** The canvas of a page; [canvas.classList.add(className)] throws when
    [className] is no token. *)
Definition new_canvas (pageNum : nat) (viewport : Viewport) : Error + Canvas :=
  if valid_token className then
    inr {| cv_width := vp_width viewport; cv_height := vp_height viewport;
           cv_maxWidth := "100%"; cv_classList := classList_add className [];
           cv_page := pageNum |}
  else inl (tokenError className).

(** After [await Promise.all(...)]: the canvases go into a fragment and the
    fragment into the container. *)
Definition appended (canvases : list Canvas) (container : list Node)
  : list Node :=
  container ++ (CanvasEl <$> canvases).

(** The rest of the [try] block and [finally]: after the canvases are
    appended the first loader is removed, among them if it is one of
    them. *)
Definition on_all_resolved (canvases : list Canvas) (container : list Node)
  : list Node :=
  removeLoader (appended canvases container).

(** [catch] only logs; [finally] removes the loader. *)
Definition on_all_rejected (container : list Node) : list Node :=
  removeLoader container.

(** The values of a result array without holes. *)
Definition filled (values : list (option Canvas)) : list Canvas :=
  omap id values.

(** [renderPDF] up to [await Promise.all(...)]: one task per page, all
    started.  Of no pages, [Promise.all] resolves at once. *)
Definition start (container : list Node) : State :=
  let n := numPages pdf in
  match n with
  | O =>
      {| tasks := []; values := []; remaining := 0; all := Resolved [];
         container := on_all_resolved [] container |}
  | _ =>
      {| tasks := replicate n AwaitPage; values := replicate n None;
         remaining := n; all := Pending; container := container |}
  end.

(** A task throws: [Promise.all] rejects unless it is settled already. *)
Definition reject_all (e : Error) (s : State) : State :=
  match all s with
  | Pending =>
      {| tasks := tasks s; values := values s; remaining := remaining s;
         all := Rejected e; container := on_all_rejected (container s) |}
  | _ => s
  end.

(** A task returns its canvas: [Promise.all] stores it at the index of the
    task and resolves when no task is outstanding. *)
Definition resolve_element (i : nat) (canvas : Canvas) (s : State) : State :=
  let values' := <[i := Some canvas]> (values s) in
  let remaining' := pred (remaining s) in
  match all s, remaining' with
  | Pending, O =>
      {| tasks := tasks s; values := values'; remaining := remaining';
         all := Resolved (filled values');
         container := on_all_resolved (filled values') (container s) |}
  | _, _ =>
      {| tasks := tasks s; values := values'; remaining := remaining';
         all := all s; container := container s |}
  end.

Definition set_task (i : nat) (t : Task) (s : State) : State :=
  {| tasks := <[i := t]> (tasks s); values := values s;
     remaining := remaining s; all := all s; container := container s |}.

(** The promises of the tasks settle in any order. *)
Inductive Event :=
  | GotPage (i : nat)                        (* pdf.getPage(i + 1) answered *)
  | Rendered (i : nat) (render : option Error).

Definition step (s : State) (ev : Event) : option State :=
  match ev with
  | GotPage i =>
      match tasks s !! i with
      | Some AwaitPage =>
          let pageNum := (i + 1)%nat in
          match getPage pdf pageNum with
          | inr page =>
              let viewport := getViewport page scale in
              match new_canvas pageNum viewport with
              | inr canvas => Some (set_task i (AwaitRender canvas) s)
              | inl e => Some (reject_all e (set_task i (Thrown e) s))
              end
          | inl e => Some (reject_all e (set_task i (Thrown e) s))
          end
      | _ => None
      end
  | Rendered i render =>
      match tasks s !! i with
      | Some (AwaitRender canvas) =>
          match render with
          | None => Some (resolve_element i canvas (set_task i (Returned canvas) s))
          | Some e => Some (reject_all e (set_task i (Thrown e) s))
          end
      | _ => None
      end
  end.

Fixpoint run (s : State) (evs : list Event) : option State :=
  match evs with
  | [] => Some s
  | ev :: rest => s' ← step s ev; run s' rest
  end.

End renderPDF.

(** [renderPDF]: the document loads and the tasks start, or it does not load
    ([catch] logs, [finally] removes the loader). *)
Definition renderPDF (getDocument : string → Error + PDFDocument)
    (url : string) (container : list Node) : State :=
  match getDocument url with
  | inr pdf => start pdf container
  | inl e =>
      {| tasks := []; values := []; remaining := 0; all := Rejected e;
         container := on_all_rejected container |}
  end.

End Parallel.

(** * The renderer of [pdf-preview.js] that chains promises *)

Module Chained.

(** The canvas of a page, with the bottom margin this renderer gives it. *)
Record Sheet := {
  sheet_canvas : Canvas;
  sheet_marginBottom : string;
}.

(** The children of the container: what the page put there, a canvas the
    renderer appended, or the text node that an assignment to
    [container.textContent] leaves. *)
Inductive Child :=
  | Existing (n : Node)
  | Appended (c : Sheet)
  | Text (text : string).

(** [{ scale: 1.5 }] *)
Definition scale : Qc := Q2Qc (3 # 2).

Definition new_canvas (pageNum : nat) (viewport : Viewport) : Sheet :=
  {| sheet_canvas :=
       {| cv_width := vp_width viewport; cv_height := vp_height viewport;
          cv_maxWidth := "100%"; cv_classList := classList_add "pdf-sheet" [];
          cv_page := pageNum |};
     sheet_marginBottom := "16px" |}.

(** The chain of one page: [pdf.getPage(pageNum).then(...)] waits for the
    page, then [page.render(...).promise.then(...)] waits for the render
    and appends the canvas.  A rejection has no handler: the chain stops
    and nothing is shown. *)
Inductive Task :=
  | AwaitPage
  | AwaitRender (canvas : Sheet)
  | Done
  | Dropped (e : Error).

Record State := {
  tasks : list Task;
  container : list Child;
}.

(** The callback of the first [then]: one chain per page, all started in
    the loop. *)
Definition start (pdf : PDFDocument) (container : list Child) : State :=
  {| tasks := replicate (numPages pdf) AwaitPage; container := container |}.

(** [container.textContent = "Failed to load PDF: " + error.message]: the
    children are replaced by one text node.  The rejection is an object; a
    message it does not have reads [undefined]. *)
Definition on_load_failure (error : Error) : list Child :=
  [Text ("Failed to load PDF: " +:+ default "undefined" (message error))].

(** [renderPDF(url, container)] once [loadingTask.promise] has settled. *)
Definition renderPDF (getDocument : string → Error + PDFDocument)
    (url : string) (container : list Child) : State :=
  match getDocument url with
  | inr pdf => start pdf container
  | inl error => {| tasks := []; container := on_load_failure error |}
  end.

Definition set_task (i : nat) (t : Task) (s : State) : State :=
  {| tasks := <[i := t]> (tasks s); container := container s |}.

(** The promises of the chains settle in any order; index [i] belongs to
    page [i + 1]. *)
Inductive Event :=
  | GotPage (i : nat)
  | Rendered (i : nat) (render : option Error).

Definition step (pdf : PDFDocument) (s : State) (ev : Event) : option State :=
  match ev with
  | GotPage i =>
      match tasks s !! i with
      | Some AwaitPage =>
          let pageNum := (i + 1)%nat in
          match getPage pdf pageNum with
          | inr page =>
              let viewport := getViewport page scale in
              Some (set_task i (AwaitRender (new_canvas pageNum viewport)) s)
          | inl e => Some (set_task i (Dropped e) s)
          end
      | _ => None
      end
  | Rendered i render =>
      match tasks s !! i with
      | Some (AwaitRender canvas) =>
          match render with
          | None =>
              Some {| tasks := <[i := Done]> (tasks s);
                      container := container s ++ [Appended canvas] |}
          | Some e => Some (set_task i (Dropped e) s)
          end
      | _ => None
      end
  end.

Fixpoint run (pdf : PDFDocument) (s : State) (evs : list Event)
  : option State :=
  match evs with
  | [] => Some s
  | ev :: rest => s' ← step pdf s ev; run pdf s' rest
  end.

End Chained.

Import Lazy.

(** * Notions the properties are stated with *)

(** ** Source validation and set-up *)

(** The size a source reports: the size of a blob, the byte length of a
    buffer or of a view; for a URL that was fetched with success, the
    content-length hint when it is a positive number, and the length of the
    body otherwise. *)
Definition reported_size (fetch : string → Error + Response) (src : Source)
  : option Z :=
  match src with
  | SrcString url =>
      match fetch url with
      | inr res =>
          let measured :=
            match res_arrayBuffer res with
            | inr body => Some (byteLength body)
            | inl _ => None
            end in
          if res_ok res then
            match res_content_length res with
            | Some len => if bool_decide (0 < len) then Some len else measured
            | None => measured
            end
          else None
      | inl _ => None
      end
  | SrcBlob b => Some (blob_size b)
  | SrcArrayBuffer a => Some (byteLength a)
  | SrcView v => Some (Z.of_nat (view_byteLength v))
  | SrcOther => None
  end.

(** Set-up went through: the source passed validation, the document opened,
    its first page was read for the placeholders and the observer was
    built. *)
Definition set_up_succeeds
    (fetch : string → Error + Response)
    (getDocument : ArrayBuffer → Error + PDFDocument)
    (observer : string → option Error) (options : Options)
    (src : Source) (container : list Node) (pdf : PDFDocument) : Prop :=
  ∃ data w firstPage,
    Lazy.toArrayBufferWithSize fetch options src
      {| dom := container; calls := [] |} = (inr data, w)
    ∧ getDocument data = inr pdf
    ∧ getPage pdf 1 = inr firstPage
    ∧ observer (Lazy.rootMargin options) = None.

(** The padding, in percent, that keeps the aspect ratio of a page at a
    scale. *)
Definition ratio_padding (page : PDFPage) (scale : Qc) : Qc :=
  (vp_height (getViewport page scale) / vp_width (getViewport page scale)
   * Q2Qc 100)%Qc.

(** Set-up sizes every placeholder by the aspect ratio of its own page (a
    property the code does not have). *)
Definition each_placeholder_keeps_own_ratio : Prop :=
  ∀ fetch getDocument observer options src container pdf w,
    Lazy.renderPDFLazy fetch getDocument observer options src container
    = (Lazy.Teardown pdf, w) →
    holder_pages container = [] →
    ∀ i page, (1 ≤ i ≤ numPages pdf)%nat → getPage pdf i = inr page →
      ∃ h, querySelector_holder i (dom w) = Some h
           ∧ sizer_paddingTop h = ratio_padding page (Lazy.scale options).

(** ** Holders *)

(** A holder as set-up leaves it: a page number that is a number, not yet
    marked as rendered. *)
Definition unrendered (n : Node) : Prop :=
  match n with
  | PageHolder h =>
      dataset_page h ≠ 0%nat ∧ "pdf-page-rendered" ∉ holder_classList h
  | _ => True
  end.

(** A container whose holders are all as set-up leaves them. *)
Definition fresh (container : list Node) : Prop := Forall unrendered container.

(** The container has a holder for page [p], not marked as rendered. *)
Definition is_unrendered (p : nat) (c : list Node) : Prop :=
  ∃ h, querySelector_holder p c = Some h
       ∧ "pdf-page-rendered" ∉ holder_classList h.


(** A child that is no holder with the loader: a holder of this kind
    neither has the class [pdf-loader] nor a canvas of that class. *)
Definition no_loader_holder (n : Node) : Prop :=
  match n with
  | PageHolder _ => is_loader n = false
  | _ => True
  end.

(** ** Runs of the scheduler *)

(** One turn of the loop of [pump]. *)
Definition turn (next : nat) (rest : list nat) (s : Lazy.State) : Lazy.State :=
  Lazy.renderPage_begin next
    (Lazy.set_active (Lazy.active s + 1) (Lazy.set_queue rest s)).

(** A page waits in the queue or is being rendered. *)
Definition pending (p : nat) (s : State) : Prop :=
  p ∈ queue s ∨ p ∈ inFlight s.

(** The number of times [renderPage] got past its guard for a page. *)
Definition render_calls (p : nat) (s : State) : nat :=
  length (filter (λ q, q = p) (started s)).

(** [A] occurs in [l], and [B] does not occur before it. *)
Definition precedes (A B : nat) (l : list nat) : Prop :=
  ∃ l1 l2, l = l1 ++ A :: l2 ∧ B ∉ l1.

(** The settlements of [p] in a run. *)
Definition settles (p : nat) (ev : Event) : Prop :=
  match ev with
  | Settle q _ => q = p
  | _ => False
  end.

(** The observer reports that [p] is near the viewport. *)
Definition notifies (p : nat) (ev : Event) : Prop :=
  match ev with
  | Intersect entries => {| target := p; isIntersecting := true |} ∈ entries
  | _ => False
  end.

(** What an event writes into the holder of page [q]: only a settlement of
    [q] itself writes there. *)
Definition settle_holder (tokenError : string → Error) (options : Options)
    (pdf : PDFDocument) (q : nat) (ev : Event) (h : Holder) : Holder :=
  match ev with
  | Settle p r =>
      if decide (p = q) then
        match render_outcome tokenError options pdf p r with
        | inr canvas => show_canvas canvas h
        | inl e => show_error p e h
        end
      else h
  | _ => h
  end.

(** What a run writes into the holder of page [q]. *)
Fixpoint apply_settlements (tokenError : string → Error) (options : Options)
    (pdf : PDFDocument) (q : nat) (evs : list Event) (h : Holder) : Holder :=
  match evs with
  | [] => h
  | ev :: rest =>
      apply_settlements tokenError options pdf q rest
        (settle_holder tokenError options pdf q ev h)
  end.


(** ** Invariants of the scheduler *)

(** The counter counts the pages in flight and the [.finally] callbacks
    still due, and stays within the limit. *)
Definition counted (options : Options) (s : State) : Prop :=
  active s = Z.of_nat (size (inFlight s)) + Z.of_nat (settled s)
  ∧ active s ≤ Z.max 0 (concurrent options).

(** The queue has no duplicates and shares no page with the set; what is
    queued or in flight is a holder not yet rendered; the queue is the part
    of the push log that has not been started. *)
Record sound (s : State) : Prop := {
  sound_nodup : NoDup (queue s);
  sound_disjoint : ∀ p, p ∈ queue s → p ∉ inFlight s;
  sound_pending : ∀ p, pending p s → is_unrendered p (container s);
  sound_nonzero : 0%nat ∉ holder_pages (container s);
  sound_log : pushed s = started s ++ queue s;
}.

(** After [pump], pages wait only behind a full gate. *)
Definition busy (options : Options) (s : State) : Prop :=
  queue s = [] ∨ concurrent options ≤ active s.

(** What holds in every state the scheduler reaches. *)
Definition good (options : Options) (s : State) : Prop :=
  counted options s ∧ sound s ∧ busy options s.

(** [s'] comes after [s]: both logs have only grown. *)
Definition extends (s s' : State) : Prop :=
  (∃ more, pushed s' = pushed s ++ more)
  ∧ (∃ new, started s' = started s ++ new).

(** Render calls of a page, plus one while the page is not in flight: no
    event but a settlement of the page changes it. *)
Definition credit (p : nat) (s : State) : nat :=
  (render_calls p s + (if decide (p ∈ inFlight s) then 0 else 1))%nat.

(** ** The renderer that paints all pages at once *)

(** The canvas the parallel renderer makes for a page. *)
Definition page_canvas (tokenError : string → Error) (options : Options)
    (pdf : PDFDocument) (pageNum : nat) : option Canvas :=
  match getPage pdf pageNum with
  | inr page =>
      match Parallel.new_canvas tokenError options pageNum
              (getViewport page (Parallel.scale options)) with
      | inr canvas => Some canvas
      | inl _ => None
      end
  | inl _ => None
  end.

(** What [Promise.all] holds for a task. *)
Definition slot (t : Parallel.Task) : option Canvas :=
  match t with
  | Parallel.Returned canvas => Some canvas
  | _ => None
  end.

(** The tasks that have not returned. *)
Definition outstanding (tasks : list Parallel.Task) : nat :=
  length (filter (λ t, slot t = None) tasks).

Record parallel_inv (tokenError : string → Error) (options : Options)
    (pdf : PDFDocument) (c0 : list Node) (s : Parallel.State) : Prop := {
  pi_values : Parallel.values s = slot <$> Parallel.tasks s;
  pi_remaining : Parallel.remaining s = outstanding (Parallel.tasks s);
  pi_canvas : ∀ i cv,
    Parallel.tasks s !! i = Some (Parallel.AwaitRender cv)
    ∨ Parallel.tasks s !! i = Some (Parallel.Returned cv) →
    page_canvas tokenError options pdf (i + 1) = Some cv;
  pi_all :
    match Parallel.all s with
    | Parallel.Pending =>
        Parallel.container s = c0 ∧ Parallel.remaining s ≠ 0%nat
    | Parallel.Resolved canvases =>
        Parallel.remaining s = 0%nat
        ∧ canvases = Parallel.filled (Parallel.values s)
        ∧ Parallel.container s = Parallel.on_all_resolved canvases c0
    | Parallel.Rejected _ =>
        Parallel.container s = Parallel.on_all_rejected c0
        ∧ ∃ i e, Parallel.tasks s !! i = Some (Parallel.Thrown e)
    end;
  pi_length : length (Parallel.tasks s) = numPages pdf;
}.

(** ** Examples *)

(** A response that announces 4096 bytes. *)
Definition hint_4096 (url : string) : Error + Response :=
  inr {| res_ok := true; res_status := 200; res_content_length := Some 4096;
         res_arrayBuffer := inr [] |}.

(** Options that accept a source of any size. *)
Definition any_size : Options :=
  {| opt_scale := None; opt_className := None; opt_minBytes := Some 0;
     opt_rootMargin := None; opt_concurrent := None |}.

(** Four bytes in the middle of a buffer of eight, and options that ask
    for four bytes. *)
Definition window : TypedArray :=
  {| buffer := replicate 8 Byte.x00; byteOffset := 2; view_byteLength := 4 |}.

Definition four_bytes : Options :=
  {| opt_scale := None; opt_className := None; opt_minBytes := Some 4;
     opt_rootMargin := None; opt_concurrent := None |}.

(** An upright page, twice as high as wide. *)
Definition upright : PDFPage :=
  {| getViewport := λ scale,
       {| vp_width := (Q2Qc 100 * scale)%Qc;
          vp_height := (Q2Qc 200 * scale)%Qc |} |}.

(** A page on its side. *)
Definition sideways : PDFPage :=
  {| getViewport := λ scale,
       {| vp_width := (Q2Qc 200 * scale)%Qc;
          vp_height := (Q2Qc 100 * scale)%Qc |} |}.

(** A two-page document: an upright first page, a second page on its
    side. *)
Definition mixed_document : PDFDocument :=
  {| numPages := 2;
     getPage := λ n,
       match n with
       | 1%nat => inr upright
       | 2%nat => inr sideways
       | _ => inl (new_Error "Invalid page request")
       end |}.

(** A document of five upright pages. *)
Definition five_pages : PDFDocument :=
  {| numPages := 5;
     getPage := λ n,
       if bool_decide (1 ≤ n ≤ 5)%nat then inr upright
       else inl (new_Error "Invalid page request") |}.

(** The holder of page [p] comes near the viewport. *)
Definition near (p : nat) : Event :=
  Intersect [{| target := p; isIntersecting := true |}].

(** A render that is rejected. *)
Definition boom : option Error := Some (new_Error "boom").

(** An exception of [classList.add]. *)
Definition refused (token : string) : Error :=
  new_Error "The token provided must not be empty or contain white space.".

(** The state of the five-page example after some events. *)
Definition after (evs : list Event) : State :=
  default (init [])
    (run refused no_options five_pages (init (placeholders 5 1%Qc)) evs).

(** The five tasks settle last page first. *)
Definition backwards : list Parallel.Event :=
  [Parallel.GotPage 4; Parallel.GotPage 3; Parallel.Rendered 4 None;
   Parallel.GotPage 2; Parallel.GotPage 1; Parallel.GotPage 0;
   Parallel.Rendered 3 None; Parallel.Rendered 2 None;
   Parallel.Rendered 1 None; Parallel.Rendered 0 None].

(** The state of the parallel renderer after [backwards], with a loader
    in the container. *)
Definition after_backwards : Parallel.State :=
  default (Parallel.start five_pages [])
    (Parallel.run refused no_options five_pages
       (Parallel.start five_pages [Div ["pdf-loader"] ""]) backwards).

(** ** More notions: validation and loaders *)

(** A source whose parts agree: the bytes of a blob are as many as its
    size, and the window of a view lies inside its buffer. *)
Definition consistent (src : Source) : Prop :=
  match src with
  | SrcBlob b =>
      ∀ body, blob_arrayBuffer b = inr body → byteLength body = blob_size b
  | SrcView v => view_wf v
  | _ => True
  end.

(** The calls validation makes for a source it accepts. *)
Definition validation_calls (src : Source) : list Call :=
  match src with
  | SrcString url => [Fetch url; ReadBody url]
  | SrcBlob _ => [ReadBlob]
  | _ => []
  end.

(** The elements of class [pdf-loader] that a child is or holds. *)
Definition loader_elements (n : Node) : nat :=
  match n with
  | Div cl _ => if classList_contains "pdf-loader" cl then 1 else 0
  | PageHolder h =>
      ((if classList_contains "pdf-loader" (holder_classList h) then 1 else 0)
       + length (filter (λ c, child_is_loader c = true) (content h)))%nat
  | CanvasEl canvas =>
      if classList_contains "pdf-loader" (cv_classList canvas) then 1 else 0
  end.

(** The number of loaders under a container. *)
Definition loaders (container : list Node) : nat :=
  sum_list_with loader_elements container.

(** The children of a container that neither are nor hold a loader. *)
Definition without_loaders (container : list Node) : list Node :=
  filter (λ n, is_loader n = false) container.

(** The document whose placeholders set-up has put into the container:
    there is one when validation, the opening of the document and the
    read of its first page have gone through. *)
Definition placeholders_inserted
    (fetch : string → Error + Response)
    (getDocument : ArrayBuffer → Error + PDFDocument)
    (options : Options) (src : Source) (container : list Node)
  : option PDFDocument :=
  match Lazy.toArrayBufferWithSize fetch options src
          {| dom := container; calls := [] |} with
  | (inr data, _) =>
      match getDocument data with
      | inr pdf =>
          match getPage pdf 1 with
          | inr _ => Some pdf
          | inl _ => None
          end
      | inl _ => None
      end
  | (inl _, _) => None
  end.

(** The call opens a document. *)
Definition opens (c : Call) : bool :=
  match c with
  | GetDocument _ => true
  | _ => false
  end.

(** ** More notions: the sequential renderer *)

(** What the sequential renderer has in hand for a page when it calls
    [page.render]: the canvas, unless [pdf.getPage] rejects or the canvas
    cannot be made. *)
Definition sheet_or_error (tokenError : string → Error) (options : Options)
    (pdf : PDFDocument) (pageNum : nat) : Error + Canvas :=
  match getPage pdf pageNum with
  | inr page =>
      Preview.new_canvas tokenError options pageNum
        (getViewport page (Preview.scale options))
  | inl e => inl e
  end.

(** The canvas the sequential renderer makes for a page. *)
Definition sheet (tokenError : string → Error) (options : Options)
    (pdf : PDFDocument) (pageNum : nat) : option Canvas :=
  match sheet_or_error tokenError options pdf pageNum with
  | inr canvas => Some canvas
  | inl _ => None
  end.

(** The error that stops the page loop of the sequential renderer at a
    page: [pdf.getPage] rejects, the canvas cannot be made, or the render
    is rejected. *)
Definition page_error (tokenError : string → Error) (options : Options)
    (pdf : PDFDocument) (render : nat → option Error) (pageNum : nat)
  : option Error :=
  match sheet_or_error tokenError options pdf pageNum with
  | inr _ => render pageNum
  | inl e => Some e
  end.

(** The calls the page loop makes for a page: [page.render] is called
    when there is a page and a canvas. *)
Definition page_calls (tokenError : string → Error) (options : Options)
    (pdf : PDFDocument) (pageNum : nat) : list Call :=
  GetPage pageNum ::
  match sheet_or_error tokenError options pdf pageNum with
  | inr _ => [Render pageNum]
  | inl _ => []
  end.

(** ** More notions: runs of the scheduler *)

(** An event that is no observer callback: after [disconnect()] only
    these happen. *)
Definition quiet (ev : Event) : Prop :=
  match ev with
  | Intersect _ => False
  | _ => True
  end.

(** The number of settlements of page [p] in a run. *)
Definition settlements (p : nat) (evs : list Event) : nat :=
  length (filter (λ ev, match ev with
                        | Settle q _ => bool_decide (q = p)
                        | _ => false
                        end = true) evs).

(** Two children of the container take the same place in the layout: a
    holder keeps its page number, its sizer and the classes it had. *)
Definition same_slot (n n' : Node) : Prop :=
  match n, n' with
  | PageHolder h, PageHolder h' =>
      dataset_page h' = dataset_page h
      ∧ sizer_paddingTop h' = sizer_paddingTop h
      ∧ holder_classList h ⊆ holder_classList h'
  | _, _ => n' = n
  end.

(** What a holder can show: nothing yet, one error message, or the canvas
    of its own page; it carries the rendered mark with the canvas only. *)
Definition holder_shows (tokenError : string → Error) (options : Options)
    (pdf : PDFDocument) (h : Holder) : Prop :=
  (content h = [] ∧ "pdf-page-rendered" ∉ holder_classList h)
  ∨ (∃ text, text ≠ "" ∧ content h = [ContentError text]
             ∧ "pdf-page-rendered" ∉ holder_classList h)
  ∨ (∃ canvas,
       render_outcome tokenError options pdf (dataset_page h) None = inr canvas
       ∧ content h = [ContentCanvas canvas]
               ∧ "pdf-page-rendered" ∈ holder_classList h).

(** A container as set-up leaves it: fresh holders with empty content
    boxes. *)
Definition blank (container : list Node) : Prop :=
  fresh container
  ∧ ∀ h, PageHolder h ∈ container → content h = [].

(** Work still to do: a queued page has a start, a settlement and a
    [.finally] callback ahead of it, a page in flight the last two. *)
Definition backlog (s : State) : nat :=
  (3 * length (queue s) + 2 * size (inFlight s) + settled s)%nat.

(** The world after the set-up of a five-page document given as a view,
    in a container with a loader. *)
Definition after_set_up : World :=
  (Lazy.renderPDFLazy (λ _, inl (mkError None)) (λ _, inr five_pages)
     (λ _, None) four_bytes (SrcView window) [Div ["pdf-loader"] ""]).2.

(** ** More notions: the renderer that paints all pages at once *)

(** The promises a task still waits for. *)
Definition awaits (t : Parallel.Task) : nat :=
  match t with
  | Parallel.AwaitPage => 2
  | Parallel.AwaitRender _ => 1
  | _ => 0
  end.

(** The promises all tasks together still wait for. *)
Definition awaited (tasks : list Parallel.Task) : nat :=
  sum_list_with awaits tasks.

(** Options that give the canvases the class of the loader, and options
    whose class is no token. *)
Definition loader_class : Options :=
  {| opt_scale := None; opt_className := Some "pdf-loader";
     opt_minBytes := None; opt_rootMargin := None; opt_concurrent := None |}.

Definition two_words : Options :=
  {| opt_scale := None; opt_className := Some "a b";
     opt_minBytes := None; opt_rootMargin := None; opt_concurrent := None |}.

(** The pages of the canvases that are children of a container. *)
Definition canvas_pages (container : list Node) : list nat :=
  omap (λ n, match n with
             | CanvasEl canvas => Some (cv_page canvas)
             | _ => None
             end) container.

(** ** More notions: the renderer that chains promises *)

(** The canvas the chained renderer makes for a page. *)
Definition chained_canvas (pdf : PDFDocument) (pageNum : nat)
  : option Chained.Sheet :=
  match getPage pdf pageNum with
  | inr page =>
      Some (Chained.new_canvas pageNum (getViewport page Chained.scale))
  | inl _ => None
  end.

(** The pages whose render is reported as painted, in the order of the
    reports. *)
Definition completed (evs : list Chained.Event) : list nat :=
  omap (λ ev, match ev with
              | Chained.Rendered i None => Some (i + 1)%nat
              | _ => None
              end) evs.

(** Every page is asked for, first to last; then the renders are reported
    in the given order of indices. *)
Definition finish_in_order (n : nat) (order : list nat) : list Chained.Event :=
  (Chained.GotPage <$> seq 0 n) ++ ((λ i, Chained.Rendered i None) <$> order).

(** The pages of the canvases appended to a container. *)
Definition appended_pages (container : list Chained.Child) : list nat :=
  omap (λ c, match c with
             | Chained.Appended sheet => Some (cv_page (Chained.sheet_canvas sheet))
             | _ => None
             end) container.

(** The chain of index [i] once its page has been asked for. *)
Definition asked (pdf : PDFDocument) (i : nat) : Chained.Task :=
  match getPage pdf (i + 1) with
  | inr page =>
      Chained.AwaitRender
        (Chained.new_canvas (i + 1) (getViewport page Chained.scale))
  | inl e => Chained.Dropped e
  end.

(** The chains on their way, and what they have appended, after the
    events [evs]. *)
Record chained_inv (pdf : PDFDocument) (c0 : list Chained.Child)
    (evs : list Chained.Event) (s : Chained.State) : Prop := {
  ci_await : ∀ i cv,
    Chained.tasks s !! i = Some (Chained.AwaitRender cv) →
    chained_canvas pdf (i + 1) = Some cv;
  ci_waiting : ∀ i,
    Chained.tasks s !! i = Some Chained.AwaitPage
    ∨ (∃ cv, Chained.tasks s !! i = Some (Chained.AwaitRender cv)) →
    (i + 1)%nat ∉ completed evs;
  ci_nodup : NoDup (completed evs);
  ci_container : ∃ canvases,
    Chained.container s = c0 ++ (Chained.Appended <$> canvases)
    ∧ chained_canvas pdf <$> completed evs = Some <$> canvases;
}.

(** * Facts *)

(** ** The DOM helpers *)


Lemma removeLoader_snoc container n :
  is_loader n = false →
  removeLoader (container ++ [n]) = removeLoader container ++ [n].
Proof.
  intros Hn. induction container as [|m rest IH]; simpl.
  - by rewrite Hn.
  - destruct (is_loader m); [by rewrite (assoc_L (++))|]. by rewrite IH.
Qed.

(** The first loader is not looked for among children that are none. *)
Lemma removeLoader_app_r c1 c2 :
  Forall (λ n, is_loader n = false) c2 →
  removeLoader (c1 ++ c2) = removeLoader c1 ++ c2.
Proof.
  intros Hc2. induction c1 as [|m rest IH]; simpl.
  - induction Hc2 as [|n c2 Hn _ IH]; [done|]. simpl. by rewrite Hn, IH.
  - destruct (is_loader m); [by rewrite (assoc_L (++))|]. by rewrite IH.
Qed.

(** The first loader is found among the first children when one is
    there. *)
Lemma removeLoader_app_l c1 c2 :
  Exists (λ n, is_loader n = true) c1 →
  removeLoader (c1 ++ c2) = removeLoader c1 ++ c2.
Proof.
  induction 1 as [m rest Hm|m rest _ IH]; simpl.
  - by rewrite Hm, (assoc_L (++)).
  - destruct (is_loader m); [by rewrite (assoc_L (++))|]. by rewrite IH.
Qed.

(** The child that is removed, or loses the loader it holds, is the first
    that is or holds one. *)
Lemma removeLoader_first c1 n c2 :
  Forall (λ n, is_loader n = false) c1 → is_loader n = true →
  removeLoader (c1 ++ n :: c2) = c1 ++ without_loader n ++ c2.
Proof.
  intros Hc1 Hn. induction Hc1 as [|m c1 Hm _ IH]; simpl.
  - by rewrite Hn.
  - by rewrite Hm, IH.
Qed.

Lemma removeLoader_none c :
  Forall (λ n, is_loader n = false) c → removeLoader c = c.
Proof.
  intros Hc. apply (removeLoader_app_r [] c Hc).
Qed.

(** The loader sought in a container with canvases of one class behind
    it: the canvases are passed over when the container holds a loader or
    the class is another; else the first canvas is the loader. *)
Lemma removeLoader_canvases c0 (canvases : list Canvas) cls :
  Forall (λ cv, cv_classList cv = [cls]) canvases →
  (Exists (λ n, is_loader n = true) c0 ∨ cls ≠ "pdf-loader" →
   removeLoader (c0 ++ (CanvasEl <$> canvases))
   = removeLoader c0 ++ (CanvasEl <$> canvases))
  ∧ (Forall (λ n, is_loader n = false) c0 → cls = "pdf-loader" →
     removeLoader (c0 ++ (CanvasEl <$> canvases))
     = c0 ++ (CanvasEl <$> drop 1 canvases)).
Proof.
  intros Hclass. split.
  - intros [Hloader|Hname]; [by apply removeLoader_app_l|].
    apply removeLoader_app_r, Forall_fmap.
    eapply Forall_impl; [exact Hclass|]. intros cv Hcv. simpl.
    rewrite Hcv. unfold classList_contains. apply bool_decide_eq_false_2.
    intros Heq%list_elem_of_singleton. by apply Hname.
  - intros Hnone Hname. destruct Hclass as [|cv rest Hcv _].
    { simpl. rewrite (right_id_L [] (++)). by apply removeLoader_none. }
    rewrite fmap_cons, removeLoader_first; [done|done|].
    simpl. rewrite Hcv, Hname.
    unfold classList_contains. apply bool_decide_eq_true_2. left.
Qed.

Lemma holder_pages_app c1 c2 :
  holder_pages (c1 ++ c2) = holder_pages c1 ++ holder_pages c2.
Proof.
  induction c1 as [|[]]; simpl; [done|done| |done]. by rewrite IHc1.
Qed.

(** Where no holder is or holds the loader, removing the loader leaves
    the holders alone. *)
Lemma holder_pages_removeLoader container :
  Forall no_loader_holder container →
  holder_pages (removeLoader container) = holder_pages container.
Proof.
  induction 1 as [|n rest Hn _ IH]; [done|].
  destruct n as [cl t|h|cv]; simpl in *.
  - destruct (classList_contains _ _); simpl; by rewrite ?IH.
  - rewrite Hn. simpl. by rewrite IH.
  - destruct (classList_contains _ _); simpl; by rewrite ?IH.
Qed.

Lemma querySelector_removeLoader p container :
  Forall no_loader_holder container →
  querySelector_holder p (removeLoader container)
  = querySelector_holder p container.
Proof.
  induction 1 as [|n rest Hn _ IH]; [done|].
  destruct n as [cl t|h|cv]; simpl in *.
  - destruct (classList_contains _ _); simpl; by rewrite ?IH.
  - rewrite Hn. simpl. by rewrite IH.
  - destruct (classList_contains _ _); simpl; by rewrite ?IH.
Qed.

Lemma no_loader_holder_removeLoader container :
  Forall no_loader_holder container →
  Forall no_loader_holder (removeLoader container).
Proof.
  induction 1 as [|n rest Hn Hrest IH]; [done|].
  destruct n as [cl t|h|cv]; simpl in *.
  - destruct (classList_contains _ _); [done|by constructor].
  - rewrite Hn. by constructor.
  - destruct (classList_contains _ _); [done|by constructor].
Qed.

(** A container without holders has no holder with the loader. *)
Lemma no_holders_no_loader_holder container :
  holder_pages container = [] → Forall no_loader_holder container.
Proof.
  induction container as [|[cl t|h|cv] rest IH]; simpl; intros Hnone;
    [constructor| |done|]; constructor; auto; done.
Qed.

(** Removing the loader adds no holder: the holders left are holders that
    were there, in their order. *)
Lemma holder_pages_removeLoader_sublist container :
  holder_pages (removeLoader container) `sublist_of` holder_pages container.
Proof.
  induction container as [|n rest IH]; [done|].
  destruct n as [cl t|h|cv]; simpl.
  - by destruct (classList_contains _ _).
  - destruct (_ || _); simpl.
    + destruct (classList_contains _ _); simpl; [by apply sublist_cons|done].
    + by apply sublist_skip.
  - by destruct (classList_contains _ _).
Qed.

Lemma querySelector_app_fresh p c1 c2 :
  p ∉ holder_pages c1 →
  querySelector_holder p (c1 ++ c2) = querySelector_holder p c2.
Proof.
  induction c1 as [|[]]; simpl; intros Hp; auto.
  rewrite decide_False; [|set_solver]. apply IHc1. set_solver.
Qed.

Lemma holder_pages_placeholders n ratio :
  holder_pages (Lazy.placeholders n ratio) = seq 1 n.
Proof.
  unfold Lazy.placeholders. generalize 1%nat.
  induction n; intros k; simpl; [done|]. by rewrite IHn.
Qed.

Lemma querySelector_placeholders n ratio i :
  (1 ≤ i ≤ n)%nat →
  querySelector_holder i (Lazy.placeholders n ratio)
  = Some {| dataset_page := i; holder_classList := ["pdf-page-holder"];
            sizer_paddingTop := (ratio * Q2Qc 100)%Qc; content := [] |}.
Proof.
  unfold Lazy.placeholders.
  assert (∀ k m, (k ≤ i < k + m)%nat →
    querySelector_holder i (Lazy.placeholder ratio <$> seq k m)
    = Some {| dataset_page := i; holder_classList := ["pdf-page-holder"];
              sizer_paddingTop := (ratio * Q2Qc 100)%Qc; content := [] |}) as H.
  { intros k m. revert k. induction m; intros k Hk; simpl; [lia|].
    destruct (decide (k = i)) as [->|]; [done|]. apply IHm. lia. }
  intros Hi. apply H. lia.
Qed.

(** The placeholders of set-up are fresh. *)
Lemma fresh_placeholders n ratio : fresh (Lazy.placeholders n ratio).
Proof.
  unfold fresh, Lazy.placeholders. apply Forall_fmap, Forall_forall.
  intros i Hi%elem_of_seq. simpl. split; [lia|].
  by intros Hin%list_elem_of_singleton.
Qed.

(** The placeholders of set-up are no loaders, so the loader is never
    looked for, or found, among them. *)
Lemma placeholders_no_loader n ratio :
  Forall (λ n, is_loader n = false) (Lazy.placeholders n ratio).
Proof.
  unfold Lazy.placeholders. apply Forall_fmap, Forall_forall.
  by intros i _.
Qed.

Lemma removeLoader_placeholders container n ratio :
  removeLoader (removeLoader (container ++ Lazy.placeholders n ratio))
  = removeLoader (removeLoader container) ++ Lazy.placeholders n ratio.
Proof.
  by rewrite !removeLoader_app_r by apply placeholders_no_loader.
Qed.

Lemma holder_pages_removeLoader_none container :
  holder_pages container = [] → holder_pages (removeLoader container) = [].
Proof.
  intros Hnone.
  rewrite holder_pages_removeLoader by by apply no_holders_no_loader_holder.
  done.
Qed.

Lemma holder_pages_removeLoader_twice container :
  holder_pages container = [] →
  holder_pages (removeLoader (removeLoader container)) = [].
Proof. intros Hnone. by do 2 apply holder_pages_removeLoader_none. Qed.

(** ** Source validation and set-up *)

Ltac io :=
  unfold mbind, mret, IO_bind, IO_ret, await, throw, modify_dom in *;
  simpl in *.

Lemma or_else_too_small size minBytes fallback :
  or_else (message (too_small size minBytes)) fallback
  = "PDF is too small: " +:+ pretty size +:+ " bytes (min "
    +:+ pretty minBytes +:+ ")".
Proof. reflexivity. Qed.

(** What the validation of the lazy renderer does with a view. *)
Lemma lazy_validate_view fetch options v w :
  Lazy.toArrayBufferWithSize fetch options (SrcView v) w
  = if bool_decide (Z.of_nat (view_byteLength v) < Lazy.minBytes options)
    then (inl (too_small (Z.of_nat (view_byteLength v)) (Lazy.minBytes options)), w)
    else (inr (buffer v), w).
Proof. unfold Lazy.toArrayBufferWithSize. simpl. by case_bool_decide. Qed.

Lemma lazy_small_source fetch options src w size :
  reported_size fetch src = Some size →
  size < Lazy.minBytes options →
  ∃ cs,
    Lazy.toArrayBufferWithSize fetch options src w
    = (inl (too_small size (Lazy.minBytes options)),
       {| dom := dom w; calls := calls w ++ cs |})
    ∧ (∀ c, c ∈ cs → ∃ url, c = Fetch url ∨ c = ReadBody url)
    ∧ (∀ url res len,
         src = SrcString url → fetch url = inr res →
         res_content_length res = Some len → 0 < len → cs = [Fetch url]).
Proof.
  intros Hsize Hlt.
  (* a blob, a buffer, a view: the size is at hand and no call is made *)
  assert (∀ (e : Error) (P : list Call → Prop), P [] →
    ∃ cs, (inl e : Error + ArrayBuffer, w)
          = (inl e, {| dom := dom w; calls := calls w ++ cs |})
          ∧ (∀ c, c ∈ cs → ∃ url, c = Fetch url ∨ c = ReadBody url)
          ∧ P cs) as no_call.
  { intros e P HP. exists []. rewrite (right_id_L [] (++)). destruct w.
    split_and!; [done| |done]. by intros c ?%elem_of_nil. }
  destruct src as [url|b|a|v|]; simpl in Hsize.
  - destruct (fetch url) as [e|res] eqn:Hf; [done|].
    destruct (res_ok res) eqn:Hok; [|done].
    unfold Lazy.toArrayBufferWithSize. io. rewrite Hf, Hok. simpl.
    assert (∀ c, c ∈ [Fetch url; ReadBody url] →
                 ∃ url, c = Fetch url ∨ c = ReadBody url) as Hcalls.
    { intros c Hc. repeat (apply elem_of_cons in Hc as [->|Hc]); eauto.
      by apply elem_of_nil in Hc. }
    destruct (res_content_length res) as [len|] eqn:Hlen.
    + case_bool_decide as Hpos.
      * simplify_eq. rewrite bool_decide_eq_true_2 by done. simpl.
        exists [Fetch url]. split_and!; [done|..].
        -- intros c ->%list_elem_of_singleton. eauto.
        -- intros ? ? ? [= <-]. done.
      * simpl. destruct (res_arrayBuffer res) as [e|body] eqn:Hb; [done|].
        simplify_eq. rewrite bool_decide_eq_true_2 by done.
        exists [Fetch url; ReadBody url]. rewrite <-(assoc_L (++)).
        split_and!; [done|done|].
        intros ? r l [= <-] Hr Hl ?. rewrite Hf in Hr. injection Hr as <-.
        rewrite Hlen in Hl. by simplify_eq.
    + destruct (res_arrayBuffer res) as [e|body] eqn:Hb; [done|].
      simplify_eq. rewrite bool_decide_eq_true_2 by done. simpl.
      exists [Fetch url; ReadBody url]. rewrite <-(assoc_L (++)).
      split_and!; [done|done|].
      intros ? r l [= <-] Hr Hl ?. rewrite Hf in Hr. injection Hr as <-.
        rewrite Hlen in Hl. by simplify_eq.
  - simplify_eq. unfold Lazy.toArrayBufferWithSize. io.
    rewrite bool_decide_eq_true_2 by done. by apply no_call.
  - simplify_eq. unfold Lazy.toArrayBufferWithSize. io.
    rewrite bool_decide_eq_true_2 by done. by apply no_call.
  - simplify_eq. unfold Lazy.toArrayBufferWithSize. io.
    rewrite bool_decide_eq_true_2 by done. by apply no_call.
  - done.
Qed.

(** C5: a source that reports a size strictly below the configured minimum
    (5120 bytes by default) makes loading fail with the size error before
    any placeholder exists: the container gets the error message and no
    holder (its holders are those it had, less one that was or held the
    loader removed), and no document is opened.  When the source is a URL whose
    response carries a positive content-length hint, the only call made is
    the [fetch]: the body is not read. *)
Theorem C5_small_source_rejected fetch getDocument observer options
    src container size :
  reported_size fetch src = Some size →
  size < Lazy.minBytes options →
  ∃ cs,
    Lazy.main fetch getDocument observer options src
      {| dom := container; calls := [] |}
    = (inl (too_small size (Lazy.minBytes options)),
       {| dom := container; calls := cs |})
    ∧ Lazy.renderPDFLazy fetch getDocument observer options src container
      = (Lazy.Undefined,
         {| dom := removeLoader container
                   ++ [Div ["pdf-error"]
                         ("PDF is too small: " +:+ pretty size
                          +:+ " bytes (min " +:+ pretty (Lazy.minBytes options)
                          +:+ ")")];
            calls := cs |})
    ∧ holder_pages
        (dom (Lazy.renderPDFLazy fetch getDocument observer options
                src container).2)
      = holder_pages (removeLoader container)
    ∧ holder_pages (removeLoader container) `sublist_of` holder_pages container
    ∧ (Forall no_loader_holder container →
       holder_pages
         (dom (Lazy.renderPDFLazy fetch getDocument observer options
                 src container).2)
       = holder_pages container)
    ∧ (∀ c, c ∈ cs → ∃ url, c = Fetch url ∨ c = ReadBody url)
    ∧ (∀ url res len,
         src = SrcString url → fetch url = inr res →
         res_content_length res = Some len → 0 < len → cs = [Fetch url])
    ∧ Lazy.minBytes no_options = 5120.
Proof.
  intros Hsize Hlt.
  destruct (lazy_small_source fetch options src
              {| dom := container; calls := [] |} size Hsize Hlt)
    as (cs & Hload & Hcs & Hhint).
  simpl in Hload. exists cs.
  assert (Lazy.main fetch getDocument observer options src
            {| dom := container; calls := [] |}
          = (inl (too_small size (Lazy.minBytes options)),
             {| dom := container; calls := cs |})) as Hmain.
  { unfold Lazy.main. io. by rewrite Hload. }
  assert (Lazy.renderPDFLazy fetch getDocument observer options src container
          = (Lazy.Undefined,
             {| dom := removeLoader container
                   ++ [Div ["pdf-error"]
                         ("PDF is too small: " +:+ pretty size
                          +:+ " bytes (min " +:+ pretty (Lazy.minBytes options)
                          +:+ ")")];
                calls := cs |})) as Hrender.
  { unfold Lazy.renderPDFLazy. rewrite Hmain. simpl. unfold Lazy.on_fatal.
    rewrite removeLoader_snoc by done. by rewrite or_else_too_small. }
  assert (holder_pages
            (dom (Lazy.renderPDFLazy fetch getDocument observer options
                    src container).2)
          = holder_pages (removeLoader container)) as Hholders.
  { rewrite Hrender. simpl. rewrite holder_pages_app. simpl.
    by rewrite (right_id_L [] (++)). }
  split_and!; [done|done|done| | |done|done|done].
  - apply holder_pages_removeLoader_sublist.
  - intros Hnone. by rewrite Hholders, holder_pages_removeLoader.
Qed.

Lemma C5_small_source_rejected_witness :
  ∃ cs,
    Lazy.main hint_4096 (λ _, inl (mkError None)) (λ _, None) no_options
      (SrcString "a.pdf") {| dom := [Div ["pdf-loader"] ""]; calls := [] |}
    = (inl (too_small 4096 5120),
       {| dom := [Div ["pdf-loader"] ""]; calls := cs |})
    ∧ cs = [Fetch "a.pdf"].
Proof.
  destruct (C5_small_source_rejected hint_4096 (λ _, inl (mkError None))
              (λ _, None) no_options (SrcString "a.pdf")
              [Div ["pdf-loader"] ""] 4096)
    as (cs & Hmain & _ & _ & _ & _ & _ & Hhint & _).
  - reflexivity.
  - reflexivity.
  - exists cs. split; [exact Hmain|].
    eapply (Hhint "a.pdf"); reflexivity.
Defined.

(** C9: for a typed-array view the size that is checked against the
    minimum is the byte length of the view, while the data handed to
    [getDocument] is the whole underlying buffer, in the lazy renderer and
    in the sequential one alike; unless the view spans its buffer from the
    first byte to the last, these are not the bytes that were measured. *)
Theorem C9_view_checked_by_window_opened_by_buffer tokenError
    fetch getDocument observer render options v container :
  let small :=
    bool_decide (Z.of_nat (view_byteLength v) < Lazy.minBytes options) in
  let small' :=
    bool_decide (Z.of_nat (view_byteLength v) < Preview.minBytes options) in
  (* the lazy renderer *)
  Lazy.toArrayBufferWithSize fetch options (SrcView v)
    {| dom := container; calls := [] |}
  = (if small
     then inl (too_small (Z.of_nat (view_byteLength v))
                 (Lazy.minBytes options))
     else inr (buffer v),
     {| dom := container; calls := [] |})
  ∧ (if small
     then calls (Lazy.renderPDFLazy fetch getDocument observer options
                   (SrcView v) container).2 = []
     else ∃ rest,
       calls (Lazy.renderPDFLazy fetch getDocument observer options
                (SrcView v) container).2 = GetDocument (buffer v) :: rest)
  (* the sequential renderer *)
  ∧ Preview.toArrayBufferWithSize fetch options (SrcView v)
      {| dom := container; calls := [] |}
    = (if small'
       then inl (too_small (Z.of_nat (view_byteLength v))
                   (Preview.minBytes options))
       else inr {| Preview.buf := buffer v;
                   Preview.size := Z.of_nat (view_byteLength v) |},
       {| dom := removeLoader container; calls := [] |})
  ∧ (if small'
     then calls (Preview.renderPDF fetch getDocument render tokenError options
                   (SrcView v) container) = []
     else ∃ rest,
       calls (Preview.renderPDF fetch getDocument render tokenError options
                (SrcView v) container) = GetDocument (buffer v) :: rest)
  (* the bytes measured and the bytes opened *)
  ∧ (view_wf v →
     byteOffset v ≠ 0%nat ∨ view_byteLength v ≠ length (buffer v) →
     (length (view_bytes v) < length (buffer v))%nat).
Proof.
  intros small small'. split_and!.
  - rewrite lazy_validate_view. fold small. by destruct small.
  - unfold Lazy.renderPDFLazy, Lazy.main. io. unfold Lazy.toArrayBufferWithSize.
    simpl. fold small. destruct small; simpl; [done|].
    destruct (getDocument (buffer v)) as [e|pdf]; simpl; [eexists; reflexivity|].
    destruct (getPage pdf 1) as [e|page]; simpl; [eexists; reflexivity|].
    destruct (observer _); simpl; eexists; reflexivity.
  - unfold Preview.toArrayBufferWithSize. io. fold small'. by destruct small'.
  - unfold Preview.renderPDF, Preview.main. io.
    unfold Preview.toArrayBufferWithSize. io.
    fold small'. destruct small'; simpl; [done|].
    destruct (getDocument (buffer v)) as [e|pdf]; simpl; [eexists; reflexivity|].
    match goal with
    | |- context [Preview.render_pages ?a ?t ?b ?c ?d ?w] =>
        assert (∃ rest, calls (Preview.render_pages a t b c d w).2
                        = calls w ++ rest) as [rest Hrest]
    end.
    { generalize (seq 1 (numPages pdf)). intros l.
      generalize ({| dom := removeLoader container;
                     calls := [GetDocument (buffer v)] |}).
      induction l as [|p l IH]; intros w; simpl.
      - exists []. by rewrite (right_id_L [] (++)).
      - io. destruct (getPage pdf p); simpl; [eexists; reflexivity|].
        destruct (Preview.new_canvas _ _ _ _); simpl; [eexists; reflexivity|].
        destruct (render p); simpl.
        + rewrite <-(assoc_L (++)). eexists; reflexivity.
        + edestruct IH as [rest ->]. simpl. rewrite <-!(assoc_L (++)).
          eexists; reflexivity. }
    simpl in Hrest.
    destruct (Preview.render_pages _ _ _ _ _ _) as [[e|[]] w']; simpl in *;
      rewrite Hrest; eexists; reflexivity.
  - unfold view_wf, view_bytes. intros Hwf Hpart.
    rewrite length_take, length_drop. lia.
Qed.

Lemma C9_view_checked_by_window_opened_by_buffer_witness :
  Lazy.toArrayBufferWithSize (λ _, inl (mkError None)) four_bytes
    (SrcView window) {| dom := []; calls := [] |}
  = (inr (buffer window), {| dom := []; calls := [] |})
  ∧ (length (view_bytes window) < length (buffer window))%nat.
Proof.
  destruct (C9_view_checked_by_window_opened_by_buffer refused
              (λ _, inl (mkError None)) (λ _, inl (mkError None))
              (λ _, None) (λ _, None) four_bytes window [])
    as (Hlazy & _ & _ & _ & Hpart).
  split; [exact Hlazy|]. apply Hpart.
  - unfold view_wf. simpl. lia.
  - left. discriminate.
Defined.

(** The pure part of validation: it does not touch the container. *)
Lemma lazy_validate_dom fetch options src w r w' :
  Lazy.toArrayBufferWithSize fetch options src w = (r, w') → dom w' = dom w.
Proof.
  unfold Lazy.toArrayBufferWithSize. io. intros H.
  repeat (match goal with
          | H : context [match ?x with _ => _ end] |- _ => destruct x eqn:?
          | H : context [if ?x then _ else _] |- _ => destruct x eqn:?
          end; simpl in H); by simplify_eq.
Qed.

(** What a run of set-up that went through leaves behind. *)
Lemma lazy_set_up_inv fetch getDocument observer options src container pdf w :
  Lazy.renderPDFLazy fetch getDocument observer options src container
  = (Lazy.Teardown pdf, w) →
  set_up_succeeds fetch getDocument observer options src container pdf
  ∧ ∃ firstPage,
      getPage pdf 1 = inr firstPage
      ∧ dom w = removeLoader (removeLoader
                  (container ++ Lazy.placeholders (numPages pdf)
                     (vp_height (getViewport firstPage (Lazy.scale options))
                      / vp_width (getViewport firstPage (Lazy.scale options)))%Qc)).
Proof.
  unfold Lazy.renderPDFLazy, Lazy.main, set_up_succeeds. io.
  destruct (Lazy.toArrayBufferWithSize _ _ _ _) as [[e|data] w1] eqn:Hload;
    [done|].
  apply lazy_validate_dom in Hload as Hdom. simpl in *.
  destruct (getDocument data) as [e|pdf'] eqn:Hopen; simpl; [done|].
  destruct (getPage pdf' 1) as [e|firstPage] eqn:Hpage; simpl; [done|].
  destruct (observer _) as [e|] eqn:Hobs; simpl; [done|].
  intros [= <- <-]. simpl. rewrite Hdom. split; [|by eauto].
  by exists data, w1, firstPage.
Qed.

(** C8: [renderPDFLazy] resolves to the teardown object exactly when
    validation, document open, the read of the first page and the
    construction of the observer all succeed, and then the container holds
    the placeholders and no error message; in every other case it resolves
    to [undefined], and the error that stopped set-up is shown in a
    [pdf-error] message appended to the container. *)
Theorem C8_teardown_only_on_success
    fetch getDocument observer options src container :
  match Lazy.renderPDFLazy fetch getDocument observer options src container with
  | (Lazy.Teardown pdf, w) =>
      set_up_succeeds fetch getDocument observer options src container pdf
      ∧ ∃ firstPage,
          getPage pdf 1 = inr firstPage
          ∧ dom w = removeLoader (removeLoader
                      (container ++ Lazy.placeholders (numPages pdf)
                         (vp_height (getViewport firstPage (Lazy.scale options))
                          / vp_width (getViewport firstPage (Lazy.scale options)))%Qc))
  | (Lazy.Undefined, w) =>
      (∀ pdf, ¬ set_up_succeeds fetch getDocument observer options
                  src container pdf)
      ∧ ∃ err w1,
          Lazy.main fetch getDocument observer options src
            {| dom := container; calls := [] |} = (inl err, w1)
          ∧ dom w = removeLoader (dom w1)
                    ++ [Div ["pdf-error"]
                          (or_else (message err) "Failed to load PDF.")]
  end.
Proof.
  destruct (Lazy.renderPDFLazy _ _ _ _ _ _) as [[|pdf] w] eqn:Hrun.
  - split.
    + intros pdf (data & w1 & firstPage & Hload & Hopen & Hpage & Hobs).
      revert Hrun. unfold Lazy.renderPDFLazy, Lazy.main. io.
      by rewrite Hload, Hopen, Hpage, Hobs.
    + revert Hrun. unfold Lazy.renderPDFLazy.
      destruct (Lazy.main _ _ _ _ _ _) as [[err|pdf] w1]; [|done].
      intros [= <-]. simpl. unfold Lazy.on_fatal.
      rewrite removeLoader_snoc by done. by exists err, w1.
  - by apply lazy_set_up_inv.
Qed.

(** Set-up hands the scheduler a container whose holders are all fresh. *)
Lemma set_up_leaves_fresh
    fetch getDocument observer options src container pdf w :
  Lazy.renderPDFLazy fetch getDocument observer options src container
  = (Lazy.Teardown pdf, w) →
  holder_pages container = [] →
  fresh (dom w).
Proof.
  intros (_ & firstPage & _ & ->)%lazy_set_up_inv Hnone.
  assert (∀ c, fresh c → fresh (removeLoader c)) as Hremove.
  { intros c. unfold fresh. induction c as [|n rest IH]; [done|].
    intros [Hn Hrest]%Forall_cons. simpl.
    destruct (is_loader n); [|apply Forall_cons; auto].
    apply Forall_app. split; [|done].
    destruct n as [cl t|h|cv]; simpl; [constructor| |constructor].
    destruct (classList_contains _ _); [constructor|].
    by constructor. }
  apply Hremove, Hremove, Forall_app. split.
  - clear -Hnone. unfold fresh.
    induction container as [|[| h |] rest IH]; simpl in *;
      [apply Forall_nil_2| |done|]; apply Forall_cons; split; auto; done.
  - apply fresh_placeholders.
Qed.

(** C7 fails as stated: in a document whose second page lies on its side,
    the placeholder of the second page gets the padding of the first. *)
Lemma C7_counterexample :
  sizer_paddingTop
    <$> querySelector_holder 2
          (dom (Lazy.renderPDFLazy (λ _, inl (mkError None))
                  (λ _, inr mixed_document) (λ _, None) any_size
                  (SrcArrayBuffer []) []).2)
  = Some (Q2Qc 200)
  ∧ ratio_padding sideways (Lazy.scale any_size) = Q2Qc 50
  ∧ ¬ each_placeholder_keeps_own_ratio.
Proof.
  split; [vm_compute; f_equal; by apply Qc_is_canon|].
  split; [by apply Qc_is_canon|].
  intros Hall.
  destruct (Hall (λ _, inl (mkError None)) (λ _, inr mixed_document)
              (λ _, None) any_size (SrcArrayBuffer []) [] mixed_document
              _ eq_refl eq_refl 2%nat sideways) as (h & Hh & Hpad).
  - simpl. lia.
  - reflexivity.
  - vm_compute in Hh. injection Hh as <-.
    apply (f_equal (λ q : Qc, Qnum (this q))) in Hpad.
    vm_compute in Hpad. discriminate.
Qed.

(** C7, as the code has it: every placeholder is sized by the aspect ratio
    of the first page at the configured scale; this is the ratio of the
    page itself whenever the page has the viewport of the first page.  The
    placeholders exist, one per page and empty, once set-up is over. *)
Theorem C7_placeholders_keep_first_ratio
    fetch getDocument observer options src container pdf w :
  Lazy.renderPDFLazy fetch getDocument observer options src container
  = (Lazy.Teardown pdf, w) →
  holder_pages container = [] →
  ∃ firstPage,
    getPage pdf 1 = inr firstPage
    ∧ holder_pages (dom w) = seq 1 (numPages pdf)
    ∧ ∀ i, (1 ≤ i ≤ numPages pdf)%nat →
        ∃ h, querySelector_holder i (dom w) = Some h
             ∧ content h = []
             ∧ sizer_paddingTop h = ratio_padding firstPage (Lazy.scale options)
             ∧ ∀ page, getPage pdf i = inr page →
                 getViewport page (Lazy.scale options)
                 = getViewport firstPage (Lazy.scale options) →
                 sizer_paddingTop h = ratio_padding page (Lazy.scale options).
Proof.
  intros (_ & firstPage & Hfirst & Hdom)%lazy_set_up_inv Hfresh.
  exists firstPage. split; [done|]. split.
  - rewrite Hdom, removeLoader_placeholders, holder_pages_app.
    rewrite holder_pages_removeLoader_twice by done.
    apply holder_pages_placeholders.
  - intros i Hi. eexists. split.
    + rewrite Hdom, removeLoader_placeholders.
      rewrite querySelector_app_fresh
        by (rewrite holder_pages_removeLoader_twice by done;
            apply not_elem_of_nil).
      by apply querySelector_placeholders.
    + simpl. split_and!; [done|done|].
      intros page _ Heq. unfold ratio_padding. by rewrite Heq.
Qed.

Lemma C7_placeholders_keep_first_ratio_witness :
  ∃ h, querySelector_holder 2
         (dom (Lazy.renderPDFLazy (λ _, inl (mkError None))
                 (λ _, inr mixed_document) (λ _, None) any_size
                 (SrcArrayBuffer []) []).2) = Some h
       ∧ sizer_paddingTop h = ratio_padding upright (Lazy.scale any_size).
Proof.
  destruct (C7_placeholders_keep_first_ratio (λ _, inl (mkError None))
              (λ _, inr mixed_document) (λ _, None) any_size
              (SrcArrayBuffer []) [] mixed_document _ eq_refl eq_refl)
    as (firstPage & Hfirst & _ & Hall).
  injection Hfirst as <-.
  destruct (Hall 2%nat) as (h & Hh & _ & Hpad & _); [simpl; lia|].
  exists h. split; [exact Hh|exact Hpad].
Defined.

(** ** The scheduler *)

Lemma querySelector_with_holder_ne p q f c :
  p ≠ q → (∀ h, dataset_page (f h) = dataset_page h) →
  querySelector_holder q (with_holder p f c) = querySelector_holder q c.
Proof.
  intros Hpq Hf. induction c as [|[| h |] rest IH]; simpl; auto.
  destruct (decide (dataset_page h = p)) as [Hp|Hp]; simpl.
  - rewrite Hf. by rewrite !decide_False by congruence.
  - by rewrite IH.
Qed.

Lemma querySelector_with_holder_eq p f c :
  (∀ h, dataset_page (f h) = dataset_page h) →
  querySelector_holder p (with_holder p f c) = f <$> querySelector_holder p c.
Proof.
  intros Hf. induction c as [|[| h |] rest IH]; simpl; auto.
  destruct (decide (dataset_page h = p)) as [Hp|Hp]; simpl.
  - by rewrite Hf, decide_True.
  - by rewrite decide_False.
Qed.

Lemma holder_pages_with_holder p f c :
  (∀ h, dataset_page (f h) = dataset_page h) →
  holder_pages (with_holder p f c) = holder_pages c.
Proof.
  intros Hf. induction c as [|[| h |] rest IH]; simpl; auto.
  destruct (decide (dataset_page h = p)); simpl; by rewrite ?Hf, ?IH.
Qed.

Lemma querySelector_Some p c h :
  querySelector_holder p c = Some h →
  dataset_page h = p ∧ p ∈ holder_pages c ∧ PageHolder h ∈ c.
Proof.
  induction c as [|[| h' |] rest IH]; simpl; [done|..].
  - intros (? & ? & ?)%IH. split_and!; [done|done|by right].
  - case_decide as Hp.
    + intros [= ->]. split_and!; [done|subst; left|left].
    + intros (? & ? & ?)%IH. split_and!; [done|by right|by right].
  - intros (? & ? & ?)%IH. split_and!; [done|done|by right].
Qed.

Lemma querySelector_is_Some p c :
  p ∈ holder_pages c → is_Some (querySelector_holder p c).
Proof.
  induction c as [|[| h |] rest IH]; simpl; [by intros ?%elem_of_nil|auto| |auto].
  case_decide; [by eauto|]. intros [?|?]%elem_of_cons; [congruence|auto].
Qed.

Lemma fresh_unrendered c p h :
  fresh c → querySelector_holder p c = Some h →
  p ≠ 0%nat ∧ "pdf-page-rendered" ∉ holder_classList h.
Proof.
  intros Hc (Hp & _ & Hin)%querySelector_Some.
  unfold fresh in Hc. rewrite Forall_forall in Hc.
  destruct (Hc _ Hin) as [? ?]. by subst p.
Qed.

Lemma fresh_nonzero c : fresh c → 0%nat ∉ holder_pages c.
Proof.
  intros Hc Hin. apply querySelector_is_Some in Hin as [h Hh].
  by destruct (fresh_unrendered c 0 h).
Qed.

(** The part of a list after the last occurrence of an element. *)
Lemma last_occurrence {A} (x : A) (l1 l2 k1 k2 : list A) :
  l1 ++ x :: l2 = k1 ++ x :: k2 → x ∉ l2 → x ∉ k2 → l2 = k2.
Proof.
  intros Heq Hl2 Hk2.
  apply app_eq_inv in Heq as [(m & -> & Hm)|(m & -> & Hm)];
    destruct m as [|y m]; simpl in Hm; simplify_eq; try done; exfalso;
    match goal with
    | H : _ ∉ _ ++ _ :: _ |- _ => apply H, elem_of_app; right; left
    end.
Qed.

Section scheduler_facts.

Variable tokenError : string → Error.
Variable options : Options.
Variable pdf : PDFDocument.

Local Abbreviation k := (concurrent options).
Local Abbreviation pump := (pump options).
Local Abbreviation enqueue := (enqueue options).
Local Abbreviation step := (step tokenError options pdf).
Local Abbreviation run := (run tokenError options pdf).

Lemma set_queue_id s : set_queue (queue s) s = s.
Proof. by destruct s. Qed.

Lemma pump_loop_pump q s : pump_loop options q s = pump (set_queue q s).
Proof. unfold Lazy.pump. simpl. by destruct q. Qed.

Lemma queue_renderPage_begin p s : queue (renderPage_begin p s) = queue s.
Proof. unfold renderPage_begin. by case_decide. Qed.

Lemma active_renderPage_begin p s : active (renderPage_begin p s) = active s.
Proof. unfold renderPage_begin. by case_decide. Qed.

Lemma container_renderPage_begin p s :
  container (renderPage_begin p s) = container s.
Proof. unfold renderPage_begin. by case_decide. Qed.

Lemma pushed_renderPage_begin p s : pushed (renderPage_begin p s) = pushed s.
Proof. unfold renderPage_begin. by case_decide. Qed.

(** The loop rule of [pump]: [P] holds around every turn, [Q] at every
    exit. *)
Lemma pump_rule (P Q : State → Prop) :
  (∀ s next rest,
      queue s = next :: rest → active s < k → next ≠ 0%nat →
      P s → P (turn next rest s)) →
  (∀ s, queue s = [] → P s → Q s) →
  (∀ s, ¬ active s < k → P s → Q s) →
  (∀ s rest, queue s = 0%nat :: rest → active s < k → P s →
             Q (set_queue rest s)) →
  ∀ s, P s → Q (pump s).
Proof.
  intros Hturn Hempty Hfull Hzero s. unfold Lazy.pump.
  remember (queue s) as q eqn:Hq. revert s Hq.
  induction q as [|next rest IH]; intros s Hq HP; simpl.
  - rewrite Hq, set_queue_id. by apply Hempty.
  - case_bool_decide as Hlt.
    + case_decide as Hnext.
      * subst next. by apply Hzero.
      * apply IH.
        -- by rewrite queue_renderPage_begin.
        -- by apply Hturn.
    + rewrite Hq, set_queue_id. by apply Hfull.
Qed.

Lemma pump_inv (P : State → Prop) :
  (∀ s next rest,
      queue s = next :: rest → active s < k → next ≠ 0%nat →
      P s → P (turn next rest s)) →
  (∀ s rest, queue s = 0%nat :: rest → active s < k → P s →
             P (set_queue rest s)) →
  ∀ s, P s → P (pump s).
Proof. intros Hturn Hzero. by apply pump_rule. Qed.

(** *** The counter and the set *)

Lemma counted_init c : counted options (init c).
Proof. split; simpl; [done|lia]. Qed.

Lemma counted_turn s next rest :
  active s < k → counted options s → counted options (turn next rest s).
Proof.
  intros Hlt [Hact Hmax]. unfold turn, renderPage_begin. simpl.
  case_decide as Hin; split; simpl; try lia.
  rewrite size_union by set_solver. rewrite size_singleton. lia.
Qed.

Lemma counted_pump s : counted options s → counted options (pump s).
Proof.
  apply pump_inv.
  - intros ??????. by apply counted_turn.
  - by intros ???? [??].
Qed.

Lemma counted_enqueue p s : counted options s → counted options (enqueue p s).
Proof.
  intros Hs. unfold Lazy.enqueue.
  destruct (_ && _); [|done]. by apply counted_pump.
Qed.

Lemma counted_on_entry entry s s' :
  on_entry options entry s = Some s' → counted options s → counted options s'.
Proof.
  unfold on_entry. destruct (querySelector_holder _ _) as [h|]; [|done].
  simpl. destruct (isIntersecting entry); [|by intros [= <-]].
  destruct (negb _); intros [= <-]; [|done]. apply counted_enqueue.
Qed.

Lemma counted_on_intersect entries s s' :
  on_intersect options entries s = Some s' → counted options s → counted options s'.
Proof.
  revert s. induction entries as [|entry rest IH]; intros s; simpl.
  - by intros [= <-].
  - destruct (on_entry options entry s) as [s1|] eqn:Hentry; [|done].
    simpl. intros Hrest Hs. eapply IH; [done|].
    by eapply counted_on_entry.
Qed.

Lemma counted_step s ev s' : step s ev = Some s' → counted options s → counted options s'.
Proof.
  destruct ev as [entries|p r|]; simpl.
  - apply counted_on_intersect.
  - case_decide as Hin; [|done]. intros [= <-] [Hact Hmax].
    split; simpl; [|done].
    rewrite size_difference by set_solver. rewrite size_singleton.
    assert (size (inFlight s) ≠ 0%nat).
    { intros Hz%size_empty_inv. set_solver. }
    lia.
  - case_decide as Hz; [done|]. intros [= <-] [Hact Hmax].
    apply counted_pump. split; simpl; lia.
Qed.

Lemma counted_run evs s s' : run s evs = Some s' → counted options s → counted options s'.
Proof.
  revert s. induction evs as [|ev rest IH]; intros s; simpl.
  - by intros [= <-].
  - destruct (step s ev) as [s1|] eqn:Hstep; [|done]. simpl.
    intros Hrest Hs. eapply IH; [done|]. by eapply counted_step.
Qed.

Lemma run_cons ev evs s : run s (ev :: evs) = s' ← step s ev; run s' evs.
Proof. done. Qed.

Lemma run_app evs1 evs2 s :
  run s (evs1 ++ evs2) = s1 ← run s evs1; run s1 evs2.
Proof.
  revert s. induction evs1 as [|ev rest IH]; intros s; simpl; [done|].
  destruct (step s ev); simpl; [apply IH|done].
Qed.

(** *** Queue, set and holders *)

Lemma sound_init c : fresh c → sound (init c).
Proof.
  intros Hc. split; simpl.
  - constructor.
  - by intros p ?%elem_of_nil.
  - intros p [?%elem_of_nil|?]; [done|set_solver].
  - by apply fresh_nonzero.
  - done.
Qed.

Lemma sound_queue_nonzero s p : sound s → p ∈ queue s → p ≠ 0%nat.
Proof.
  intros Hs Hp ->.
  destruct (sound_pending s Hs 0%nat) as (h & Hh & _); [by left|].
  apply querySelector_Some in Hh as (_ & ? & _).
  by apply (sound_nonzero s Hs).
Qed.

(** Under [sound], a page taken off the queue is never in flight: the
    guard of [renderPage] lets it through. *)
Lemma turn_sound_eq s next rest :
  sound s → queue s = next :: rest →
  turn next rest s
  = log_start next
      (set_inFlight ({[next]} ∪ inFlight s)
         (set_active (active s + 1) (set_queue rest s))).
Proof.
  intros Hs Hq. unfold turn, renderPage_begin. simpl.
  rewrite decide_False; [done|].
  apply (sound_disjoint s Hs). rewrite Hq. left.
Qed.

Lemma sound_turn s next rest :
  queue s = next :: rest → sound s → sound (turn next rest s).
Proof.
  intros Hq Hs. rewrite turn_sound_eq by done.
  pose proof (sound_nodup s Hs) as Hnd. rewrite Hq in Hnd.
  apply NoDup_cons in Hnd as [Hnext Hnd].
  split; simpl.
  - done.
  - intros p Hp [->%elem_of_singleton|Hin]%elem_of_union; [done|].
    apply (sound_disjoint s Hs p); [|done]. rewrite Hq. by right.
  - intros p [Hp|[->%elem_of_singleton|Hp]%elem_of_union];
      apply (sound_pending s Hs); unfold pending; rewrite Hq;
      [left; by right|left; left|by right].
  - apply (sound_nonzero s Hs).
  - rewrite (sound_log s Hs), Hq. by rewrite <-(assoc_L (++)).
Qed.

Lemma sound_pump s : sound s → sound (pump s).
Proof.
  apply pump_inv.
  - intros ??????. by apply sound_turn.
  - intros ? rest Hq _ Hs. exfalso.
    apply (sound_queue_nonzero _ 0%nat Hs); [|done]. rewrite Hq. left.
Qed.

Lemma busy_pump s : sound s → busy options (pump s).
Proof.
  apply (pump_rule sound (busy options)).
  - intros ??????. by apply sound_turn.
  - intros ???. by left.
  - intros ???. right. lia.
  - intros ? rest Hq _ Hs. exfalso.
    apply (sound_queue_nonzero _ 0%nat Hs); [|done]. rewrite Hq. left.
Qed.

Lemma sound_push p s :
  p ∉ queue s → p ∉ inFlight s →
  is_unrendered p (container s) → sound s →
  sound (log_push p (set_queue (queue s ++ [p]) s)).
Proof.
  intros Hq Hf Hp Hs. split; simpl.
  - apply NoDup_app.
    split_and!; [apply (sound_nodup s Hs)| |apply NoDup_singleton].
    by intros q Hq' ->%list_elem_of_singleton.
  - intros q [Hq'| ->%list_elem_of_singleton]%elem_of_app; [|done].
    by apply (sound_disjoint s Hs).
  - intros q [[Hq'| ->%list_elem_of_singleton]%elem_of_app|Hq']; [|done|];
      apply (sound_pending s Hs); [by left|by right].
  - apply (sound_nonzero s Hs).
  - rewrite (sound_log s Hs). by rewrite <-(assoc_L (++)).
Qed.

Lemma sound_enqueue p s :
  is_unrendered p (container s) → sound s → sound (enqueue p s).
Proof.
  intros Hp Hs. unfold Lazy.enqueue.
  destruct (bool_decide (p ∉ queue s)) eqn:Hq; simpl; [|done].
  destruct (bool_decide (p ∉ inFlight s)) eqn:Hf; simpl; [|done].
  apply bool_decide_eq_true in Hq, Hf. by apply sound_pump, sound_push.
Qed.

Lemma busy_enqueue p s :
  is_unrendered p (container s) → sound s → busy options s → busy options (enqueue p s).
Proof.
  intros Hp Hs Hb. unfold Lazy.enqueue.
  destruct (bool_decide (p ∉ queue s)) eqn:Hq; simpl; [|done].
  destruct (bool_decide (p ∉ inFlight s)) eqn:Hf; simpl; [|done].
  apply bool_decide_eq_true in Hq, Hf. by apply busy_pump, sound_push.
Qed.

Lemma dataset_page_show_error p e h :
  dataset_page (show_error p e h) = dataset_page h.
Proof. done. Qed.

Lemma dataset_page_show_canvas c h :
  dataset_page (show_canvas c h) = dataset_page h.
Proof. done. Qed.

(** A settlement writes to the holder of its page and to no other. *)
Lemma querySelector_renderPage_end_ne p r q s :
  p ≠ q →
  querySelector_holder q (container (renderPage_end tokenError options pdf p r s))
  = querySelector_holder q (container s).
Proof.
  intros Hpq. unfold renderPage_end. simpl.
  destruct (render_outcome _ _ _ _);
    by apply querySelector_with_holder_ne.
Qed.

Lemma holder_pages_renderPage_end p r s :
  holder_pages (container (renderPage_end tokenError options pdf p r s))
  = holder_pages (container s).
Proof.
  unfold renderPage_end. simpl.
  destruct (render_outcome _ _ _ _); by apply holder_pages_with_holder.
Qed.

Lemma sound_renderPage_end p r s :
  p ∈ inFlight s → sound s → sound (renderPage_end tokenError options pdf p r s).
Proof.
  intros Hp Hs. split.
  - apply (sound_nodup s Hs).
  - intros q Hq [Hin _]%elem_of_difference.
    by apply (sound_disjoint s Hs q).
  - intros q Hq.
    assert (p ≠ q ∧ pending q s) as [Hpq Hq'].
    { destruct Hq as [Hq|[Hq Hne]%elem_of_difference].
      - split; [|by left]. intros <-.
        by apply (sound_disjoint s Hs p).
      - split; [set_solver|by right]. }
    unfold is_unrendered. rewrite querySelector_renderPage_end_ne by done.
    by apply (sound_pending s Hs).
  - rewrite holder_pages_renderPage_end. apply (sound_nonzero s Hs).
  - apply (sound_log s Hs).
Qed.

(** *** Reachable states *)

Lemma good_init c : fresh c → good options (init c).
Proof.
  intros Hc. split_and!; [apply counted_init|by apply sound_init|by left].
Qed.

Lemma on_entry_cases entry s s' :
  on_entry options entry s = Some s' →
  s' = s
  ∨ (isIntersecting entry = true
     ∧ is_unrendered (target entry) (container s)
     ∧ s' = enqueue (target entry) s).
Proof.
  unfold on_entry.
  destruct (querySelector_holder _ _) as [h|] eqn:Hh; [|done]. simpl.
  destruct (isIntersecting entry); [|intros [= <-]; by left].
  destruct (classList_contains _ _) eqn:Hc; simpl;
    intros [= <-]; [by left|right].
  apply querySelector_Some in Hh as Hpage. destruct Hpage as [-> _].
  split_and!; [done| |done].
  exists h. split; [done|]. unfold classList_contains in Hc.
  by apply bool_decide_eq_false in Hc.
Qed.

Lemma on_entry_notify p s :
  is_unrendered p (container s) →
  on_entry options {| target := p; isIntersecting := true |} s
  = Some (enqueue p s).
Proof.
  intros (h & Hh & Hc). unfold on_entry. simpl. rewrite Hh. simpl.
  unfold classList_contains. rewrite bool_decide_eq_false_2 by done. simpl.
  by apply querySelector_Some in Hh as [-> _].
Qed.

Lemma good_on_entry entry s s' :
  on_entry options entry s = Some s' → good options s → good options s'.
Proof.
  intros [->|(_ & Hp & ->)]%on_entry_cases; [done|].
  intros (Hc & Hs & Hb). split_and!.
  - by apply counted_enqueue.
  - by apply sound_enqueue.
  - by apply busy_enqueue.
Qed.

Lemma good_on_intersect entries s s' :
  on_intersect options entries s = Some s' → good options s → good options s'.
Proof.
  revert s. induction entries as [|entry rest IH]; intros s; simpl.
  - by intros [= <-].
  - destruct (on_entry options entry s) as [s1|] eqn:Hentry; [|done].
    simpl. intros Hrest Hs. eapply IH; [done|].
    by eapply good_on_entry.
Qed.

Lemma sound_on_finally s : sound s → sound (on_finally options s).
Proof.
  intros Hs. apply sound_pump. by destruct Hs.
Qed.

Lemma good_step s ev s' : step s ev = Some s' → good options s → good options s'.
Proof.
  intros Hstep (Hc & Hs & Hb).
  assert (counted options s') as Hc' by by eapply counted_step.
  split; [done|].
  destruct ev as [entries|p r|]; simpl in Hstep.
  - by eapply good_on_intersect in Hstep as (_ & ? & ?).
  - case_decide as Hin; [|done]. injection Hstep as <-.
    split; [by apply sound_renderPage_end|done].
  - case_decide as Hz; [done|]. injection Hstep as <-.
    split; [by apply sound_on_finally|].
    apply busy_pump. by destruct Hs.
Qed.

Lemma good_run evs s s' : run s evs = Some s' → good options s → good options s'.
Proof.
  revert s. induction evs as [|ev rest IH]; intros s; simpl.
  - by intros [= <-].
  - destruct (step s ev) as [s1|] eqn:Hstep; [|done]. simpl.
    intros Hrest Hs. eapply IH; [done|]. by eapply good_step.
Qed.

(** *** The history logs *)

Lemma extends_same s s' :
  pushed s' = pushed s → started s' = started s → extends s s'.
Proof.
  intros Hp Hs. split; exists []; by rewrite (right_id_L [] (++)).
Qed.

Lemma extends_refl s : extends s s.
Proof. by apply extends_same. Qed.

Lemma extends_trans s1 s2 s3 : extends s1 s2 → extends s2 s3 → extends s1 s3.
Proof.
  intros [[m1 Hm1] [n1 Hn1]] [[m2 Hm2] [n2 Hn2]]. split.
  - exists (m1 ++ m2). by rewrite Hm2, Hm1, (assoc_L (++)).
  - exists (n1 ++ n2). by rewrite Hn2, Hn1, (assoc_L (++)).
Qed.

Lemma extends_pump s : extends s (pump s).
Proof.
  apply (pump_inv (extends s)); [| |apply extends_refl].
  - intros s1 next rest _ _ _ Hs1. eapply extends_trans; [done|].
    unfold turn, renderPage_begin. case_decide; simpl.
    + by apply extends_same.
    + split; [exists []; by rewrite (right_id_L [] (++))|by eexists].
  - intros s1 rest _ _ Hs1. eapply extends_trans; [done|].
    by apply extends_same.
Qed.

Lemma extends_enqueue p s : extends s (enqueue p s).
Proof.
  unfold Lazy.enqueue. destruct (_ && _); [|apply extends_refl].
  eapply extends_trans; [|apply extends_pump].
  split; simpl; [by eexists|exists []; by rewrite (right_id_L [] (++))].
Qed.

Lemma extends_on_intersect entries s s' :
  on_intersect options entries s = Some s' → extends s s'.
Proof.
  revert s. induction entries as [|entry rest IH]; intros s; simpl.
  - intros [= <-]. apply extends_refl.
  - destruct (on_entry options entry s) as [s1|] eqn:Hentry; [|done].
    simpl. intros Hrest. eapply extends_trans; [|by apply IH].
    apply on_entry_cases in Hentry as [->|(_ & _ & ->)];
      [apply extends_refl|apply extends_enqueue].
Qed.

Lemma extends_step s ev s' : step s ev = Some s' → extends s s'.
Proof.
  destruct ev as [entries|p r|]; simpl.
  - apply extends_on_intersect.
  - case_decide; [|done]. intros [= <-]. by apply extends_same.
  - case_decide; [done|]. intros [= <-].
    eapply extends_trans; [|apply extends_pump]. by apply extends_same.
Qed.

Lemma extends_run evs s s' : run s evs = Some s' → extends s s'.
Proof.
  revert s. induction evs as [|ev rest IH]; intros s; simpl.
  - intros [= <-]. apply extends_refl.
  - destruct (step s ev) as [s1|] eqn:Hstep; [|done]. simpl.
    intros Hrest. eapply extends_trans; [by eapply extends_step|by apply IH].
Qed.

(** First in, first out. *)
Lemma fifo s1 s2 A B q1 q2 :
  sound s1 → sound s2 → extends s1 s2 →
  queue s1 = q1 ++ A :: q2 → B ∈ q2 →
  ∃ new, started s2 = started s1 ++ new ∧ (B ∈ new → precedes A B new).
Proof.
  intros Hs1 Hs2 [[more Hmore] [new Hnew]] Hq HB.
  exists new. split; [done|]. intros HBnew.
  pose proof (sound_log s1 Hs1) as Hlog1.
  pose proof (sound_log s2 Hs2) as Hlog2.
  rewrite Hmore, Hnew, Hlog1, <-!(assoc_L (++)) in Hlog2.
  apply app_inv_head in Hlog2. rewrite Hq, <-(assoc_L (++)) in Hlog2.
  pose proof (sound_nodup s1 Hs1) as Hnd. rewrite Hq in Hnd.
  apply NoDup_app in Hnd as (_ & Hq1 & _).
  assert (B ∉ q1) as HBq1.
  { intros Hin. apply (Hq1 B Hin). by right. }
  apply app_eq_inv in Hlog2 as [(l & -> & Hl)|(l & -> & Hl)].
  - exfalso. apply HBq1. apply elem_of_app. by left.
  - destruct l as [|x l]; simpl in Hl.
    + exfalso. apply HBq1. by rewrite (right_id_L [] (++)) in HBnew.
    + injection Hl as <- Hl. by exists q1, l.
Qed.

(** *** Render calls of one page *)

Lemma credit_renderPage_begin p x s :
  credit p (renderPage_begin x s) = credit p s.
Proof.
  unfold credit, render_calls, renderPage_begin.
  destruct (decide (x ∈ inFlight s)) as [Hx|Hx]; simpl; [done|].
  rewrite filter_app, length_app.
  destruct (decide (x = p)) as [->|Hne].
  - rewrite (decide_False (P := p ∈ inFlight s)) by done.
    rewrite decide_True by (apply elem_of_union; left; by apply elem_of_singleton).
    rewrite filter_cons_True by done. simpl. lia.
  - rewrite filter_cons_False by done. simpl.
    destruct (decide (p ∈ inFlight s)).
    + rewrite decide_True by (apply elem_of_union; by right). lia.
    + rewrite decide_False; [lia|].
      intros [Hp%elem_of_singleton|Hp]%elem_of_union; [by subst|done].
Qed.

Lemma credit_init p c : credit p (init c) = 1%nat.
Proof. unfold credit, render_calls. simpl. by rewrite decide_False. Qed.

Lemma credit_pump p s : credit p (pump s) = credit p s.
Proof.
  apply (pump_inv (λ s', credit p s' = credit p s)); [| |done].
  - intros s1 next rest _ _ _ <-. unfold turn.
    by rewrite credit_renderPage_begin.
  - by intros s1 rest _ _ <-.
Qed.

Lemma credit_enqueue p q s : credit p (enqueue q s) = credit p s.
Proof.
  unfold Lazy.enqueue. destruct (_ && _); [|done]. by rewrite credit_pump.
Qed.

Lemma credit_on_intersect p entries s s' :
  on_intersect options entries s = Some s' → credit p s' = credit p s.
Proof.
  revert s. induction entries as [|entry rest IH]; intros s; simpl.
  - by intros [= <-].
  - destruct (on_entry options entry s) as [s1|] eqn:Hentry; [|done].
    simpl. intros ->%IH.
    apply on_entry_cases in Hentry as [->|(_ & _ & ->)]; [done|].
    apply credit_enqueue.
Qed.

Lemma credit_step p s ev s' :
  step s ev = Some s' → ¬ settles p ev → credit p s' = credit p s.
Proof.
  destruct ev as [entries|q r|]; simpl.
  - intros. by eapply credit_on_intersect.
  - case_decide; [|done]. intros [= <-] Hne.
    unfold credit, render_calls. simpl.
    destruct (decide (p ∈ inFlight s)).
    + rewrite decide_True; [done|]. apply elem_of_difference.
      split; [done|]. by intros ?%elem_of_singleton.
    + rewrite decide_False; [done|]. by intros [? _]%elem_of_difference.
  - case_decide; [done|]. intros [= <-] _. unfold on_finally.
    by rewrite credit_pump.
Qed.

Lemma credit_run p evs s s' :
  run s evs = Some s' → Forall (λ ev, ¬ settles p ev) evs →
  credit p s' = credit p s.
Proof.
  revert s. induction evs as [|ev rest IH]; intros s; simpl.
  - by intros [= <-].
  - destruct (step s ev) as [s1|] eqn:Hstep; [|done]. simpl.
    intros Hrest [Hev Hall]%Forall_cons.
    rewrite (IH _ Hrest Hall). by eapply credit_step.
Qed.

(** *** The container under a run *)

Lemma container_pump s : container (pump s) = container s.
Proof.
  apply (pump_inv (λ s', container s' = container s)); [| |done].
  - intros s1 next rest _ _ _ <-. unfold turn.
    by rewrite container_renderPage_begin.
  - by intros s1 rest _ _ <-.
Qed.

Lemma pushed_pump s : pushed (pump s) = pushed s.
Proof.
  apply (pump_inv (λ s', pushed s' = pushed s)); [| |done].
  - intros s1 next rest _ _ _ <-. unfold turn.
    by rewrite pushed_renderPage_begin.
  - by intros s1 rest _ _ <-.
Qed.

Lemma container_enqueue p s : container (enqueue p s) = container s.
Proof.
  unfold Lazy.enqueue. destruct (_ && _); [|done]. by rewrite container_pump.
Qed.

Lemma container_on_intersect entries s s' :
  on_intersect options entries s = Some s' → container s' = container s.
Proof.
  revert s. induction entries as [|entry rest IH]; intros s; simpl.
  - by intros [= <-].
  - destruct (on_entry options entry s) as [s1|] eqn:Hentry; [|done].
    simpl. intros ->%IH.
    apply on_entry_cases in Hentry as [->|(_ & _ & ->)]; [done|].
    apply container_enqueue.
Qed.

Lemma holder_step q s ev s' :
  step s ev = Some s' →
  querySelector_holder q (container s')
  = settle_holder tokenError options pdf q ev <$> querySelector_holder q (container s).
Proof.
  destruct ev as [entries|p r|]; simpl.
  - intros ->%container_on_intersect. by rewrite option_fmap_id.
  - case_decide; [|done]. intros [= <-]. unfold renderPage_end. simpl.
    destruct (decide (p = q)) as [->|Hne].
    + destruct (render_outcome _ _ _ _) eqn:Hout;
        rewrite querySelector_with_holder_eq by done;
        destruct (querySelector_holder q (container s)); simpl; [|done| |done];
        by rewrite decide_True, Hout.
    + destruct (render_outcome _ _ _ _);
        rewrite querySelector_with_holder_ne by done;
        destruct (querySelector_holder q (container s)); simpl; [|done| |done];
        by rewrite decide_False.
  - case_decide; [done|]. intros [= <-]. unfold on_finally.
    by rewrite container_pump, option_fmap_id.
Qed.

Lemma holder_run q evs s s' :
  run s evs = Some s' →
  querySelector_holder q (container s')
  = apply_settlements tokenError options pdf q evs <$> querySelector_holder q (container s).
Proof.
  revert s. induction evs as [|ev rest IH]; intros s; simpl.
  - intros [= <-]. by rewrite option_fmap_id.
  - destruct (step s ev) as [s1|] eqn:Hstep; [|done]. simpl.
    intros ->%IH. rewrite (holder_step q _ _ _ Hstep).
    by rewrite <-option_fmap_compose.
Qed.

Lemma settle_holder_other q ev h :
  ¬ settles q ev → settle_holder tokenError options pdf q ev h = h.
Proof.
  destruct ev as [|p r|]; simpl; [done| |done].
  intros Hne. by rewrite decide_False.
Qed.

Lemma apply_settlements_none q evs h :
  Forall (λ ev, ¬ settles q ev) evs →
  apply_settlements tokenError options pdf q evs h = h.
Proof.
  revert h. induction evs as [|ev rest IH]; intros h; [done|].
  intros [Hev Hall]%Forall_cons. simpl.
  by rewrite settle_holder_other, IH.
Qed.

(** *** A page that waits is served *)

Lemma pending_turn p s next rest :
  queue s = next :: rest → sound s → pending p s →
  pending p (turn next rest s).
Proof.
  intros Hq Hs Hp. rewrite turn_sound_eq by done. unfold pending in *.
  simpl. rewrite Hq in Hp.
  destruct Hp as [[->|Hp]%elem_of_cons|Hp].
  - right. apply elem_of_union. left. by apply elem_of_singleton.
  - by left.
  - right. apply elem_of_union. by right.
Qed.

Lemma pending_pump p s : sound s → pending p s → pending p (pump s).
Proof.
  intros Hs Hp.
  apply (pump_inv (λ s', sound s' ∧ pending p s')); [| |done].
  - intros s1 next rest Hq _ _ [Hs1 Hp1].
    split; [by apply sound_turn|by apply pending_turn].
  - intros s1 rest Hq _ [Hs1 _]. exfalso.
    apply (sound_queue_nonzero _ 0%nat Hs1); [|done]. rewrite Hq. left.
Qed.

Lemma pending_push p q s :
  pending p s → pending p (log_push q (set_queue (queue s ++ [q]) s)).
Proof.
  intros [Hp|Hp]; [left|by right]. simpl. apply elem_of_app. by left.
Qed.

Lemma pending_enqueue p q s :
  is_unrendered q (container s) → sound s → pending p s →
  pending p (enqueue q s).
Proof.
  intros Hq Hs Hp. unfold Lazy.enqueue.
  destruct (bool_decide (q ∉ queue s)) eqn:Hq1; simpl; [|done].
  destruct (bool_decide (q ∉ inFlight s)) eqn:Hq2; simpl; [|done].
  apply bool_decide_eq_true in Hq1, Hq2.
  apply pending_pump; [by apply sound_push|by apply pending_push].
Qed.

Lemma pending_enqueue_self p s :
  is_unrendered p (container s) → sound s → pending p (enqueue p s).
Proof.
  intros Hp Hs. unfold Lazy.enqueue.
  destruct (bool_decide (p ∉ queue s)) eqn:Hq1; simpl.
  - destruct (bool_decide (p ∉ inFlight s)) eqn:Hq2; simpl.
    + apply bool_decide_eq_true in Hq1, Hq2.
      apply pending_pump; [by apply sound_push|].
      left. simpl. apply elem_of_app. right. by apply list_elem_of_singleton.
    + apply bool_decide_eq_false in Hq2. right. by apply dec_stable.
  - apply bool_decide_eq_false in Hq1. left. by apply dec_stable.
Qed.

Lemma pending_on_intersect p entries s s' :
  on_intersect options entries s = Some s' → good options s →
  is_unrendered p (container s) →
  pending p s ∨ {| target := p; isIntersecting := true |} ∈ entries →
  pending p s'.
Proof.
  revert s. induction entries as [|entry rest IH]; intros s; simpl.
  - intros [= <-] _ _ [?|?%elem_of_nil]; done.
  - destruct (on_entry options entry s) as [s1|] eqn:Hentry; [|done].
    simpl. intros Hrest Hs Hp Hor.
    pose proof (good_on_entry _ _ _ Hentry Hs) as Hs1.
    destruct Hs as (_ & Hs & _).
    apply (IH s1 Hrest Hs1).
    { apply on_entry_cases in Hentry as [->|(_ & _ & ->)]; [done|].
      by rewrite container_enqueue. }
    destruct Hor as [Hpend|[<-|Hin]%elem_of_cons].
    + left. apply on_entry_cases in Hentry as [->|(_ & ? & ->)]; [done|].
      by apply pending_enqueue.
    + left. rewrite on_entry_notify in Hentry by done.
      injection Hentry as <-. by apply pending_enqueue_self.
    + by right.
Qed.

Lemma is_unrendered_step p s ev s' :
  step s ev = Some s' → ¬ settles p ev →
  is_unrendered p (container s) → is_unrendered p (container s').
Proof.
  intros Hstep Hev (h & Hh & Hc). exists h. split; [|done].
  rewrite (holder_step p _ _ _ Hstep), Hh. simpl.
  by rewrite settle_holder_other.
Qed.

Lemma pending_step p s ev s' :
  step s ev = Some s' → good options s → ¬ settles p ev →
  is_unrendered p (container s) →
  pending p s ∨ notifies p ev → pending p s'.
Proof.
  destruct ev as [entries|q r|]; simpl.
  - intros. by eapply pending_on_intersect.
  - case_decide; [|done]. intros [= <-] _ Hne _ [[Hp|Hp]|[]].
    + by left.
    + right. simpl. apply elem_of_difference. split; [done|].
      by intros ->%elem_of_singleton.
  - case_decide; [done|]. intros [= <-] (_ & Hs & _) _ _ [Hp|[]].
    unfold on_finally. apply pending_pump; [by destruct Hs|done].
Qed.

Lemma pending_run p evs s s' :
  run s evs = Some s' → good options s →
  Forall (λ ev, ¬ settles p ev) evs →
  is_unrendered p (container s) →
  pending p s ∨ Exists (notifies p) evs → pending p s'.
Proof.
  revert s. induction evs as [|ev rest IH]; intros s; simpl.
  - intros [= <-] _ _ _ [?|?%Exists_nil]; done.
  - destruct (step s ev) as [s1|] eqn:Hstep; [|done]. simpl.
    intros Hrest Hs [Hev Hall]%Forall_cons Hp Hor.
    apply (IH s1 Hrest); [by eapply good_step|done|
                          by eapply is_unrendered_step|].
    destruct Hor as [Hpend|[Hn|Hn]%Exists_cons].
    + left. eapply pending_step; eauto.
    + left. eapply pending_step; eauto.
    + by right.
Qed.

Lemma pump_cons s next rest :
  queue s = next :: rest → active s < k → next ≠ 0%nat →
  pump s = pump (turn next rest s).
Proof.
  intros Hq Hlt Hnext. unfold Lazy.pump at 1. rewrite Hq. simpl.
  rewrite bool_decide_eq_true_2, decide_False by done.
  rewrite pump_loop_pump. f_equal. fold (turn next rest s).
  rewrite <-(set_queue_id (turn next rest s)) at 2. f_equal.
  unfold turn. by rewrite queue_renderPage_begin.
Qed.

Lemma queue_pump_le s : (length (queue (pump s)) ≤ length (queue s))%nat.
Proof.
  apply (pump_inv (λ s', (length (queue s') ≤ length (queue s))%nat));
    [| |done].
  - intros s1 next rest Hq _ _ Hle. unfold turn.
    rewrite queue_renderPage_begin. simpl. rewrite Hq in Hle. simpl in Hle.
    lia.
  - intros s1 rest Hq _ Hle. simpl. rewrite Hq in Hle. simpl in Hle. lia.
Qed.

Lemma queue_pump_lt s :
  sound s → active s < k → queue s ≠ [] →
  (length (queue (pump s)) < length (queue s))%nat.
Proof.
  intros Hs Hlt Hq. destruct (queue s) as [|next rest] eqn:Hqs; [done|].
  rewrite (pump_cons s next rest) by
    (try done; apply (sound_queue_nonzero s next Hs); rewrite Hqs; left).
  pose proof (queue_pump_le (turn next rest s)) as Hle.
  unfold turn in Hle at 2. rewrite queue_renderPage_begin in Hle.
  simpl in *. lia.
Qed.

(** Whatever waits in the queue is started once the renders in flight
    settle: the events that get it there are settlements of other pages
    and [.finally] callbacks only. *)
Lemma served p s :
  1 ≤ k → good options s → pending p s →
  ∃ evs s',
    Forall (λ ev, ev = Finally ∨ ∃ q, q ≠ p ∧ ev = Settle q None) evs
    ∧ run s evs = Some s' ∧ p ∈ inFlight s'.
Proof.
  intros Hk. remember (length (queue s)) as n eqn:Hn.
  revert s Hn. induction (lt_wf n) as [n _ IH]. intros s -> Hs Hp.
  destruct (decide (p ∈ inFlight s)) as [Hin|Hin].
  { exists [], s. by split_and!. }
  destruct Hp as [Hp|Hp]; [|done].
  pose proof Hs as Hgood. destruct Hs as (Hc & Hs & Hb).
  assert (queue s ≠ []) as Hne by (intros Hq; rewrite Hq in Hp; by apply elem_of_nil in Hp).
  destruct Hb as [Hb|Hb]; [done|]. destruct Hc as [Hact Hmax].
  (* one [.finally] callback, after a settlement if none is due *)
  assert (∃ evs s1,
    Forall (λ ev, ev = Finally ∨ ∃ q, q ≠ p ∧ ev = Settle q None) evs
    ∧ run s evs = Some s1 ∧ good options s1 ∧ pending p s1
    ∧ (length (queue s1) < length (queue s))%nat) as
    (evs & s1 & Hevs & Hrun & Hs1 & Hp1 & Hlt).
  { assert (∀ s0, good options s0 → p ∈ queue s0 → settled s0 ≠ 0%nat →
                  queue s0 ≠ [] →
                  good options (on_finally options s0) ∧ pending p (on_finally options s0)
                  ∧ (length (queue (on_finally options s0)) < length (queue s0))%nat)
      as Hfin.
    { intros s0 Hs0 Hp0 Hz Hne0.
      assert (step s0 Finally = Some (on_finally options s0)) as Hstep.
      { simpl. by rewrite decide_False. }
      split_and!.
      - by eapply good_step.
      - eapply pending_step; [done|done|by intros []| |left; by left].
        destruct Hs0 as (_ & Hs0 & _). apply (sound_pending s0 Hs0). by left.
      - destruct Hs0 as ([Ha0 Hm0] & Hs0 & _). unfold on_finally.
        apply (queue_pump_lt (set_active _ (set_settled _ s0)));
          [by destruct Hs0|simpl; lia|done]. }
    destruct (decide (settled s = 0%nat)) as [Hz|Hz].
    - assert (size (inFlight s) ≠ 0%nat) as Hsize by lia.
      apply size_non_empty_iff, set_choose in Hsize as [q Hq].
      assert (q ≠ p) as Hqp by (by intros ->).
      set (s0 := renderPage_end tokenError options pdf q None s).
      assert (step s (Settle q None) = Some s0) as Hstep0.
      { simpl. by rewrite decide_True. }
      assert (good options s0) as Hs0.
      { by eapply good_step. }
      destruct (Hfin s0 Hs0) as (Hs1 & Hp1 & Hlt); [done|by subst s0|done|].
      exists [Settle q None; Finally], (on_finally options s0).
      split_and!; [| |done|done|done].
      + apply Forall_cons. split; [right; by exists q|].
        apply Forall_cons. split; [by left|]. apply Forall_nil_2.
      + by rewrite run_cons, Hstep0.
    - destruct (Hfin s) as (Hs1 & Hp1 & Hlt); [done|done|done|done|].
      exists [Finally], (on_finally options s).
      split_and!; [| |done|done|done].
      { apply Forall_cons. split; [by left|]. apply Forall_nil_2. }
      simpl. by rewrite decide_False. }
  destruct (IH _ Hlt s1 eq_refl Hs1 Hp1) as (evs' & s' & Hevs' & Hrun' & Hin').
  exists (evs ++ evs'), s'. split_and!; [by apply Forall_app|..|done].
  by rewrite run_app, Hrun.
Qed.

(** *** A page that is neither queued nor in flight *)








Lemma pump_full s : ¬ active s < k → pump s = s.
Proof.
  intros Hfull. unfold Lazy.pump. destruct (queue s) as [|next rest] eqn:Hq.
  - simpl. by rewrite <-Hq, set_queue_id.
  - simpl. rewrite bool_decide_eq_false_2 by done.
    by rewrite <-Hq, set_queue_id.
Qed.

Lemma notified_has_holder p evs s s' :
  run s evs = Some s' → Exists (notifies p) evs →
  is_Some (querySelector_holder p (container s)).
Proof.
  revert s. induction evs as [|ev rest IH]; intros s; simpl.
  - by intros _ ?%Exists_nil.
  - destruct (step s ev) as [s1|] eqn:Hstep; [|done]. simpl.
    intros Hrest [Hn|Hn]%Exists_cons.
    + destruct ev as [entries| |]; simpl in *; [|done|done].
      clear Hrest IH. revert s Hstep.
      induction entries as [|entry more IH]; intros s; simpl;
        [by apply elem_of_nil in Hn|].
      destruct (on_entry options entry s) as [s2|] eqn:Hentry; [|done].
      simpl. intros Hmore.
      apply elem_of_cons in Hn as [<-|Hn].
      * unfold on_entry in Hentry. simpl in Hentry.
        by destruct (querySelector_holder p (container s)).
      * specialize (IH Hn s2 Hmore).
        apply on_entry_cases in Hentry as [->|(_ & _ & ->)]; [done|].
        by rewrite container_enqueue in IH.
    + specialize (IH s1 Hrest Hn).
      rewrite (holder_step p _ _ _ Hstep) in IH.
      by apply fmap_is_Some in IH.
Qed.

(** *** A page that is reported while a slot may be free *)

Lemma pump_nil s : queue s = [] → pump s = s.
Proof.
  intros Hq. unfold Lazy.pump. rewrite Hq. simpl.
  by rewrite <-Hq, set_queue_id.
Qed.

(** With nothing in the queue the [.finally] callback gives the slot back
    and starts nothing. *)
Lemma on_finally_nil s :
  queue s = [] →
  on_finally options s
  = set_active (active s - 1) (set_settled (pred (settled s)) s).
Proof. intros Hq. unfold on_finally. by apply pump_nil. Qed.

Lemma render_calls_snoc p s l :
  started s = l ++ [p] →
  render_calls p s = S (length (filter (λ q, q = p) l)).
Proof.
  intros Hl. unfold render_calls.
  rewrite Hl, filter_app, length_app, filter_cons_True by done.
  simpl. lia.
Qed.

(** A page that is neither rendered nor pending is taken when the
    observer reports it: it is pushed, it is started at once when a slot
    is free, and otherwise settlements of other pages and [.finally]
    callbacks get it started; either way [renderPage] gets past its guard
    for the page one more time. *)
Lemma reported_is_started p s :
  good options s → is_unrendered p (container s) → ¬ pending p s →
  step s (near p) = Some (enqueue p s)
  ∧ pending p (enqueue p s)
  ∧ pushed (enqueue p s) = pushed s ++ [p]
  ∧ (active s < k →
     queue (enqueue p s) = []
     ∧ inFlight (enqueue p s) = {[p]} ∪ inFlight s
     ∧ active (enqueue p s) = active s + 1
     ∧ started (enqueue p s) = started s ++ [p]
     ∧ render_calls p (enqueue p s) = S (render_calls p s))
  ∧ (1 ≤ k →
     ∃ evs s',
       Forall (λ ev, ev = Finally ∨ ∃ q, q ≠ p ∧ ev = Settle q None) evs
       ∧ run (enqueue p s) evs = Some s'
       ∧ p ∈ inFlight s'
       ∧ render_calls p s' = S (render_calls p s)).
Proof.
  intros Hgood Hunr Hidle.
  pose proof Hgood as (Hc & Hs & Hb).
  assert (p ∉ queue s) as Hq by (intros ?; apply Hidle; by left).
  assert (p ∉ inFlight s) as Hf by (intros ?; apply Hidle; by right).
  assert (step s (near p) = Some (enqueue p s)) as Hstep.
  { unfold near. simpl. by rewrite on_entry_notify. }
  assert (enqueue p s = pump (log_push p (set_queue (queue s ++ [p]) s)))
    as Henq.
  { unfold Lazy.enqueue. by rewrite !bool_decide_eq_true_2. }
  split_and!.
  - done.
  - by apply pending_enqueue_self.
  - by rewrite Henq, pushed_pump.
  - intros Hlt.
    assert (queue s = []) as Hempty by (destruct Hb; [done|lia]).
    assert (p ≠ 0%nat) as Hp.
    { intros ->. destruct Hunr as (h & Hh & _).
      apply querySelector_Some in Hh as (_ & ? & _).
      by apply (sound_nonzero s Hs). }
    pose proof (sound_push p s Hq Hf Hunr Hs) as Hs1.
    rewrite Henq, (pump_cons _ p []); [|simpl; by rewrite Hempty|done|done].
    rewrite (turn_sound_eq _ p [] Hs1) by (simpl; by rewrite Hempty).
    rewrite pump_nil by done. simpl.
    split_and!; [done|done|done|done|].
    by apply render_calls_snoc.
  - intros Hk.
    assert (good options (enqueue p s)) as Hgood'
      by by eapply (good_step s (near p)).
    destruct (served p (enqueue p s) Hk Hgood')
      as (evs & s' & Hevs & Hrun & Hin); [by apply pending_enqueue_self|].
    exists evs, s'. split_and!; [done|done|done|].
    assert (credit p s' = credit p s) as Hcredit.
    { rewrite (credit_run p evs _ _ Hrun), credit_enqueue; [done|].
      eapply Forall_impl; [exact Hevs|].
      intros ev [->|(q & Hne & ->)]; simpl; [tauto|done]. }
    unfold credit in Hcredit.
    rewrite decide_True, decide_False in Hcredit by done. lia.
Qed.

(** Nothing is in flight under a limit below one. *)
Lemma in_flight_limit p s : counted options s → p ∈ inFlight s → 1 ≤ k.
Proof.
  intros [Hact Hmax] Hp.
  assert (size (inFlight s) ≠ 0%nat).
  { intros Hz%size_empty_inv. by apply (not_elem_of_empty (C:=gset nat) p), Hz. }
  lia.
Qed.

End scheduler_facts.

(** C1: with a concurrency limit of at least one, at every point of every
    run of notifications, settlements and [.finally] callbacks the counter
    [active] lies between zero and the limit, and the set of pages in
    flight is no larger than the counter. *)
Theorem C1_in_flight_bounded tokenError options pdf c evs s :
  1 ≤ concurrent options →
  run tokenError options pdf (init c) evs = Some s →
  ∀ evs1 evs2, evs = evs1 ++ evs2 →
    ∃ s1, run tokenError options pdf (init c) evs1 = Some s1
          ∧ 0 ≤ active s1 ≤ concurrent options
          ∧ Z.of_nat (size (inFlight s1)) ≤ active s1.
Proof.
  intros Hk Hrun evs1 evs2 ->. rewrite run_app in Hrun.
  destruct (run tokenError options pdf (init c) evs1) as [s1|] eqn:Hrun1; [|done].
  exists s1. split; [done|].
  destruct (counted_run tokenError options pdf evs1 (init c) s1 Hrun1 (counted_init _ c))
    as [Hact Hmax].
  lia.
Qed.

Lemma C1_in_flight_bounded_witness :
  ∃ s1, run refused no_options five_pages (init (placeholders 5 1%Qc))
          [near 3; near 1; near 5] = Some s1
        ∧ 0 ≤ active s1 ≤ 2
        ∧ Z.of_nat (size (inFlight s1)) ≤ active s1.
Proof.
  destruct (run refused no_options five_pages (init (placeholders 5 1%Qc))
              [near 3; near 1; near 5; near 2; near 4]) as [s|] eqn:Hrun;
    [|vm_compute in Hrun; discriminate].
  apply (C1_in_flight_bounded refused no_options five_pages (placeholders 5 1%Qc)
           [near 3; near 1; near 5; near 2; near 4] s
           ltac:(vm_compute; discriminate) Hrun
           [near 3; near 1; near 5] [near 2; near 4] eq_refl).
Defined.

(** C2: [enqueue] does nothing for a page that is queued or in flight, and
    [renderPage] starts nothing for a page in flight.  So in a run in which
    page [p] is reported near the viewport, any number of times, and does
    not settle, [p] stays queued or in flight and has had one render call
    if it is in flight and none if it still waits; and the settlements of
    other pages bring it to exactly one render call. *)
Theorem C2_notifications_idempotent tokenError options pdf c evs s p :
  1 ≤ concurrent options →
  fresh c →
  run tokenError options pdf (init c) evs = Some s →
  Forall (λ ev, ¬ settles p ev) evs →
  Exists (notifies p) evs →
  (∀ s0, pending p s0 → enqueue options p s0 = s0)
  ∧ (∀ s0, p ∈ inFlight s0 → started (renderPage_begin p s0) = started s0)
  ∧ pending p s
  ∧ render_calls p s = (if decide (p ∈ inFlight s) then 1 else 0)%nat
  ∧ ∃ evs' s',
      Forall (λ ev, ev = Finally ∨ ∃ q, q ≠ p ∧ ev = Settle q None) evs'
      ∧ run tokenError options pdf s evs' = Some s'
      ∧ render_calls p s' = 1%nat.
Proof.
  intros Hk Hc Hrun Hquiet Hnote.
  assert (good options (init c)) as Hinit by by apply good_init.
  assert (good options s) as Hs by by eapply good_run.
  assert (is_unrendered p c) as Hp.
  { destruct (notified_has_holder tokenError options pdf p evs _ _ Hrun Hnote) as [h Hh].
    exists h. split; [done|]. by destruct (fresh_unrendered c p h). }
  assert (pending p s) as Hpend.
  { eapply pending_run; [done|done|done|done|by right]. }
  assert (∀ evs0 s0, run tokenError options pdf (init c) evs0 = Some s0 →
            Forall (λ ev, ¬ settles p ev) evs0 →
            render_calls p s0 = (if decide (p ∈ inFlight s0) then 1 else 0)%nat)
    as Hcalls.
  { intros evs0 s0 Hrun0 Hquiet0.
    pose proof (credit_run tokenError options pdf p evs0 _ _ Hrun0 Hquiet0) as Hcredit.
    rewrite credit_init in Hcredit. unfold credit in Hcredit.
    destruct (decide (p ∈ inFlight s0)); lia. }
  split_and!.
  - intros s0 Hp0. unfold Lazy.enqueue.
    destruct Hp0 as [Hin|Hin].
    + by rewrite (bool_decide_eq_false_2 (p ∉ queue s0)) by (by intros []).
    + rewrite (bool_decide_eq_false_2 (p ∉ inFlight s0)) by (by intros []).
      by rewrite andb_false_r.
  - intros s0 Hin. unfold renderPage_begin. by rewrite decide_True.
  - done.
  - by apply (Hcalls evs).
  - destruct (served tokenError options pdf p s Hk Hs Hpend)
      as (evs' & s' & Hevs' & Hrun' & Hin').
    exists evs', s'. split_and!; [done|done|].
    rewrite (Hcalls (evs ++ evs') s').
    + by rewrite decide_True.
    + by rewrite run_app, Hrun.
    + apply Forall_app. split; [done|].
      eapply Forall_impl; [exact Hevs'|]. simpl.
      intros ev [->|(q & Hq & ->)]; simpl; [tauto|done].
Qed.

Lemma C2_notifications_idempotent_witness :
  ∃ s, run refused no_options five_pages (init (placeholders 5 1%Qc))
         [near 3; near 1; near 5; near 5; near 5] = Some s
       ∧ pending 5 s
       ∧ render_calls 5 s = (if decide (5%nat ∈ inFlight s) then 1 else 0)%nat.
Proof.
  destruct (run refused no_options five_pages (init (placeholders 5 1%Qc))
              [near 3; near 1; near 5; near 5; near 5]) as [s|] eqn:Hrun;
    [|vm_compute in Hrun; discriminate].
  exists s. split; [reflexivity|].
  destruct (C2_notifications_idempotent refused no_options five_pages
              (placeholders 5 1%Qc)
              [near 3; near 1; near 5; near 5; near 5] s 5%nat)
    as (_ & _ & Hpending & Hcalls & _).
  - vm_compute. discriminate.
  - apply fresh_placeholders.
  - exact Hrun.
  - repeat (apply Forall_cons; split; [simpl; tauto|]). apply Forall_nil_2.
  - do 2 apply Exists_cons_tl. apply Exists_cons_hd. simpl. left.
  - split; [exact Hpending|exact Hcalls].
Defined.




(** C4: the queue is the part of the log of pushes that has not been
    started, in the same order; so when [A] and [B] both wait and [A] was
    pushed before [B], [A] is ahead of [B] in the queue and, whatever
    happens next, [A] is started before [B] is.  With five pages,
    a limit of two and the pages reported in the order 3, 1, 5, 2, 4, pages
    3 and 1 are started at once, and 5, 2 and 4 follow in that order as
    renders settle (here 1 before 3, and 3 with a failure). *)
Theorem C4_first_in_first_out tokenError options pdf c evs1 s1 evs2 s2 A B l1 l2 :
  fresh c →
  run tokenError options pdf (init c) evs1 = Some s1 →
  A ∈ queue s1 → B ∈ queue s1 →
  pushed s1 = l1 ++ A :: l2 → A ∉ l2 → B ∈ l2 →
  run tokenError options pdf s1 evs2 = Some s2 →
  pushed s1 = started s1 ++ queue s1
  ∧ (∃ q1 q2, queue s1 = q1 ++ A :: q2 ∧ B ∈ q2)
  ∧ (∃ new, started s2 = started s1 ++ new ∧ (B ∈ new → precedes A B new))
  ∧ let observed := [near 3; near 1; near 5; near 2; near 4] in
    let go evs := run refused no_options five_pages (init (placeholders 5 1%Qc)) evs in
    started <$> go observed = Some [3; 1]%nat
    ∧ queue <$> go observed = Some [5; 2; 4]%nat
    ∧ started <$> go (observed ++ [Settle 1 None; Finally])
      = Some [3; 1; 5]%nat
    ∧ started <$> go (observed ++ [Settle 1 None; Finally;
                                   Settle 3 boom; Finally])
      = Some [3; 1; 5; 2]%nat
    ∧ started <$> go (observed ++ [Settle 1 None; Finally;
                                   Settle 3 boom; Finally;
                                   Settle 2 None; Finally])
      = Some [3; 1; 5; 2; 4]%nat.
Proof.
  intros Hc Hrun1 HA HB Hlog HAl2 HBl2 Hrun2.
  assert (good options s1) as (_ & Hs1 & _).
  { eapply good_run; [done|]. by apply good_init. }
  assert (good options s2) as (_ & Hs2 & _).
  { eapply good_run; [done|]. eapply good_run; [done|]. by apply good_init. }
  assert (∃ q1 q2, queue s1 = q1 ++ A :: q2 ∧ B ∈ q2) as (q1 & q2 & Hq & HBq2).
  { apply list_elem_of_split in HA as (q1 & q2 & Hq). exists q1, q2.
    split; [done|].
    pose proof (sound_nodup s1 Hs1) as Hnd. rewrite Hq in Hnd.
    apply NoDup_app in Hnd as (_ & _ & [HAq2 _]%NoDup_cons).
    rewrite (sound_log s1 Hs1), Hq, (assoc_L (++)) in Hlog.
    by rewrite (last_occurrence _ _ _ _ _ Hlog HAq2 HAl2). }
  split_and!.
  - apply (sound_log s1 Hs1).
  - by exists q1, q2.
  - apply (fifo s1 s2 A B q1 q2); [done|done| |done|done].
    by eapply extends_run.
  - split_and!; vm_compute; reflexivity.
Qed.

Lemma C4_first_in_first_out_witness :
  ∃ new,
    started (after [near 3; near 1; near 5; near 2; near 4;
                    Settle 1 None; Finally; Settle 3 None; Finally])
    = started (after [near 3; near 1; near 5; near 2; near 4]) ++ new
    ∧ (2%nat ∈ new → precedes 5 2 new).
Proof.
  destruct (C4_first_in_first_out refused no_options five_pages (placeholders 5 1%Qc)
              [near 3; near 1; near 5; near 2; near 4]
              (after [near 3; near 1; near 5; near 2; near 4])
              [Settle 1 None; Finally; Settle 3 None; Finally]
              (after [near 3; near 1; near 5; near 2; near 4;
                      Settle 1 None; Finally; Settle 3 None; Finally])
              5%nat 2%nat [3; 1]%nat [2; 4]%nat) as (_ & _ & Hfifo & _).
  - apply fresh_placeholders.
  - vm_compute. reflexivity.
  - vm_compute. left.
  - vm_compute. right. left.
  - vm_compute. reflexivity.
  - intros [[=]|[[=]|[]%elem_of_nil]%elem_of_cons]%elem_of_cons.
  - left.
  - vm_compute. reflexivity.
  - exact Hfifo.
Defined.

(** A mutation through [with_holder] touches the holder of that page and
    nothing else under the container. *)
Lemma with_holder_only p f c :
  Forall2 (λ n n', n = n' ∨ ∃ h, n = PageHolder h ∧ n' = PageHolder (f h)
                                 ∧ dataset_page h = p)
          c (with_holder p f c).
Proof.
  induction c as [|[| h |] rest IH]; simpl.
  - constructor.
  - constructor; [by left|done].
  - case_decide.
    + constructor; [right; by exists h|]. apply Forall_Forall2_diag.
      apply Forall_forall. intros; by left.
    + constructor; [by left|done].
  - constructor; [by left|done].
Qed.

(** C6: when the render of page [P] fails, the error message goes into the
    holder of [P] and the rest of the container stays as it is; [P] leaves
    the set of pages in flight, the queue and the other pages in flight are
    untouched, and the variables of the scheduler are what they would be
    after a success; the [.finally] callback then starts the head of the
    queue; and what the holder of any other page shows afterwards depends
    on the settlements of that page alone.  The slot of [P] is given
    back: the [.finally] callback takes one off [active], which then
    counts the renders in flight and the callbacks due without [P]; with
    nothing queued [active] ends one lower and below the limit, and with a
    page queued that page takes the slot.  The scheduler keeps admitting:
    a page reported after the callback that is neither rendered nor
    pending, [P] itself included, is taken and gets started, at once when
    nothing was queued; and in every later state pages wait only behind a
    full gate, and every page that waits or is in flight there gets
    started by settlements of other pages and [.finally] callbacks. *)
Theorem C6_page_failure_isolated tokenError options pdf c evs s P r e :
  fresh c →
  run tokenError options pdf (init c) evs = Some s →
  P ∈ inFlight s →
  render_outcome tokenError options pdf P r = inl e →
  let s' := renderPage_end tokenError options pdf P r s in
  step tokenError options pdf s (Settle P r) = Some s'
  (* the error shows at the holder of P, and only there *)
  ∧ (∃ h, querySelector_holder P (container s) = Some h
          ∧ querySelector_holder P (container s') = Some (show_error P e h))
  ∧ Forall2 (λ n n', n = n' ∨ ∃ h, n = PageHolder h
                                   ∧ n' = PageHolder (show_error P e h)
                                   ∧ dataset_page h = P)
            (container s) (container s')
  ∧ (∀ q, q ≠ P →
       querySelector_holder q (container s')
       = querySelector_holder q (container s))
  (* P leaves the set; nothing else is cancelled *)
  ∧ inFlight s' = inFlight s ∖ {[P]}
  ∧ queue s' = queue s
  ∧ (∀ q, q ≠ P → q ∈ inFlight s → q ∈ inFlight s')
  (* the scheduler goes on as after a success *)
  ∧ (∀ r', let s'' := renderPage_end tokenError options pdf P r' s in
           (queue s'', inFlight s'', active s'', settled s'',
            pushed s'', started s'')
           = (queue s', inFlight s', active s', settled s',
              pushed s', started s'))
  (* the slot is free: the [.finally] callback starts the next page *)
  ∧ step tokenError options pdf s' Finally = Some (on_finally options s')
  ∧ (∀ next rest, queue s = next :: rest →
       queue (on_finally options s') = rest
       ∧ inFlight (on_finally options s') = {[next]} ∪ inFlight s ∖ {[P]}
       ∧ started (on_finally options s') = started s ++ [next])
  (* what any other holder shows in the end is the doing of the settlements
     of its own page *)
  ∧ (∀ q evs' s'', q ≠ P →
       run tokenError options pdf s' evs' = Some s'' →
       querySelector_holder q (container s'')
       = apply_settlements tokenError options pdf q evs'
           <$> querySelector_holder q (container s))
  (* the slot of P is given back by the [.finally] callback *)
  ∧ active s' = active s ∧ settled s' = S (settled s)
  ∧ counted options (on_finally options s')
  ∧ settled (on_finally options s') = settled s
  ∧ (P ∉ inFlight (on_finally options s'))
  ∧ (queue s = [] →
       on_finally options s'
       = set_active (active s - 1) (set_settled (settled s) s')
       ∧ queue (on_finally options s') = []
       ∧ inFlight (on_finally options s') = inFlight s ∖ {[P]}
       ∧ active (on_finally options s') = active s - 1
       ∧ active (on_finally options s') < concurrent options
       ∧ started (on_finally options s') = started s)
  ∧ (∀ next rest, queue s = next :: rest →
       active (on_finally options s') = active s)
  (* the scheduler keeps admitting *)
  ∧ (∀ q,
       is_unrendered q (container (on_finally options s')) →
       ¬ pending q (on_finally options s') →
       step tokenError options pdf (on_finally options s') (near q)
       = Some (enqueue options q (on_finally options s'))
       ∧ pending q (enqueue options q (on_finally options s'))
       ∧ (queue s = [] →
            q ∈ inFlight (enqueue options q (on_finally options s'))
            ∧ started (enqueue options q (on_finally options s'))
              = started s ++ [q])
       ∧ ∃ evs3 s3,
           Forall (λ ev, ev = Finally ∨ ∃ q', q' ≠ q ∧ ev = Settle q' None)
                  evs3
           ∧ run tokenError options pdf
               (enqueue options q (on_finally options s')) evs3 = Some s3
           ∧ q ∈ inFlight s3
           ∧ render_calls q s3
             = S (render_calls q (on_finally options s')))
  ∧ (is_unrendered P (container (on_finally options s'))
     ∧ ¬ pending P (on_finally options s'))
  ∧ (∀ evs' s'' q,
       run tokenError options pdf s' evs' = Some s'' →
       busy options s'' ∧ counted options s''
       ∧ (pending q s'' →
          ∃ evs3 s3,
            Forall (λ ev, ev = Finally ∨ ∃ q', q' ≠ q ∧ ev = Settle q' None)
                   evs3
            ∧ run tokenError options pdf s'' evs3 = Some s3
            ∧ q ∈ inFlight s3)).
Proof.
  intros Hc Hrun HP Hout s'.
  assert (good options s) as Hs.
  { eapply good_run; [done|]. by apply good_init. }
  assert (step tokenError options pdf s (Settle P r) = Some s') as Hstep.
  { simpl. by rewrite decide_True. }
  assert (good options s') as Hs' by by eapply good_step.
  destruct Hs as ([Hact Hmax] & Hs & Hb).
  destruct (sound_pending s Hs P) as (h & Hh & _); [by right|].
  assert (container s' = with_holder P (show_error P e) (container s)) as Hcont.
  { unfold s', renderPage_end. simpl. by rewrite Hout. }
  assert (1 ≤ concurrent options) as Hk
    by by apply (in_flight_limit options P s).
  assert (step tokenError options pdf s' Finally
          = Some (on_finally options s')) as Hfin by done.
  assert (good options (on_finally options s')) as Hsf
    by by eapply good_step.
  assert (queue s = [] →
          on_finally options s'
          = set_active (active s - 1) (set_settled (settled s) s'))
    as Hgiven by (intros Hq; by apply on_finally_nil).
  assert (P ∉ queue s) as HPq.
  { intros HPq. by apply (sound_disjoint s Hs P). }
  assert (∀ next rest, queue s = next :: rest →
            on_finally options s'
            = log_start next
                (set_inFlight ({[next]} ∪ inFlight s ∖ {[P]})
                   (set_active (active s)
                      (set_settled (settled s) (set_queue rest s')))))
    as Htaken.
  { intros next rest Hq.
    assert (next ≠ 0%nat) as Hnext.
    { apply (sound_queue_nonzero s next Hs). rewrite Hq. left. }
    assert (size (inFlight s) ≠ 0%nat) as Hsize.
    { intros Hz%size_empty_inv.
      by apply (not_elem_of_empty (C:=gset nat) P), Hz. }
    assert (active s = concurrent options) as Hfull.
    { destruct Hb as [Hb|Hb]; [by rewrite Hq in Hb|lia]. }
    unfold on_finally.
    rewrite (pump_cons options _ next rest); [|done|simpl; lia|done].
    rewrite pump_full.
    2:{ unfold turn. rewrite active_renderPage_begin. simpl. lia. }
    destruct Hs' as (_ & Hs' & _).
    rewrite turn_sound_eq; [|split; try apply Hs'|done].
    simpl. unfold log_start, set_inFlight, set_active, set_settled, set_queue.
    simpl. do 2 f_equal. lia. }
  assert (P ∉ inFlight (on_finally options s')) as HPf.
  { destruct (queue s) as [|next rest] eqn:Hq.
    - rewrite Hgiven by done. simpl.
      intros [_ Hne]%elem_of_difference. apply Hne. by apply elem_of_singleton.
    - rewrite (Htaken next rest) by done. simpl.
      intros [->%elem_of_singleton|[_ Hne]%elem_of_difference]%elem_of_union.
      + apply HPq. left.
      + apply Hne. by apply elem_of_singleton. }
  assert (P ∉ queue (on_finally options s')) as HPq'.
  { destruct (queue s) as [|next rest] eqn:Hq.
    - rewrite Hgiven by done. simpl. rewrite Hq. apply not_elem_of_nil.
    - rewrite (Htaken next rest) by done. simpl.
      intros Hin. apply HPq. by right. }
  assert (is_unrendered P (container (on_finally options s'))) as HPunr.
  { assert (container (on_finally options s') = container s') as ->
      by (unfold on_finally; by rewrite container_pump).
    destruct (sound_pending s Hs P) as (h' & Hh' & Hmark); [by right|].
    rewrite Hh in Hh'. injection Hh' as <-.
    exists (show_error P e h). split; [|done].
    by rewrite Hcont, querySelector_with_holder_eq, Hh. }
  split_and!.
  - done.
  - exists h. split; [done|].
    by rewrite Hcont, querySelector_with_holder_eq, Hh.
  - rewrite Hcont. apply with_holder_only.
  - intros q Hq. by apply querySelector_renderPage_end_ne.
  - done.
  - done.
  - intros q Hq Hin. apply elem_of_difference. split; [done|].
    by intros ->%elem_of_singleton.
  - done.
  - done.
  - intros next rest Hq. by rewrite (Htaken next rest).
  - intros q evs' s'' Hq Hrun'.
    rewrite (holder_run tokenError options pdf q evs' s' s'' Hrun'). unfold s'.
    by rewrite querySelector_renderPage_end_ne.
  - done.
  - done.
  - by destruct Hsf.
  - destruct (queue s) as [|next rest] eqn:Hq.
    + by rewrite Hgiven.
    + by rewrite (Htaken next rest).
  - done.
  - intros Hq. rewrite Hgiven by done. simpl.
    split_and!; [done|done|done|done|lia|done].
  - intros next rest Hq. by rewrite (Htaken next rest).
  - intros q Hunr Hidle.
    destruct (reported_is_started tokenError options pdf q _ Hsf Hunr Hidle)
      as (Hstep' & Hpend & _ & Hfree & Hlater).
    split_and!; [done|done| |by apply Hlater].
    intros Hq. destruct Hfree as (_ & Hset & _ & Hlog & _).
    { rewrite Hgiven by done. simpl. lia. }
    rewrite Hset, Hlog, Hgiven by done. simpl.
    split; [|done]. apply elem_of_union. left. by apply elem_of_singleton.
  - done.
  - by intros [?|?].
  - intros evs' s'' q Hrun'.
    assert (good options s'') as Hgood'' by by eapply good_run.
    split_and!; [by destruct Hgood'' as (_ & _ & ?)|by destruct Hgood''|].
    intros Hpend. by apply served.
Qed.

Lemma C6_page_failure_isolated_witness :
  ∃ h, querySelector_holder 3
         (container (renderPage_end refused no_options five_pages 3 boom
                       (after [near 3; near 1; near 5]))) = Some h
       ∧ content h = [ContentError "boom"]
       ∧ started (on_finally no_options
                    (renderPage_end refused no_options five_pages 3 boom
                       (after [near 3; near 1; near 5])))
         = [3; 1; 5]%nat.
Proof.
  destruct (C6_page_failure_isolated refused no_options five_pages
              (placeholders 5 1%Qc) [near 3; near 1; near 5]
              (after [near 3; near 1; near 5]) 3%nat boom (new_Error "boom"))
    as (_ & (h & Hh & Hshown) & _ & _ & _ & _ & _ & _ & _ & Hnext & _).
  - apply fresh_placeholders.
  - vm_compute. reflexivity.
  - vm_compute. reflexivity.
  - vm_compute. reflexivity.
  - eexists. split; [exact Hshown|]. split; [reflexivity|].
    destruct (Hnext 5%nat []) as (_ & _ & ->); [vm_compute; reflexivity|].
    vm_compute. reflexivity.
Defined.


(** ** The renderer that paints all pages at once *)

Section parallel_facts.

Variable tokenError : string → Error.
Variable options : Options.
Variable pdf : PDFDocument.
Variable c0 : list Node.

Local Abbreviation inv := (parallel_inv tokenError options pdf c0).

Lemma outstanding_replicate n : outstanding (replicate n Parallel.AwaitPage) = n.
Proof.
  unfold outstanding. induction n as [|n IH]; [done|].
  change (replicate (S n) Parallel.AwaitPage)
    with (Parallel.AwaitPage :: replicate n Parallel.AwaitPage).
  rewrite filter_cons_True by done. simpl. by rewrite IH.
Qed.

Lemma inv_start : inv (Parallel.start pdf c0).
Proof.
  unfold Parallel.start. destruct (numPages pdf) as [|n] eqn:Hn.
  - split; simpl; try done. by intros i cv [?|?].
  - split; cbn -[replicate outstanding].
    + by rewrite fmap_replicate.
    + by rewrite outstanding_replicate.
    + intros i cv [[H _]%lookup_replicate|[H _]%lookup_replicate]; done.
    + done.
    + by rewrite length_replicate.
Qed.

Lemma outstanding_insert_same tasks i t t' :
  tasks !! i = Some t → slot t = None → slot t' = None →
  outstanding (<[i:=t']> tasks) = outstanding tasks.
Proof.
  intros Hi Ht Ht'. unfold outstanding.
  rewrite <-(take_drop_middle tasks i t Hi) at 2.
  rewrite insert_take_drop by by eapply lookup_lt_Some.
  rewrite !filter_app, !length_app.
  by rewrite !filter_cons_True by done.
Qed.

Lemma outstanding_insert_returned tasks i t cv :
  tasks !! i = Some t → slot t = None →
  outstanding tasks = S (outstanding (<[i:=Parallel.Returned cv]> tasks)).
Proof.
  intros Hi Ht. unfold outstanding.
  rewrite <-(take_drop_middle tasks i t Hi) at 1.
  rewrite insert_take_drop by by eapply lookup_lt_Some.
  rewrite !filter_app, !length_app.
  rewrite filter_cons_True by done. rewrite filter_cons_False by done.
  simpl. lia.
Qed.

Lemma values_insert_same (tasks : list Parallel.Task) (i : nat) t t' :
  tasks !! i = Some t → slot t = None → slot t' = None →
  slot <$> <[i:=t']> tasks = slot <$> tasks.
Proof.
  intros Hi Ht Ht'. rewrite list_fmap_insert, Ht'.
  apply list_insert_id. by rewrite list_lookup_fmap, Hi, <-Ht.
Qed.

Lemma outstanding_pos (tasks : list Parallel.Task) (i : nat) t :
  tasks !! i = Some t → slot t = None → outstanding tasks ≠ 0%nat.
Proof.
  intros Hi Ht. unfold outstanding.
  rewrite <-(take_drop_middle tasks i t Hi).
  rewrite filter_app, length_app, filter_cons_True by done. simpl. lia.
Qed.

Lemma inv_reject e i t s :
  Parallel.tasks s !! i = Some t → slot t = None →
  inv s → inv (Parallel.reject_all e (Parallel.set_task i (Parallel.Thrown e) s)).
Proof.
  intros Hi Ht [Hval Hrem Hcv Hall Hlen].
  assert (i < length (Parallel.tasks s))%nat as Hlt by by eapply lookup_lt_Some.
  assert (inv (Parallel.set_task i (Parallel.Thrown e) s)) as Hset.
  { split; simpl.
    - by rewrite (values_insert_same _ _ t).
    - by rewrite (outstanding_insert_same _ _ t).
    - intros j cv Hj. apply Hcv.
      destruct (decide (i = j)) as [->|Hij].
      + rewrite list_lookup_insert_eq in Hj by done. by destruct Hj.
      + by rewrite list_lookup_insert_ne in Hj.
    - destruct (Parallel.all s); [done|done|].
      destruct Hall as (Hcont & j & e' & Hj). split; [done|].
      destruct (decide (i = j)) as [->|Hij].
      + exists j, e. by rewrite list_lookup_insert_eq.
      + exists j, e'. by rewrite list_lookup_insert_ne.
    - by rewrite length_insert. }
  unfold Parallel.reject_all.
  destruct (Parallel.all (Parallel.set_task i (Parallel.Thrown e) s))
    eqn:Hstate; [|done|done].
  destruct Hset as [Hval' Hrem' Hcv' Hall' Hlen']. rewrite Hstate in Hall'.
  split; simpl; [done|done|done| |done]. destruct Hall' as [Hcont _].
  simpl in Hcont. rewrite Hcont. split; [done|].
  exists i, e. by rewrite list_lookup_insert_eq.
Qed.

Lemma inv_set_task i t t' s :
  Parallel.tasks s !! i = Some t → slot t = None → slot t' = None →
  (∀ e, t ≠ Parallel.Thrown e) →
  match Parallel.all s with
  | Parallel.Rejected _ =>
      ∃ j e, Parallel.tasks s !! j = Some (Parallel.Thrown e)
  | _ => True
  end →
  match Parallel.all s with
  | Parallel.Rejected _ =>
      ∃ j e, <[i:=t']> (Parallel.tasks s) !! j = Some (Parallel.Thrown e)
  | _ => True
  end.
Proof.
  intros Hi Ht Ht' Hne. destruct (Parallel.all s); [done|done|].
  intros (j & e' & Hj). exists j, e'.
  rewrite list_lookup_insert_ne; [done|]. intros ->.
  rewrite Hi in Hj. injection Hj as ->. by destruct (Hne e').
Qed.

Lemma inv_step s ev s' :
  Parallel.step tokenError options pdf s ev = Some s' → inv s → inv s'.
Proof.
  destruct ev as [i|i render]; simpl.
  - destruct (Parallel.tasks s !! i) as [[| | |]|] eqn:Hi; try done.
    destruct (getPage pdf (i + 1)) as [e|page] eqn:Hpage;
      [intros [= <-] Hs; by apply (inv_reject e i Parallel.AwaitPage)|].
    destruct (Parallel.new_canvas tokenError options (i + 1)
                (getViewport page (Parallel.scale options)))
      as [e|canvas] eqn:Hcanvas; intros [= <-] Hs.
    + by apply (inv_reject e i Parallel.AwaitPage).
    + destruct Hs as [Hval Hrem Hcv Hall Hlen]. split; simpl.
      * by rewrite (values_insert_same _ _ Parallel.AwaitPage).
      * by rewrite (outstanding_insert_same _ _ Parallel.AwaitPage).
      * intros j cv Hj. destruct (decide (i = j)) as [->|Hij].
        -- rewrite list_lookup_insert_eq in Hj by by eapply lookup_lt_Some.
           destruct Hj as [[= <-]|[=]]. unfold page_canvas.
           by rewrite Hpage, Hcanvas.
        -- rewrite list_lookup_insert_ne in Hj by done. by apply Hcv.
      * pose proof (inv_set_task i _ (Parallel.AwaitRender canvas) s Hi
                      eq_refl eq_refl) as Hthrown.
        destruct (Parallel.all s); [done|done|].
        destruct Hall as [Hcont Hex]. split; [done|]. by apply Hthrown.
      * by rewrite length_insert.
  - destruct (Parallel.tasks s !! i) as [[|canvas| |]|] eqn:Hi; try done.
    destruct render as [e|]; intros [= <-] Hs.
    + by apply (inv_reject e i (Parallel.AwaitRender canvas)).
    + destruct Hs as [Hval Hrem Hcv Hall Hlen].
      pose proof (outstanding_insert_returned _ _ _ canvas Hi eq_refl) as Hout.
      assert (<[i:=Some canvas]> (Parallel.values s)
              = slot <$> <[i:=Parallel.Returned canvas]> (Parallel.tasks s))
        as Hval'.
      { by rewrite list_fmap_insert, Hval. }
      assert (∀ j cv,
        <[i:=Parallel.Returned canvas]> (Parallel.tasks s) !! j
          = Some (Parallel.AwaitRender cv)
        ∨ <[i:=Parallel.Returned canvas]> (Parallel.tasks s) !! j
          = Some (Parallel.Returned cv) →
        page_canvas tokenError options pdf (j + 1) = Some cv) as Hcv'.
      { intros j cv Hj. destruct (decide (i = j)) as [->|Hij].
        - rewrite list_lookup_insert_eq in Hj by by eapply lookup_lt_Some.
          destruct Hj as [[=]|[= <-]]. apply Hcv. by left.
        - rewrite list_lookup_insert_ne in Hj by done. by apply Hcv. }
      assert (length (<[i:=Parallel.Returned canvas]> (Parallel.tasks s))
              = numPages pdf) as Hlen' by by rewrite length_insert.
      unfold Parallel.resolve_element. simpl.
      destruct (Parallel.all s) eqn:Hstate.
      * destruct (pred (Parallel.remaining s)) eqn:Hpred.
        -- split; simpl; [done|lia|done| |done].
           by destruct Hall as [-> _].
        -- split; simpl; [done|lia|done| |done].
           destruct Hall as [-> _]. split; [done|lia].
      * destruct Hall as (Hzero & _). rewrite Hrem in Hzero. lia.
      * split; simpl; [done|lia|done| |done].
        destruct Hall as [Hcont (j & e' & Hj)]. split; [done|].
        exists j, e'. rewrite list_lookup_insert_ne; [done|]. intros ->.
        rewrite Hi in Hj. done.
Qed.

Lemma inv_run evs s s' :
  Parallel.run tokenError options pdf s evs = Some s' → inv s → inv s'.
Proof.
  revert s. induction evs as [|ev rest IH]; intros s; simpl.
  - by intros [= <-].
  - destruct (Parallel.step tokenError options pdf s ev) as [s1|] eqn:Hstep; [|done].
    simpl. intros Hrest Hs. eapply IH; [done|]. by eapply inv_step.
Qed.

(** When every task has returned, the result array lists their canvases in
    the order of the tasks. *)
Lemma all_returned (tasks : list Parallel.Task) :
  outstanding tasks = 0%nat →
  tasks = Parallel.Returned <$> Parallel.filled (slot <$> tasks).
Proof.
  unfold outstanding, Parallel.filled.
  induction tasks as [|t rest IH]; [done|].
  destruct t; try (rewrite filter_cons_True by done; done).
  rewrite filter_cons_False by done. intros Hrest.
  rewrite fmap_cons. simpl. f_equal. by apply IH.
Qed.

End parallel_facts.

(** The canvas of a page is of that page, and of the configured class
    alone. *)
Lemma page_canvas_Some tokenError options pdf p cv :
  page_canvas tokenError options pdf p = Some cv →
  cv_page cv = p ∧ cv_classList cv = [Parallel.className options].
Proof.
  unfold page_canvas, Parallel.new_canvas.
  destruct (getPage pdf p); [done|]. destruct (valid_token _); [|done].
  by intros [= <-].
Qed.

(** C10: whatever the order in which the page tasks settle, the container
    is untouched while [Promise.all] is pending; when it resolves, every
    task has returned and the canvases appended are those of pages
    1..numPages in ascending order; when a task fails nothing is appended.
    It does resolve once every task has returned.  The clean-up that
    follows the append takes the first loader away: all the canvases stay,
    in their order, behind what the container held, unless the canvases
    are themselves of class [pdf-loader] and the container held no loader,
    in which case the canvas of the first page is the loader that goes and
    those of the pages after it stay in their order. *)
Theorem C10_canvases_in_page_order tokenError options pdf c0 evs s :
  Parallel.run tokenError options pdf (Parallel.start pdf c0) evs = Some s →
  match Parallel.all s with
  | Parallel.Pending => Parallel.container s = c0
  | Parallel.Resolved canvases =>
      Parallel.tasks s = Parallel.Returned <$> canvases
      ∧ Parallel.container s = removeLoader (c0 ++ (CanvasEl <$> canvases))
      ∧ cv_page <$> canvases = seq 1 (numPages pdf)
      ∧ (∀ i cv, canvases !! i = Some cv →
           page_canvas tokenError options pdf (i + 1) = Some cv)
      ∧ Parallel.container s = removeLoader (Parallel.appended canvases c0)
      ∧ (Exists (λ n, is_loader n = true) c0
         ∨ Parallel.className options ≠ "pdf-loader" →
         Parallel.container s = removeLoader c0 ++ (CanvasEl <$> canvases))
      ∧ (Forall (λ n, is_loader n = false) c0 →
         Parallel.className options = "pdf-loader" →
         Parallel.container s = c0 ++ (CanvasEl <$> drop 1 canvases))
  | Parallel.Rejected _ => Parallel.container s = removeLoader c0
  end
  ∧ ((∀ i, (i < numPages pdf)%nat →
        ∃ cv, Parallel.tasks s !! i = Some (Parallel.Returned cv)) →
     ∃ canvases, Parallel.all s = Parallel.Resolved canvases).
Proof.
  intros Hrun.
  destruct (inv_run tokenError options pdf c0 evs _ _ Hrun (inv_start tokenError options pdf c0))
    as [Hval Hrem Hcv Hall Hlen].
  split.
  - destruct (Parallel.all s) as [|canvases|e].
    + by destruct Hall.
    + destruct Hall as (Hzero & -> & Hcont).
      rewrite Hrem in Hzero. apply all_returned in Hzero.
      rewrite Hval. split; [done|]. split; [by rewrite <-Hval|].
      assert (∀ i cv,
        Parallel.filled (slot <$> Parallel.tasks s) !! i = Some cv →
        page_canvas tokenError options pdf (i + 1) = Some cv) as Hpage.
      { intros i cv Hi. apply Hcv. right.
        by rewrite Hzero, list_lookup_fmap, Hi. }
      rewrite <-Hval in Hpage |- *.
      set (canvases := Parallel.filled (Parallel.values s)) in *.
      assert (∀ cv, cv ∈ canvases →
                cv_classList cv = [Parallel.className options]) as Hclass.
      { intros cv [i Hi]%list_elem_of_lookup.
        by destruct (page_canvas_Some _ _ _ _ _ (Hpage i cv Hi)). }
      split_and!; [|done|done| |].
      * apply list_eq_same_length with (numPages pdf).
        -- by rewrite length_seq.
        -- rewrite length_fmap, <-Hlen. apply (f_equal length) in Hzero.
           rewrite length_fmap in Hzero. unfold canvases. by rewrite Hval.
        -- intros i x y Hi Hx [-> _]%lookup_seq.
           rewrite list_lookup_fmap in Hx.
           destruct (canvases !! i) as [cv|] eqn:Hcvi; [|done].
           simpl in Hx. injection Hx as <-. apply Hpage in Hcvi.
           destruct (page_canvas_Some _ _ _ _ _ Hcvi) as [-> _]. lia.
      * rewrite Hcont. unfold Parallel.on_all_resolved, Parallel.appended.
        intros [Hloader|Hname]; [by apply removeLoader_app_l|].
        apply removeLoader_app_r, Forall_fmap, Forall_forall.
        intros cv Hcv'. simpl. rewrite (Hclass cv Hcv').
        unfold classList_contains. apply bool_decide_eq_false_2.
        intros Heq%list_elem_of_singleton. by apply Hname.
      * rewrite Hcont. unfold Parallel.on_all_resolved, Parallel.appended.
        intros Hnone Hname.
        destruct canvases as [|cv rest] eqn:Hcanvases.
        { simpl. rewrite (right_id_L [] (++)). by apply removeLoader_none. }
        rewrite fmap_cons, removeLoader_first; [done|done|].
        simpl. rewrite (Hclass cv) by left. rewrite Hname.
        unfold classList_contains. apply bool_decide_eq_true_2. left.
    + by destruct Hall.
  - intros Hreturned. destruct (Parallel.all s) as [|canvases|e].
    + destruct Hall as [_ Hpos]. exfalso. apply Hpos. rewrite Hrem.
      unfold outstanding.
      destruct (filter _ _) as [|t rest] eqn:Hfilter; [done|].
      assert (t ∈ filter (λ t, slot t = None) (Parallel.tasks s)) as Hin
        by (rewrite Hfilter; left).
      apply list_elem_of_filter in Hin as [Hnone Hin].
      apply list_elem_of_lookup in Hin as [i Hi].
      destruct (Hreturned i) as [cv Hcvi];
        [rewrite <-Hlen; by eapply lookup_lt_Some|].
      rewrite Hi in Hcvi. by injection Hcvi as ->.
    + by eexists.
    + destruct Hall as (_ & i & e' & Hi).
      destruct (Hreturned i) as [cv Hcvi]; [|congruence].
      rewrite <-Hlen. by eapply lookup_lt_Some.
Qed.

Lemma C10_canvases_in_page_order_witness :
  ∃ canvases,
    Parallel.all after_backwards = Parallel.Resolved canvases
    ∧ Parallel.container after_backwards = CanvasEl <$> canvases
    ∧ cv_page <$> canvases = [1; 2; 3; 4; 5]%nat.
Proof.
  pose proof (C10_canvases_in_page_order refused no_options five_pages
                [Div ["pdf-loader"] ""] backwards after_backwards
                ltac:(vm_compute; reflexivity)) as [Horder _].
  destruct (Parallel.all after_backwards) as [|canvases|e] eqn:Hall;
    [vm_compute in Hall; discriminate| |vm_compute in Hall; discriminate].
  exists canvases. destruct Horder as (_ & Hcont & Hpages & _).
  split; [reflexivity|]. split; [exact Hcont|exact Hpages].
Defined.

(** * More facts *)

(** ** Validation and set-up of the lazy renderer *)

Lemma lazy_validate_ok fetch options src w data w' :
  Lazy.toArrayBufferWithSize fetch options src w = (inr data, w') →
  consistent src →
  Lazy.minBytes options ≤ byteLength data
  ∧ calls w' = calls w ++ validation_calls src.
Proof.
  unfold Lazy.toArrayBufferWithSize. io.
  destruct src as [url|b|a|v|]; simpl; intros Hload Hsrc.
  - destruct (fetch url) as [e|res]; [done|].
    destruct (res_ok res); simpl in Hload; [|done].
    destruct (res_content_length res) as [len|]; simpl in Hload;
      [destruct (_ && _); simpl in Hload; [done|]|];
      (destruct (res_arrayBuffer res) as [e|body]; [done|];
       case_bool_decide; [done|]; injection Hload as <- <-; simpl;
       rewrite <-(assoc_L (++)); split; [lia|done]).
  - case_bool_decide as Hsize; [done|].
    destruct (blob_arrayBuffer b) as [e|body] eqn:Hbody; [done|].
    injection Hload as <- <-. simpl. rewrite (Hsrc body) by done.
    split; [lia|done].
  - case_bool_decide; [done|]. injection Hload as <- <-.
    rewrite (right_id_L [] (++)). split; [lia|done].
  - case_bool_decide as Hsize; [done|]. injection Hload as <- <-.
    rewrite (right_id_L [] (++)). split; [|done].
    unfold nullish, view_wf, byteLength in *. lia.
  - done.
Qed.

(** X1: when the validation of the lazy renderer accepts a source whose
    parts agree, the bytes it hands back are at least [minBytes] long (for
    a view these are the bytes of the whole buffer, which holds the
    window); validation leaves the container alone, and the calls it has
    made are those of the kind of source and no other. *)
Theorem X1_validated_data_reaches_minimum fetch options src w data w' :
  Lazy.toArrayBufferWithSize fetch options src w = (inr data, w') →
  consistent src →
  Lazy.minBytes options ≤ byteLength data
  ∧ dom w' = dom w
  ∧ calls w' = calls w ++ validation_calls src.
Proof.
  intros Hload Hsrc.
  destruct (lazy_validate_ok _ _ _ _ _ _ Hload Hsrc) as [? ?].
  split_and!; [done| |done]. by eapply lazy_validate_dom.
Qed.

Lemma X1_validated_data_reaches_minimum_witness :
  Lazy.minBytes four_bytes ≤ byteLength (replicate 8 Byte.x00).
Proof.
  destruct (X1_validated_data_reaches_minimum (λ _, inl (mkError None))
              four_bytes (SrcView window) {| dom := []; calls := [] |}
              (replicate 8 Byte.x00) {| dom := []; calls := [] |})
    as (Hmin & _ & _).
  - reflexivity.
  - unfold consistent, view_wf. simpl. lia.
  - exact Hmin.
Defined.

(** Validation opens no document. *)
Lemma lazy_validate_calls fetch options src w r w' :
  Lazy.toArrayBufferWithSize fetch options src w = (r, w') →
  ∃ made, calls w' = calls w ++ made ∧ Forall (λ c, opens c = false) made.
Proof.
  unfold Lazy.toArrayBufferWithSize. io. intros H.
  repeat (match goal with
          | H : context [match ?x with _ => _ end] |- _ => destruct x eqn:?
          | H : context [if ?x then _ else _] |- _ => destruct x eqn:?
          end; simpl in H); simplify_eq; simpl;
    rewrite <-?(assoc_L (++)); simpl;
    first [ exists []; rewrite (right_id_L [] (++)); split;
              [done|constructor]
          | eexists; split; [reflexivity|]; by repeat constructor ].
Qed.

Lemma filter_opens_validation (made : list Call) :
  Forall (λ c, opens c = false) made →
  filter (λ c, opens c = true) made = [].
Proof.
  induction 1 as [|c rest Hc _ IH]; [done|].
  rewrite filter_cons_False; [done|]. by rewrite Hc.
Qed.

(** X2: [renderPDFLazy] opens at most one document, and only bytes that
    passed validation: every [getDocument] call it makes is on the data
    validation returned, which is at least [minBytes] long. *)
Theorem X2_only_validated_data_is_opened
    fetch getDocument observer options src container :
  consistent src →
  let w := (Lazy.renderPDFLazy fetch getDocument observer options
              src container).2 in
  (∀ data, GetDocument data ∈ calls w →
     Lazy.minBytes options ≤ byteLength data
     ∧ ∃ w1, Lazy.toArrayBufferWithSize fetch options src
               {| dom := container; calls := [] |} = (inr data, w1))
  ∧ (length (filter (λ c, opens c = true) (calls w)) ≤ 1)%nat.
Proof.
  intros Hsrc. unfold Lazy.renderPDFLazy, Lazy.main. io.
  destruct (Lazy.toArrayBufferWithSize _ _ _ _) as [[e|data] w1] eqn:Hload.
  - destruct (lazy_validate_calls _ _ _ _ _ _ Hload) as (made & Hcalls & Hmade).
    simpl in *. rewrite Hcalls. split.
    + intros data Hin. exfalso.
      rewrite Forall_forall in Hmade. by apply Hmade in Hin.
    + rewrite filter_opens_validation by done. simpl. lia.
  - destruct (lazy_validate_calls _ _ _ _ _ _ Hload) as (made & Hcalls & Hmade).
    destruct (lazy_validate_ok _ _ _ _ _ _ Hload Hsrc) as [Hmin _].
    simpl in Hcalls.
    assert (∀ extra,
      Forall (λ c, opens c = false) extra →
      (∀ data', GetDocument data' ∈ (calls w1 ++ [GetDocument data]) ++ extra →
         Lazy.minBytes options ≤ byteLength data'
         ∧ ∃ w2, Lazy.toArrayBufferWithSize fetch options src
                   {| dom := container; calls := [] |} = (inr data', w2))
      ∧ (length (filter (λ c, opens c = true)
                   ((calls w1 ++ [GetDocument data]) ++ extra)) ≤ 1)%nat)
      as Hgen.
    { intros extra Hextra. rewrite Hcalls. split.
      - intros data' [[Hin|Hin%list_elem_of_singleton]%elem_of_app|Hin]%elem_of_app.
        + rewrite Forall_forall in Hmade. by apply Hmade in Hin.
        + injection Hin as ->. split; [done|]. by exists w1.
        + rewrite Forall_forall in Hextra. by apply Hextra in Hin.
      - rewrite !filter_app, (filter_opens_validation made),
          (filter_opens_validation extra) by done.
        rewrite filter_cons_True by done. simpl. lia. }
    rewrite Hload in Hgen.
    destruct (getDocument data) as [e|pdf]; simpl.
    { specialize (Hgen [] ltac:(constructor)).
      by rewrite (right_id_L [] (++)) in Hgen. }
    destruct (getPage pdf 1) as [e|firstPage]; simpl.
    { apply (Hgen [GetPage 1%nat]). by repeat constructor. }
    specialize (Hgen [GetPage 1%nat; NewObserver (Lazy.rootMargin options)]
                  ltac:(by repeat constructor)).
    change [GetPage 1%nat; NewObserver (Lazy.rootMargin options)]
      with ([GetPage 1%nat] ++ [NewObserver (Lazy.rootMargin options)])
      in Hgen.
    rewrite (assoc_L (++)) in Hgen.
    by destruct (observer _) as [e|].
Qed.

Lemma X2_only_validated_data_is_opened_witness :
  GetDocument (replicate 8 Byte.x00)
  ∈ calls (Lazy.renderPDFLazy (λ _, inl (mkError None))
             (λ _, inr five_pages) (λ _, None) four_bytes
             (SrcView window) []).2
  ∧ Lazy.minBytes four_bytes ≤ byteLength (replicate 8 Byte.x00).
Proof.
  assert (GetDocument (replicate 8 Byte.x00)
          ∈ calls (Lazy.renderPDFLazy (λ _, inl (mkError None))
                     (λ _, inr five_pages) (λ _, None) four_bytes
                     (SrcView window) []).2) as Hin.
  { vm_compute. left. }
  split; [exact Hin|].
  destruct (X2_only_validated_data_is_opened (λ _, inl (mkError None))
              (λ _, inr five_pages) (λ _, None) four_bytes
              (SrcView window) []) as [Hopen _].
  - unfold consistent, view_wf. simpl. lia.
  - destruct (Hopen (replicate 8 Byte.x00) Hin) as [Hmin _]. exact Hmin.
Defined.

(** ** Loading indicators *)

Lemma loaders_app c1 c2 : loaders (c1 ++ c2) = (loaders c1 + loaders c2)%nat.
Proof. unfold loaders. by rewrite sum_list_with_app. Qed.

Lemma without_loaders_app c1 c2 :
  without_loaders (c1 ++ c2) = without_loaders c1 ++ without_loaders c2.
Proof. unfold without_loaders. by rewrite filter_app. Qed.

(** A child is or holds a loader when it counts at least one. *)
Lemma loader_elements_is_loader n :
  is_loader n = false ↔ loader_elements n = 0%nat.
Proof.
  destruct n as [cl t|h|cv]; simpl.
  - by destruct (classList_contains _ _).
  - destruct (classList_contains _ _); simpl; [done|].
    induction (content h) as [|c rest IH]; simpl; [done|].
    destruct (child_is_loader c) eqn:Hc; simpl.
    + by rewrite filter_cons_True.
    + by rewrite filter_cons_False by (by rewrite Hc).
  - by destruct (classList_contains _ _).
Qed.

Lemma loaders_none c :
  Forall (λ n, is_loader n = false) c ↔ loaders c = 0%nat.
Proof.
  unfold loaders. induction c as [|n rest IH]; simpl.
  - split; [done|constructor].
  - rewrite Forall_cons, IH, loader_elements_is_loader. lia.
Qed.

Lemma loaders_placeholders n ratio : loaders (Lazy.placeholders n ratio) = 0%nat.
Proof. apply loaders_none, placeholders_no_loader. Qed.

Lemma remove_child_loader_length content :
  existsb child_is_loader content = true →
  S (length (filter (λ c, child_is_loader c = true)
               (remove_child_loader content)))
  = length (filter (λ c, child_is_loader c = true) content).
Proof.
  induction content as [|c rest IH]; simpl; [done|].
  destruct (child_is_loader c) eqn:Hc; simpl.
  - by rewrite filter_cons_True.
  - intros Hrest. rewrite !filter_cons_False by (by rewrite Hc). by apply IH.
Qed.

(** [loader.remove()] takes one loader away, and with it the loaders it
    holds. *)
Lemma loaders_without_loader n :
  is_loader n = true →
  (loaders (without_loader n) < loader_elements n)%nat
  ∧ (no_loader_holder n → loaders (without_loader n) = pred (loader_elements n)).
Proof.
  destruct n as [cl t|h|cv]; unfold loaders; simpl.
  - intros ->. split; [lia|done].
  - destruct (classList_contains "pdf-loader" (holder_classList h))
      eqn:Hclass; simpl.
    + intros _. split; [lia|done].
    + intros Hcontent. rewrite Hclass. simpl. split; [|congruence].
      pose proof (remove_child_loader_length _ Hcontent). lia.
  - intros ->. split; [lia|done].
Qed.

Lemma loaders_removeLoader_le container :
  (loaders (removeLoader container) ≤ pred (loaders container))%nat.
Proof.
  induction container as [|n rest IH]; [done|]. simpl.
  destruct (is_loader n) eqn:Hn.
  - rewrite loaders_app. destruct (loaders_without_loader n Hn) as [Hlt _].
    unfold loaders at 3. simpl. fold (loaders rest). lia.
  - apply loader_elements_is_loader in Hn.
    unfold loaders in *. simpl. rewrite Hn. simpl. done.
Qed.

Lemma loaders_removeLoader container :
  Forall no_loader_holder container →
  loaders (removeLoader container) = pred (loaders container).
Proof.
  induction 1 as [|n rest Hholder _ IH]; [done|]. simpl.
  destruct (is_loader n) eqn:Hn.
  - rewrite loaders_app. destruct (loaders_without_loader n Hn) as [Hlt Heq].
    rewrite (Heq Hholder).
    unfold loaders at 2. simpl. fold (loaders rest). lia.
  - apply loader_elements_is_loader in Hn.
    unfold loaders in *. simpl. rewrite Hn. simpl. done.
Qed.

(** The children that neither are nor hold a loader stay, in their
    order; a holder that held the one loader removed joins them. *)
Lemma without_loaders_removeLoader container :
  without_loaders container `sublist_of` without_loaders (removeLoader container).
Proof.
  unfold without_loaders. induction container as [|n rest IH]; [done|]. simpl.
  destruct (is_loader n) eqn:Hn.
  - rewrite filter_cons_False by (by rewrite Hn). rewrite filter_app.
    by apply sublist_inserts_l.
  - rewrite !filter_cons_True by done. by apply sublist_skip.
Qed.

Lemma without_loaders_removeLoader_eq container :
  Forall no_loader_holder container →
  without_loaders (removeLoader container) = without_loaders container.
Proof.
  unfold without_loaders. induction 1 as [|n rest Hholder _ IH]; [done|]. simpl.
  destruct (is_loader n) eqn:Hn.
  - rewrite filter_cons_False by (by rewrite Hn).
    destruct n as [cl t|h|cv]; simpl in *; [done| |done]. congruence.
  - rewrite !filter_cons_True by done. by rewrite IH.
Qed.

(** X3: whatever the outcome, [renderPDFLazy] removes a loader from the
    container: when set-up fails before the placeholders are in, once, at
    the end; when the placeholders are in, twice, after their insertion
    and at the end, whether the observer can be built or not.  The
    container ends as what it held, less the first loader or the first
    two, followed by what was appended.  Where no holder is or holds a loader
    the count of loaders goes down by exactly one, or two; a container with
    at most one loader is left with none; and the children that neither
    are nor hold a loader stay, in their order. *)
Theorem X3_loader_removed_whatever_the_outcome
    fetch getDocument observer options src container :
  let w := (Lazy.renderPDFLazy fetch getDocument observer options
              src container).2 in
  match placeholders_inserted fetch getDocument options src container with
  | Some pdf =>
      (∃ ratio tail,
         dom w = removeLoader (removeLoader container)
                 ++ Lazy.placeholders (numPages pdf) ratio ++ tail
         ∧ (tail = [] ∨ ∃ text, tail = [Div ["pdf-error"] text]))
      ∧ loaders (dom w) = loaders (removeLoader (removeLoader container))
      ∧ (Forall no_loader_holder container →
         loaders (dom w) = (loaders container - 2)%nat)
  | None =>
      (∃ text, dom w = removeLoader container ++ [Div ["pdf-error"] text])
      ∧ loaders (dom w) = loaders (removeLoader container)
      ∧ (Forall no_loader_holder container →
         loaders (dom w) = (loaders container - 1)%nat)
  end
  ∧ ((loaders container ≤ 1)%nat → loaders (dom w) = 0%nat)
  ∧ without_loaders container `sublist_of` without_loaders (dom w).
Proof.
  assert (∀ text, loaders [Div ["pdf-error"] text] = 0%nat
                  ∧ without_loaders [Div ["pdf-error"] text]
                    = [Div ["pdf-error"] text]) as Herror by done.
  assert (∀ text,
    loaders (removeLoader container ++ [Div ["pdf-error"] text])
    = loaders (removeLoader container)
    ∧ (Forall no_loader_holder container →
       loaders (removeLoader container ++ [Div ["pdf-error"] text])
       = (loaders container - 1)%nat)
    ∧ ((loaders container ≤ 1)%nat →
       loaders (removeLoader container ++ [Div ["pdf-error"] text]) = 0%nat)
    ∧ without_loaders container
      `sublist_of` without_loaders
                     (removeLoader container ++ [Div ["pdf-error"] text]))
    as Hearly.
  { intros text. destruct (Herror text) as [Hzero Hkeep].
    rewrite loaders_app, without_loaders_app, Hzero, Hkeep.
    pose proof (loaders_removeLoader_le container).
    split_and!; [lia| |lia|].
    - intros Hholders. rewrite loaders_removeLoader by done. lia.
    - apply sublist_inserts_r, without_loaders_removeLoader. }
  assert (∀ n ratio tail,
    tail = [] ∨ (∃ text, tail = [Div ["pdf-error"] text]) →
    loaders (removeLoader (removeLoader container)
             ++ Lazy.placeholders n ratio ++ tail)
    = loaders (removeLoader (removeLoader container))
    ∧ (Forall no_loader_holder container →
       loaders (removeLoader (removeLoader container)
                ++ Lazy.placeholders n ratio ++ tail)
       = (loaders container - 2)%nat)
    ∧ ((loaders container ≤ 1)%nat →
       loaders (removeLoader (removeLoader container)
                ++ Lazy.placeholders n ratio ++ tail) = 0%nat)
    ∧ without_loaders container
      `sublist_of` without_loaders
                     (removeLoader (removeLoader container)
                      ++ Lazy.placeholders n ratio ++ tail)) as Hlate.
  { intros n ratio tail Htail.
    assert (loaders tail = 0%nat) as Hzero
      by (destruct Htail as [->|[text ->]]; done).
    rewrite !loaders_app, !without_loaders_app, loaders_placeholders, Hzero.
    pose proof (loaders_removeLoader_le container).
    pose proof (loaders_removeLoader_le (removeLoader container)).
    split_and!; [lia| |lia|].
    - intros Hholders.
      rewrite !loaders_removeLoader
        by (try apply no_loader_holder_removeLoader; done).
      lia.
    - apply sublist_inserts_r. etrans; apply without_loaders_removeLoader. }
  unfold placeholders_inserted, Lazy.renderPDFLazy, Lazy.main, Lazy.on_fatal,
    mbind, IO_bind, await, modify_dom, mret, IO_ret.
  destruct (Lazy.toArrayBufferWithSize _ _ _ _) as [[e|data] w1] eqn:Hload;
    apply lazy_validate_dom in Hload as Hdom; simpl in Hdom; simpl.
  { rewrite Hdom, removeLoader_snoc by done.
    destruct (Hearly (or_else (message e) "Failed to load PDF."))
      as (? & ? & ? & ?).
    split_and!; [by eexists|done..]. }
  destruct (getDocument data) as [e|pdf]; simpl.
  { rewrite Hdom, removeLoader_snoc by done.
    destruct (Hearly (or_else (message e) "Failed to load PDF."))
      as (? & ? & ? & ?).
    split_and!; [by eexists|done..]. }
  destruct (getPage pdf 1) as [e|firstPage]; simpl.
  { rewrite Hdom, removeLoader_snoc by done.
    destruct (Hearly (or_else (message e) "Failed to load PDF."))
      as (? & ? & ? & ?).
    split_and!; [by eexists|done..]. }
  rewrite Hdom.
  destruct (observer _) as [e|]; simpl.
  - rewrite removeLoader_snoc by done.
    rewrite removeLoader_placeholders, <-(assoc_L (++)).
    destruct (Hlate (numPages pdf)
                (vp_height (getViewport firstPage (Lazy.scale options))
                 / vp_width (getViewport firstPage (Lazy.scale options)))%Qc
                [Div ["pdf-error"] (or_else (message e) "Failed to load PDF.")])
      as (? & ? & ? & ?); [right; by eexists|].
    split_and!; [|done..]. eexists _, _. split; [done|]. right. by eexists.
  - rewrite removeLoader_placeholders.
    destruct (Hlate (numPages pdf)
                (vp_height (getViewport firstPage (Lazy.scale options))
                 / vp_width (getViewport firstPage (Lazy.scale options)))%Qc
                []) as (? & ? & ? & ?); [by left|].
    rewrite (right_id_L [] (++)) in *.
    split_and!; [|done..]. eexists _, []. rewrite (right_id_L [] (++)).
    split; [done|]. by left.
Qed.

(** X4: when validation, the document and its first page are fine but the
    observer cannot be built, [renderPDFLazy] resolves to [undefined]
    although the placeholders of all pages are in the container already:
    they stay there, loader removed, followed by the error message, and
    the construction of the observer is the last call made.  The holders
    of the container are then those it had (less one that was the loader
    removed) and those of pages 1..numPages. *)
Theorem X4_observer_failure_leaves_placeholders
    fetch getDocument observer options src container data w1 pdf firstPage e :
  Lazy.toArrayBufferWithSize fetch options src
    {| dom := container; calls := [] |} = (inr data, w1) →
  getDocument data = inr pdf →
  getPage pdf 1 = inr firstPage →
  observer (Lazy.rootMargin options) = Some e →
  let ratio :=
    (vp_height (getViewport firstPage (Lazy.scale options))
     / vp_width (getViewport firstPage (Lazy.scale options)))%Qc in
  let '(resolved, w) :=
    Lazy.renderPDFLazy fetch getDocument observer options src container in
  resolved = Lazy.Undefined
  ∧ dom w = removeLoader (removeLoader
              (container ++ Lazy.placeholders (numPages pdf) ratio))
            ++ [Div ["pdf-error"] (or_else (message e) "Failed to load PDF.")]
  ∧ dom w = removeLoader (removeLoader container)
            ++ Lazy.placeholders (numPages pdf) ratio
            ++ [Div ["pdf-error"] (or_else (message e) "Failed to load PDF.")]
  ∧ holder_pages (dom w)
    = holder_pages (removeLoader (removeLoader container))
      ++ seq 1 (numPages pdf)
  ∧ (Forall no_loader_holder container →
     holder_pages (dom w) = holder_pages container ++ seq 1 (numPages pdf))
  ∧ last (calls w) = Some (NewObserver (Lazy.rootMargin options)).
Proof.
  intros Hload Hopen Hpage Hobs ratio.
  apply lazy_validate_dom in Hload as Hdom. simpl in Hdom.
  unfold Lazy.renderPDFLazy, Lazy.main, Lazy.on_fatal. io.
  rewrite Hload. simpl. rewrite Hopen. simpl. rewrite Hpage. simpl.
  rewrite Hobs. simpl. rewrite Hdom.
  split; [done|]. rewrite removeLoader_snoc by done. split; [done|].
  rewrite removeLoader_placeholders, <-(assoc_L (++)).
  assert (∀ c r text,
            holder_pages (c ++ Lazy.placeholders (numPages pdf) r
                          ++ [Div ["pdf-error"] text])
            = holder_pages c ++ seq 1 (numPages pdf)) as Hholders.
  { intros c r text. rewrite !holder_pages_app, holder_pages_placeholders.
    simpl. by rewrite (right_id_L [] (++)). }
  split_and!; [done|apply Hholders| |by rewrite last_snoc].
  intros Hnone. rewrite Hholders.
  rewrite !holder_pages_removeLoader
    by (try apply no_loader_holder_removeLoader; done).
  done.
Qed.

Lemma X4_observer_failure_leaves_placeholders_witness :
  holder_pages
    (dom (Lazy.renderPDFLazy (λ _, inl (mkError None)) (λ _, inr five_pages)
            (λ _, Some (new_Error "bad margin")) four_bytes
            (SrcView window) [Div ["pdf-loader"] ""]).2)
  = [1; 2; 3; 4; 5]%nat.
Proof.
  pose proof (X4_observer_failure_leaves_placeholders
                (λ _, inl (mkError None)) (λ _, inr five_pages)
                (λ _, Some (new_Error "bad margin")) four_bytes
                (SrcView window) [Div ["pdf-loader"] ""]
                (replicate 8 Byte.x00)
                {| dom := [Div ["pdf-loader"] ""]; calls := [] |}
                five_pages upright (new_Error "bad margin")
                eq_refl eq_refl eq_refl eq_refl) as H.
  cbv zeta in H.
  destruct (Lazy.renderPDFLazy _ _ _ _ _ _) as [resolved w].
  destruct H as (_ & _ & _ & Hpages & _). exact Hpages.
Defined.

(** ** The content-length hint in the two validations *)

Lemma lazy_measures_body fetch options url res len body w :
  fetch url = inr res →
  res_ok res = true →
  res_content_length res = Some len →
  Lazy.minBytes options ≤ len →
  res_arrayBuffer res = inr body →
  byteLength body < Lazy.minBytes options →
  Lazy.toArrayBufferWithSize fetch options (SrcString url) w
  = (inl (too_small (byteLength body) (Lazy.minBytes options)),
     {| dom := dom w; calls := calls w ++ [Fetch url; ReadBody url] |}).
Proof.
  intros Hfetch Hok Hlen Hhint Hbody Hshort.
  unfold Lazy.toArrayBufferWithSize. io. rewrite Hfetch, Hok, Hlen. simpl.
  rewrite (bool_decide_eq_false_2 (len < _)) by lia.
  rewrite andb_false_r, Hbody. simpl.
  rewrite bool_decide_eq_true_2 by done.
  by rewrite <-(assoc_L (++)).
Qed.

Lemma preview_trusts_hint fetch options url res len body w :
  fetch url = inr res →
  res_ok res = true →
  res_content_length res = Some len →
  0 < len →
  Preview.minBytes options ≤ len →
  res_arrayBuffer res = inr body →
  Preview.toArrayBufferWithSize fetch options (SrcString url) w
  = (inr {| Preview.buf := body; Preview.size := byteLength body |},
     {| dom := removeLoader (dom w);
        calls := calls w ++ [Fetch url; ReadBody url] |}).
Proof.
  intros Hfetch Hok Hlen Hpos Hhint Hbody.
  unfold Preview.toArrayBufferWithSize. io.
  rewrite Hfetch, Hok, Hlen. simpl.
  rewrite bool_decide_eq_true_2 by done.
  rewrite bool_decide_eq_false_2 by lia.
  rewrite Hbody. simpl. by rewrite <-(assoc_L (++)).
Qed.

(** The calls of the page loop come after those made before it. *)
Lemma preview_render_pages_calls
    tokenError render options pdf pageNums w r w' :
  Preview.render_pages render tokenError options pdf pageNums w = (r, w') →
  calls w `prefix_of` calls w'.
Proof.
  revert w. induction pageNums as [|p rest IH]; intros w; simpl; io.
  - by intros [= _ <-].
  - destruct (getPage pdf p) as [e|page]; simpl.
    { intros [= _ <-]. by apply prefix_app_r. }
    destruct (Preview.new_canvas _ _ _ _) as [e|canvas]; simpl.
    { intros [= _ <-]. by apply prefix_app_r. }
    destruct (render p) as [e|]; simpl.
    { intros [= _ <-]. simpl. rewrite <-(assoc_L (++)). by apply prefix_app_r. }
    intros Hrest%IH. simpl in Hrest. etrans; [|exact Hrest].
    rewrite <-(assoc_L (++)). by apply prefix_app_r.
Qed.

(** X5: a response that announces at least [minBytes] bytes and delivers
    fewer.  The lazy renderer measures the body, rejects it as too small
    and opens no document; the sequential renderer of [pdf-preview.js]
    trusts the header, returns the short body and hands it to
    [getDocument]. *)
Theorem X5_sequential_renderer_trusts_header tokenError
    fetch getDocument render options url res len body :
  fetch url = inr res →
  res_ok res = true →
  res_content_length res = Some len →
  Lazy.minBytes options ≤ len →
  res_arrayBuffer res = inr body →
  byteLength body < Lazy.minBytes options →
  (∀ w,
     Lazy.toArrayBufferWithSize fetch options (SrcString url) w
     = (inl (too_small (byteLength body) (Lazy.minBytes options)),
        {| dom := dom w; calls := calls w ++ [Fetch url; ReadBody url] |})
     ∧ Preview.toArrayBufferWithSize fetch options (SrcString url) w
       = (inr {| Preview.buf := body; Preview.size := byteLength body |},
          {| dom := removeLoader (dom w);
             calls := calls w ++ [Fetch url; ReadBody url] |}))
  ∧ (∀ container,
       GetDocument body
       ∈ calls (Preview.renderPDF fetch getDocument render tokenError options
                  (SrcString url) container))
  ∧ (∀ observer container,
       calls (Lazy.renderPDFLazy fetch getDocument observer options
                (SrcString url) container).2
       = [Fetch url; ReadBody url]).
Proof.
  intros Hfetch Hok Hlen Hhint Hbody Hshort.
  assert (0 ≤ byteLength body) as Hpos by (unfold byteLength; lia).
  assert (0 < len) as Hlenpos by lia.
  split_and!.
  - intros w. split; [by eapply lazy_measures_body|].
    by eapply preview_trusts_hint.
  - intros container. unfold Preview.renderPDF, Preview.main. io.
    erewrite preview_trusts_hint by done. simpl.
    destruct (getDocument body) as [e|pdf]; simpl.
    { by repeat constructor. }
    destruct (Preview.render_pages _ _ _ _ _) as [[e|[]] w1] eqn:Hpages;
      apply preview_render_pages_calls in Hpages as [more Hmore];
      simpl in *; rewrite Hmore; by repeat constructor.
  - intros observer container.
    unfold Lazy.renderPDFLazy, Lazy.main, mbind, IO_bind.
    by erewrite lazy_measures_body.
Qed.

Lemma X5_sequential_renderer_trusts_header_witness :
  GetDocument [Byte.x25; Byte.x50]
  ∈ calls (Preview.renderPDF
             (λ _, inr {| res_ok := true; res_status := 200;
                          res_content_length := Some 9000;
                          res_arrayBuffer := inr [Byte.x25; Byte.x50] |})
             (λ _, inl (new_Error "Invalid PDF structure."))
             (λ _, None) refused no_options (SrcString "a.pdf") []).
Proof.
  destruct (X5_sequential_renderer_trusts_header refused
              (λ _, inr {| res_ok := true; res_status := 200;
                           res_content_length := Some 9000;
                           res_arrayBuffer := inr [Byte.x25; Byte.x50] |})
              (λ _, inl (new_Error "Invalid PDF structure."))
              (λ _, None) no_options "a.pdf"
              {| res_ok := true; res_status := 200;
                 res_content_length := Some 9000;
                 res_arrayBuffer := inr [Byte.x25; Byte.x50] |}
              9000 [Byte.x25; Byte.x50])
    as (_ & Hopened & _); try reflexivity.
  - vm_compute. discriminate.
  - exact (Hopened []).
Defined.


(** ** A URL that cannot be fetched *)

(** X21: a URL that cannot be fetched.  When [fetch] rejects, or answers
    with a status that is not ok, the lazy and the sequential renderer
    make no call but [fetch], open no document, and end with the same
    container: the loader gone and one [pdf-error] message appended, the
    message of the rejection (or the fallback text) in the first case and
    the HTTP status in the second. *)
Theorem X21_fetch_failure_is_shown tokenError
    fetch getDocument observer render options url container :
  let lazy_result :=
    (Lazy.renderPDFLazy fetch getDocument observer options
       (SrcString url) container) in
  let preview_result :=
    Preview.renderPDF fetch getDocument render tokenError options
      (SrcString url) container in
  match fetch url with
  | inl e =>
      lazy_result.1 = Lazy.Undefined
      ∧ dom lazy_result.2
        = removeLoader container
          ++ [Div ["pdf-error"] (or_else (message e) "Failed to load PDF.")]
      ∧ dom preview_result = dom lazy_result.2
      ∧ calls lazy_result.2 = [Fetch url] ∧ calls preview_result = [Fetch url]
  | inr res =>
      res_ok res = false →
      lazy_result.1 = Lazy.Undefined
      ∧ dom lazy_result.2
        = removeLoader container
          ++ [Div ["pdf-error"]
                ("Failed to fetch PDF (HTTP " +:+ pretty (res_status res)
                 +:+ ")")]
      ∧ dom preview_result = dom lazy_result.2
      ∧ calls lazy_result.2 = [Fetch url] ∧ calls preview_result = [Fetch url]
  end.
Proof.
  unfold Lazy.renderPDFLazy, Lazy.main, Preview.renderPDF, Preview.main,
    Lazy.toArrayBufferWithSize, Preview.toArrayBufferWithSize,
    Lazy.on_fatal. io.
  destruct (fetch url) as [e|res]; simpl.
  - rewrite removeLoader_snoc by done. by split_and!.
  - intros ->. simpl. rewrite removeLoader_snoc by done. by split_and!.
Qed.

Lemma X21_fetch_failure_is_shown_witness :
  dom (Preview.renderPDF
         (λ _, inr {| res_ok := false; res_status := 404;
                      res_content_length := Some 0;
                      res_arrayBuffer := inr [] |})
         (λ _, inl (mkError None)) (λ _, None) refused no_options
         (SrcString "a.pdf") [Div ["pdf-loader"] ""])
  = [Div ["pdf-error"] "Failed to fetch PDF (HTTP 404)"].
Proof.
  pose proof (X21_fetch_failure_is_shown refused
                (λ _, inr {| res_ok := false; res_status := 404;
                             res_content_length := Some 0;
                             res_arrayBuffer := inr [] |})
                (λ _, inl (mkError None)) (λ _, None) (λ _, None) no_options
                "a.pdf" [Div ["pdf-loader"] ""]) as H.
  destruct (H eq_refl) as (_ & Hlazy & Hpreview & _).
  rewrite Hpreview, Hlazy. vm_compute. reflexivity.
Defined.

(** ** The sequential renderer *)

(** What the page loop has done when it stops. *)
Lemma render_pages_stops tokenError render options pdf pageNums w :
  let '(r, w') :=
    Preview.render_pages render tokenError options pdf pageNums w in
  ∃ painted canvases,
    sheet tokenError options pdf <$> painted = Some <$> canvases
    ∧ Forall (λ p, page_error tokenError options pdf render p = None) painted
    ∧ dom w' = dom w ++ (CanvasEl <$> canvases)
    ∧ match r with
      | inr _ =>
          painted = pageNums
          ∧ calls w'
            = calls w ++ (painted ≫= page_calls tokenError options pdf)
      | inl e =>
          ∃ p rest,
            pageNums = painted ++ p :: rest
            ∧ page_error tokenError options pdf render p = Some e
            ∧ calls w'
              = calls w ++ (painted ≫= page_calls tokenError options pdf)
                ++ page_calls tokenError options pdf p
      end.
Proof.
  revert w. induction pageNums as [|p rest IH]; intros w.
  { exists [], []. simpl. by rewrite !(right_id_L [] (++)). }
  simpl. unfold mbind, IO_bind, await, modify_dom, throw, mret, IO_ret. simpl.
  destruct (getPage pdf p) as [e|page] eqn:Hpage; simpl.
  { exists [], []. simpl. rewrite (right_id_L [] (++)).
    split_and!; [done|done|done|]. exists p, rest.
    unfold page_error, page_calls, sheet_or_error. by rewrite Hpage. }
  destruct (Preview.new_canvas tokenError options p
              (getViewport page (Preview.scale options)))
    as [e|canvas] eqn:Hcanvas; simpl.
  { exists [], []. simpl. rewrite (right_id_L [] (++)).
    split_and!; [done|done|done|]. exists p, rest.
    unfold page_error, page_calls, sheet_or_error.
    by rewrite Hpage, Hcanvas. }
  destruct (render p) as [e|] eqn:Hrender; simpl.
  { exists [], []. simpl. rewrite (right_id_L [] (++)).
    split_and!; [done|done|done|]. exists p, rest.
    unfold page_error, page_calls, sheet_or_error. rewrite Hpage, Hcanvas.
    by rewrite <-(assoc_L (++)). }
  specialize (IH {| dom := dom w ++ [CanvasEl canvas];
                    calls := (calls w ++ [GetPage p]) ++ [Render p] |}).
  destruct (Preview.render_pages _ _ _ _ _ _) as [r w'].
  destruct IH as (painted & canvases & Hsheet & Hok & Hdom & Hr).
  assert (page_calls tokenError options pdf p = [GetPage p; Render p])
    as Hcallsp
    by (unfold page_calls, sheet_or_error; by rewrite Hpage, Hcanvas).
  exists (p :: painted), (canvas :: canvases).
  simpl in Hdom. split_and!.
  - rewrite !fmap_cons, Hsheet. unfold sheet, sheet_or_error.
    by rewrite Hpage, Hcanvas.
  - constructor; [|done]. unfold page_error, sheet_or_error.
    by rewrite Hpage, Hcanvas.
  - by rewrite Hdom, fmap_cons, <-(assoc_L (++)).
  - destruct r as [e|[]].
    + destruct Hr as (q & rest' & -> & Herr & Hcalls).
      exists q, rest'. split_and!; [done|done|].
      rewrite Hcalls, bind_cons, Hcallsp. simpl.
      by rewrite <-!(assoc_L (++)).
    + destruct Hr as [-> Hcalls]. split; [done|].
      rewrite Hcalls, bind_cons, Hcallsp. simpl.
      by rewrite <-!(assoc_L (++)).
Qed.

(** The canvas of a page is of that page and of the configured class
    alone, and there is one only when the class is a token. *)
Lemma sheet_Some tokenError options pdf p cv :
  sheet tokenError options pdf p = Some cv →
  cv_page cv = p ∧ cv_classList cv = [Preview.className options]
  ∧ valid_token (Preview.className options) = true.
Proof.
  unfold sheet, sheet_or_error, Preview.new_canvas.
  destruct (getPage pdf p); [done|].
  destruct (valid_token _); [|done]. by intros [= <-].
Qed.

(** The canvases painted for some pages are canvases of these pages. *)
Lemma sheet_pages tokenError options pdf
    (pages : list nat) (canvases : list Canvas) :
  sheet tokenError options pdf <$> pages = Some <$> canvases →
  cv_page <$> canvases = pages.
Proof.
  revert canvases. induction pages as [|p pages IH]; intros [|cv canvases];
    simpl; try done.
  intros [= Hp Hrest]. apply sheet_Some in Hp as [-> _].
  f_equal. by apply IH.
Qed.

(** X6: the page loop of the sequential renderer paints the pages in the
    order given up to the first page that fails, because [getPage]
    rejects, because the canvas cannot be given its class, or because the
    render is rejected: the canvases of the pages before it are appended
    in that order, the loop throws the error of that page, [page.render]
    is called for it only when the page and its canvas are there, and no
    call is made for a later page; without such a page every page is
    painted.  The canvases are those of the pages painted, in the same
    order.  With a class that is no token no page is painted: the loop
    stops at the first page given, before any render. *)
Theorem X6_pages_painted_until_first_failure
    tokenError render options pdf pageNums w :
  let '(r, w') :=
    Preview.render_pages render tokenError options pdf pageNums w in
  ∃ painted canvases,
    painted `prefix_of` pageNums
    ∧ cv_page <$> canvases = painted
    ∧ sheet tokenError options pdf <$> painted = Some <$> canvases
    ∧ Forall (λ p, page_error tokenError options pdf render p = None) painted
    ∧ dom w' = dom w ++ (CanvasEl <$> canvases)
    ∧ match r with
      | inr _ =>
          painted = pageNums
          ∧ calls w'
            = calls w ++ (painted ≫= page_calls tokenError options pdf)
      | inl e =>
          ∃ p rest,
            pageNums = painted ++ p :: rest
            ∧ page_error tokenError options pdf render p = Some e
            ∧ calls w'
              = calls w ++ (painted ≫= page_calls tokenError options pdf)
                ++ page_calls tokenError options pdf p
      end
    ∧ (valid_token (Preview.className options) = false →
       painted = []
       ∧ dom w' = dom w
       ∧ match pageNums with
         | [] => r = inr () ∧ calls w' = calls w
         | p :: _ =>
             calls w' = calls w ++ [GetPage p]
             ∧ ∃ e, r = inl e
                    ∧ match getPage pdf p with
                      | inr _ => e = tokenError (Preview.className options)
                      | inl e' => e = e'
                      end
         end).
Proof.
  pose proof (render_pages_stops tokenError render options pdf pageNums w)
    as Hstops.
  destruct (Preview.render_pages _ _ _ _ _ _) as [r w'].
  destruct Hstops as (painted & canvases & Hsheet & Hok & Hdom & Hr).
  exists painted, canvases. split_and!; try done.
  - destruct r as [e|[]].
    + destruct Hr as (p & rest & -> & _). by apply prefix_app_r.
    + by destruct Hr as [-> _].
  - by eapply sheet_pages.
  - intros Hclass.
    assert (painted = []) as ->.
    { destruct painted as [|p painted]; [done|].
      destruct canvases as [|cv canvases]; [done|].
      injection Hsheet as Hp _. apply sheet_Some in Hp as (_ & _ & Hvalid).
      congruence. }
    destruct canvases; [|done]. simpl in Hdom, Hr.
    rewrite (right_id_L [] (++)) in Hdom. split_and!; [done|done|].
    destruct r as [e|[]].
    + destruct Hr as (p & rest & -> & Herr & Hcalls). simpl.
      unfold page_error, page_calls, sheet_or_error, Preview.new_canvas
        in Herr, Hcalls.
      rewrite Hclass in Herr, Hcalls.
      destruct (getPage pdf p) as [e'|page].
      * split; [done|]. exists e. split; [done|]. congruence.
      * split; [done|]. exists e. split; [done|]. congruence.
    + destruct Hr as [<- Hcalls]. simpl in Hcalls.
      by rewrite (right_id_L [] (++)) in Hcalls.
Qed.

(** The validation of the sequential renderer takes the loader away first,
    and does nothing else to the container. *)
Lemma preview_validate_dom fetch options src w r w' :
  Preview.toArrayBufferWithSize fetch options src w = (r, w') →
  dom w' = removeLoader (dom w).
Proof.
  unfold Preview.toArrayBufferWithSize. io. intros H.
  repeat (match goal with
          | H : context [match ?x with _ => _ end] |- _ => destruct x eqn:?
          | H : context [if ?x then _ else _] |- _ => destruct x eqn:?
          end; simpl in H); by simplify_eq.
Qed.

Lemma or_else_nonempty a b : b ≠ "" → or_else a b ≠ "".
Proof. unfold or_else. destruct a; [case_decide|]; done. Qed.

(** X7: after the sequential [renderPDF] the container holds what it held
    without its first loader, then the canvases of pages 1, 2, ... without
    a gap, and then either nothing, when every page of the opened document
    was painted, or exactly one [pdf-error] message with a non-empty text,
    when something was thrown. *)
Theorem X7_sequential_container_shape tokenError
    fetch getDocument render options src container :
  let w :=
    Preview.renderPDF fetch getDocument render tokenError options src
      container in
  ∃ canvases tail,
    dom w = removeLoader container ++ (CanvasEl <$> canvases) ++ tail
    ∧ cv_page <$> canvases = seq 1 (length canvases)
    ∧ match (Preview.main fetch getDocument render tokenError options src
               {| dom := container; calls := [] |}).1 with
      | inr _ =>
          tail = []
          ∧ ∃ sized w1 pdf,
              Preview.toArrayBufferWithSize fetch options src
                {| dom := container; calls := [] |} = (inr sized, w1)
              ∧ getDocument (Preview.buf sized) = inr pdf
              ∧ sheet tokenError options pdf <$> seq 1 (numPages pdf)
                = Some <$> canvases
      | inl e =>
          tail = [Div ["pdf-error"] (or_else (message e) "Failed to load PDF.")]
          ∧ or_else (message e) "Failed to load PDF." ≠ ""
      end.
Proof.
  unfold Preview.renderPDF, Preview.main, mbind, IO_bind.
  destruct (Preview.toArrayBufferWithSize _ _ _ _) as [[e|sized] w1] eqn:Hload;
    apply preview_validate_dom in Hload as Hdom; simpl in Hdom.
  { exists [], [Div ["pdf-error"] (or_else (message e) "Failed to load PDF.")].
    simpl. rewrite Hdom. split_and!; [done|done|done|].
    by apply or_else_nonempty. }
  unfold await. simpl.
  destruct (getDocument (Preview.buf sized)) as [e|pdf] eqn:Hopen.
  { exists [], [Div ["pdf-error"] (or_else (message e) "Failed to load PDF.")].
    simpl. rewrite Hdom. split_and!; [done|done|done|].
    by apply or_else_nonempty. }
  pose proof (render_pages_stops tokenError render options pdf
                (seq 1 (numPages pdf))
                {| dom := dom w1;
                   calls := calls w1 ++ [GetDocument (Preview.buf sized)] |})
    as Hpages.
  destruct (Preview.render_pages _ _ _ _ _ _) as [[e|[]] w2].
  - destruct Hpages as (painted & canvases & Hsheet & _ & Hdom2 & Hr).
    destruct Hr as (p & rest & Hsplit & _ & _).
    exists canvases,
      [Div ["pdf-error"] (or_else (message e) "Failed to load PDF.")].
    simpl in *. rewrite Hdom2, Hdom, <-(assoc_L (++)).
    split_and!; [done| |done|by apply or_else_nonempty].
    assert (painted = seq 1 (length painted)) as Hpainted.
    { assert (length painted ≤ numPages pdf)%nat as Hle.
      { apply (f_equal length) in Hsplit.
        rewrite length_seq, length_app in Hsplit. lia. }
      apply (f_equal (take (length painted))) in Hsplit.
      rewrite take_app_length, take_seq in Hsplit.
      by rewrite Nat.min_l in Hsplit by lia. }
    rewrite Hpainted in Hsheet. apply sheet_pages in Hsheet.
    rewrite Hsheet. f_equal. apply (f_equal length) in Hsheet.
    by rewrite length_fmap, length_seq in Hsheet.
  - destruct Hpages as (painted & canvases & Hsheet & _ & Hdom2 & -> & _).
    exists canvases, []. simpl in *.
    rewrite Hdom2, Hdom, (right_id_L [] (++)).
    split_and!; [done| |done|by exists sized, w1, pdf].
    apply sheet_pages in Hsheet as Hpg. rewrite Hpg. f_equal.
    apply (f_equal length) in Hpg.
    by rewrite length_fmap, length_seq in Hpg.
Qed.

(** The two eager renderers make the same canvas for a page. *)
Lemma sheet_page_canvas tokenError options pdf p :
  sheet tokenError options pdf p = page_canvas tokenError options pdf p.
Proof.
  unfold sheet, sheet_or_error, page_canvas. by destruct (getPage pdf p).
Qed.

(** What [Promise.all] resolves with: the canvases of all pages. *)
Lemma resolved_canvases tokenError options pdf c0 evs s canvases :
  Parallel.run tokenError options pdf (Parallel.start pdf c0) evs = Some s →
  Parallel.all s = Parallel.Resolved canvases →
  page_canvas tokenError options pdf <$> seq 1 (numPages pdf)
  = Some <$> canvases
  ∧ Parallel.container s = removeLoader (c0 ++ (CanvasEl <$> canvases)).
Proof.
  intros Hrun Hres.
  destruct (inv_run tokenError options pdf c0 evs _ _ Hrun
              (inv_start tokenError options pdf c0))
    as [Hval Hrem Hcv Hall Hlen].
  rewrite Hres in Hall. destruct Hall as (Hzero & -> & Hcont).
  split; [|done].
  rewrite Hrem in Hzero. apply all_returned in Hzero.
  rewrite Hval.
  apply list_eq_same_length with (numPages pdf).
  - rewrite length_fmap. rewrite <-Hlen. apply (f_equal length) in Hzero.
    by rewrite length_fmap in Hzero.
  - by rewrite length_fmap, length_seq.
  - intros i x y Hi Hx Hy.
    rewrite list_lookup_fmap in Hx. rewrite list_lookup_fmap in Hy.
    destruct (seq 1 (numPages pdf) !! i) as [p|] eqn:Hp; [|done].
    apply lookup_seq in Hp as [-> _].
    destruct (Parallel.filled _ !! i) as [cv|] eqn:Hcvi; [|done].
    simpl in *. injection Hx as <-. injection Hy as <-.
    replace (S i) with (i + 1)%nat by lia.
    apply Hcv. right. by rewrite Hzero, list_lookup_fmap, Hcvi.
Qed.

(** X8: the two eager renderers against each other.  Whenever
    [Promise.all] of the parallel renderer resolves, the sequential page
    loop on the same document, with renders that succeed and the loader
    taken out first, returns normally and leaves what the container held
    without its first loader, then the canvases [Promise.all] resolved
    with.  That is the very container the parallel renderer leaves when
    the container held a loader or the canvases are not of class
    [pdf-loader].  When the container held no loader and the canvases are
    of class [pdf-loader], the clean-up of the parallel renderer takes the
    canvas of the first page for the loader, so its container lacks that
    canvas and the two differ as soon as there is a page. *)
Theorem X8_sequential_and_parallel_agree tokenError
    options pdf c0 evs s canvases render w :
  Parallel.run tokenError options pdf (Parallel.start pdf c0) evs = Some s →
  Parallel.all s = Parallel.Resolved canvases →
  (∀ p, render p = None) →
  dom w = removeLoader c0 →
  let '(r, w') :=
    Preview.render_pages render tokenError options pdf
      (seq 1 (numPages pdf)) w in
  r = inr ()
  ∧ dom w' = removeLoader c0 ++ (CanvasEl <$> canvases)
  ∧ (Exists (λ n, is_loader n = true) c0
     ∨ Parallel.className options ≠ "pdf-loader" →
     dom w' = Parallel.container s)
  ∧ (Forall (λ n, is_loader n = false) c0 →
     Parallel.className options = "pdf-loader" →
     dom w' = c0 ++ (CanvasEl <$> canvases)
     ∧ Parallel.container s = c0 ++ (CanvasEl <$> drop 1 canvases)
     ∧ (numPages pdf ≠ 0%nat → dom w' ≠ Parallel.container s)).
Proof.
  intros Hrun Hres Hrender Hdom.
  destruct (resolved_canvases _ _ _ _ _ _ _ Hrun Hres) as [Hcanvases ->].
  assert (Forall (λ cv, cv_classList cv = [Parallel.className options])
            canvases) as Hclass.
  { apply Forall_forall. intros cv [i Hi]%list_elem_of_lookup.
    apply (f_equal (λ l, l !! i)) in Hcanvases.
    rewrite !list_lookup_fmap, Hi in Hcanvases. simpl in Hcanvases.
    destruct (seq 1 (numPages pdf) !! i) as [p|]; [|done].
    injection Hcanvases as Hp.
    by destruct (page_canvas_Some _ _ _ _ _ Hp). }
  assert (length canvases = numPages pdf) as Hlen.
  { apply (f_equal length) in Hcanvases.
    by rewrite !length_fmap, length_seq in Hcanvases. }
  destruct (removeLoader_canvases c0 canvases _ Hclass) as [Hsame Hfirst].
  pose proof (render_pages_stops tokenError render options pdf
                (seq 1 (numPages pdf)) w) as Hpages.
  destruct (Preview.render_pages _ _ _ _ _ _) as [[e|[]] w'].
  - exfalso.
    destruct Hpages
      as (painted & cvs & _ & _ & _ & p & rest & Hsplit & Herr & _).
    assert (p ∈ seq 1 (numPages pdf)) as Hp
      by (rewrite Hsplit; apply elem_of_app; right; left).
    apply list_elem_of_lookup in Hp as [i Hi].
    apply (f_equal (λ l, l !! i)) in Hcanvases.
    rewrite !list_lookup_fmap, Hi in Hcanvases. simpl in Hcanvases.
    rewrite <-sheet_page_canvas in Hcanvases.
    unfold page_error in Herr. unfold sheet in Hcanvases.
    destruct (sheet_or_error tokenError options pdf p);
      [|by rewrite Hrender in Herr].
    by destruct (canvases !! i).
  - destruct Hpages as (painted & cvs & Hsheet & _ & Hdom' & -> & _).
    assert (cvs = canvases) as ->.
    { rewrite (list_fmap_ext _ (page_canvas tokenError options pdf)
                 (seq 1 (numPages pdf))) in Hsheet
        by (intros; apply sheet_page_canvas).
      rewrite Hcanvases in Hsheet.
      by apply (inj (fmap Some)) in Hsheet. }
    rewrite Hdom', Hdom.
    split_and!; [done|done|by intros H; rewrite Hsame|].
    intros Hnone Hname.
    rewrite (removeLoader_none c0 Hnone), (Hfirst Hnone Hname).
    split_and!; [done|done|].
    intros Hpos Heq. apply (f_equal length) in Heq.
    rewrite !length_app, !length_fmap, length_drop in Heq. lia.
Qed.

Lemma X8_sequential_and_parallel_agree_witness :
  dom (Preview.render_pages (λ _, None) refused no_options five_pages
         (seq 1 (numPages five_pages)) {| dom := []; calls := [] |}).2
  = Parallel.container after_backwards.
Proof.
  destruct (Parallel.all after_backwards) as [|canvases|e] eqn:Hall;
    [vm_compute in Hall; discriminate| |vm_compute in Hall; discriminate].
  pose proof (X8_sequential_and_parallel_agree refused no_options five_pages
                [Div ["pdf-loader"] ""] backwards after_backwards canvases
                (λ _, None) {| dom := []; calls := [] |}
                ltac:(vm_compute; reflexivity) Hall (λ _, eq_refl) eq_refl)
    as Hagree.
  destruct (Preview.render_pages _ _ _ _ _ _) as [r w'].
  destruct Hagree as (_ & _ & Hdom & _). apply Hdom.
  left. left. reflexivity.
Defined.

(** With canvases of class [pdf-loader] and no loader in the container,
    the clean-up of the parallel renderer takes the canvas of page 1 for
    the loader; the sequential loop, which removes the loader before it
    paints, keeps that canvas. *)
Lemma first_canvas_taken_for_loader :
  canvas_pages ∘ Parallel.container
    <$> Parallel.run refused loader_class five_pages
          (Parallel.start five_pages []) backwards
  = Some [2; 3; 4; 5]%nat
  ∧ canvas_pages
      (dom (Preview.render_pages (λ _, None) refused loader_class five_pages
              (seq 1 5) {| dom := []; calls := [] |}).2)
    = [1; 2; 3; 4; 5]%nat.
Proof. split; vm_compute; reflexivity. Qed.

(** With a class of two words no canvas can be given its class: the
    sequential loop throws after the first [getPage] and before any
    render, [Promise.all] of the parallel renderer rejects as soon as a
    page is there, and the lazy renderer shows the error in the holder of
    the page. *)
Lemma class_of_two_words :
  Preview.render_pages (λ _, None) refused two_words five_pages (seq 1 5)
    {| dom := []; calls := [] |}
  = (inl (refused "a b"), {| dom := []; calls := [GetPage 1] |})
  ∧ Parallel.all
      <$> Parallel.run refused two_words five_pages
            (Parallel.start five_pages []) [Parallel.GotPage 2]
    = Some (Parallel.Rejected (refused "a b"))
  ∧ (h ← querySelector_holder 1
           (container
              (default (init [])
                 (run refused two_words five_pages
                    (init (placeholders 5 1%Qc)) [near 1; Settle 1 None])));
     Some (content h, holder_classList h))
    = Some ([ContentError
               "The token provided must not be empty or contain white space."],
            ["pdf-page-holder"]).
Proof. split_and!; vm_compute; reflexivity. Qed.

(** ** More on the scheduler *)

Section scheduler_more.

Variable tokenError : string → Error.
Variable options : Options.
Variable pdf : PDFDocument.

Local Abbreviation k := (concurrent options).
Local Abbreviation pump := (pump options).
Local Abbreviation enqueue := (enqueue options).
Local Abbreviation step := (step tokenError options pdf).
Local Abbreviation run := (run tokenError options pdf).

(** X9: the gate is work conserving.  In every state reached with a limit
    of at least one, pages wait in the queue only while [active] is at the
    limit, every slot taken by a page in flight or by a [.finally] callback
    still due; and when [active] is below the limit the queue is empty and
    every page ever pushed has been started. *)
Theorem X9_gate_is_work_conserving c evs s :
  1 ≤ k →
  fresh c →
  run (init c) evs = Some s →
  (queue s ≠ [] →
     active s = k ∧ Z.of_nat (size (inFlight s) + settled s) = k)
  ∧ (active s < k → queue s = [] ∧ started s = pushed s).
Proof.
  intros Hk Hc Hrun.
  destruct (good_run tokenError options pdf evs _ _ Hrun (good_init options c Hc))
    as ([Hact Hmax] & Hsound & Hbusy).
  split.
  - intros Hq. destruct Hbusy as [?|Hfull]; [done|]. lia.
  - intros Hfree. destruct Hbusy as [Hq|?]; [|lia]. split; [done|].
    by rewrite (sound_log _ Hsound), Hq, (right_id_L [] (++)).
Qed.

(** *** A limit of zero or less *)

Lemma enqueue_closed_gate p s :
  k ≤ active s →
  enqueue p s = s
  ∨ enqueue p s = log_push p (set_queue (queue s ++ [p]) s).
Proof.
  intros Hfull. unfold Lazy.enqueue.
  destruct (_ && _); [|by left]. right. apply pump_full. simpl. lia.
Qed.

(** X10: with a limit of zero or less nothing is ever rendered.  The only
    events possible are observer callbacks; the pages they report pile up
    in the queue, no render is started and the container stays as set-up
    left it. *)
Theorem X10_nonpositive_limit_renders_nothing c evs s :
  k ≤ 0 →
  run (init c) evs = Some s →
  started s = [] ∧ inFlight s = ∅ ∧ active s = 0 ∧ settled s = 0%nat
  ∧ container s = c ∧ queue s = pushed s
  ∧ Forall (λ ev, ∃ entries, ev = Intersect entries) evs.
Proof.
  intros Hk.
  set (I := λ s : State,
         started s = [] ∧ inFlight s = ∅ ∧ active s = 0
         ∧ settled s = 0%nat ∧ container s = c ∧ queue s = pushed s).
  assert (∀ p s, I s → I (enqueue p s)) as Henq.
  { intros p s0 (Hst & Hin & Hact & Hset & Hcont & Hq).
    destruct (enqueue_closed_gate p s0) as [->| ->]; [lia|done|].
    unfold I. simpl. by rewrite Hq. }
  assert (∀ entries s s', on_intersect options entries s = Some s' →
                          I s → I s') as Hint.
  { induction entries as [|entry rest IH]; intros s0 s'; simpl.
    - by intros [= <-].
    - destruct (on_entry options entry s0) as [s1|] eqn:Hentry; [|done].
      simpl. intros Hrest Hs0. eapply IH; [done|].
      apply on_entry_cases in Hentry as [->|(_ & _ & ->)]; [done|].
      by apply Henq. }
  assert (∀ evs s s', run s evs = Some s' → I s →
            I s' ∧ Forall (λ ev, ∃ entries, ev = Intersect entries) evs)
    as Hrun.
  { clear evs s. induction evs as [|ev rest IH]; intros s0 s'; simpl.
    - intros [= <-]. by split.
    - destruct (step s0 ev) as [s1|] eqn:Hstep; [|done]. simpl.
      intros Hrest Hs0.
      destruct ev as [entries|p r|]; simpl in Hstep.
      + destruct (IH _ _ Hrest) as [? ?]; [by eapply Hint|].
        split; [done|]. constructor; [by eexists|done].
      + destruct Hs0 as (_ & Hin & _). rewrite Hin in Hstep.
        by rewrite decide_False in Hstep by set_solver.
      + destruct Hs0 as (_ & _ & _ & Hset & _). by rewrite Hset in Hstep. }
  intros Hevs.
  destruct (Hrun evs (init c) s Hevs) as [(? & ? & ? & ? & ? & ?) ?]; [done|].
  by split_and!.
Qed.

(** *** After [disconnect()] *)

Lemma pushed_quiet_step s ev s' :
  step s ev = Some s' → quiet ev → pushed s' = pushed s.
Proof.
  destruct ev as [entries|p r|]; simpl; [done| |].
  - case_decide; [|done]. by intros [= <-].
  - case_decide; [done|]. intros [= <-] _. unfold Lazy.on_finally.
    by rewrite pushed_pump.
Qed.

Lemma pushed_quiet_run evs s s' :
  run s evs = Some s' → Forall quiet evs → pushed s' = pushed s.
Proof.
  revert s. induction evs as [|ev rest IH]; intros s; simpl.
  - by intros [= <-].
  - destruct (step s ev) as [s1|] eqn:Hstep; [|done]. simpl.
    intros Hrest [Hev Hquiet]%Forall_cons.
    rewrite (IH _ Hrest Hquiet). by eapply pushed_quiet_step.
Qed.

(** X11: after [disconnect()], that is in a run without observer
    callbacks, nothing is pushed any more, and the renders started are
    those of a front part of the queue, in queue order; the rest still
    waits. *)
Theorem X11_after_disconnect_backlog_in_order c evs1 s1 evs2 s2 :
  fresh c →
  run (init c) evs1 = Some s1 →
  Forall quiet evs2 →
  run s1 evs2 = Some s2 →
  pushed s2 = pushed s1
  ∧ ∃ new, started s2 = started s1 ++ new ∧ queue s1 = new ++ queue s2.
Proof.
  intros Hc Hrun1 Hquiet Hrun2.
  pose proof (good_run tokenError options pdf _ _ _ Hrun1 (good_init options c Hc))
    as Hgood1.
  pose proof (good_run tokenError options pdf _ _ _ Hrun2 Hgood1) as (_ & Hsound2 & _).
  destruct Hgood1 as (_ & Hsound1 & _).
  pose proof (pushed_quiet_run _ _ _ Hrun2 Hquiet) as Hpushed.
  split; [done|].
  destruct (extends_run tokenError options pdf _ _ _ Hrun2) as [_ [new Hnew]].
  exists new. split; [done|].
  rewrite (sound_log _ Hsound1), (sound_log _ Hsound2), Hnew in Hpushed.
  rewrite <-(assoc_L (++)) in Hpushed. by apply (inj (app _)) in Hpushed.
Qed.

(** *** The layout *)

Lemma same_slot_refl n : same_slot n n.
Proof. by destruct n. Qed.

Lemma same_slot_trans n1 n2 n3 :
  same_slot n1 n2 → same_slot n2 n3 → same_slot n1 n3.
Proof.
  destruct n1, n2, n3; simpl; try congruence.
  intros (-> & -> & ?) (-> & -> & ?). split_and!; [done|done|].
  by etrans.
Qed.

Lemma same_slots_trans c1 c2 c3 :
  Forall2 same_slot c1 c2 → Forall2 same_slot c2 c3 → Forall2 same_slot c1 c3.
Proof.
  intros H12. revert c3.
  induction H12 as [|n1 n2 c1 c2 Hn _ IH]; intros c3 H23;
    inversion H23; subst; constructor.
  - by eapply same_slot_trans.
  - by apply IH.
Qed.

Lemma same_slot_with_holder p f c :
  (∀ h, same_slot (PageHolder h) (PageHolder (f h))) →
  Forall2 same_slot c (with_holder p f c).
Proof.
  intros Hf. induction c as [|[cl t|h|cv] rest IH]; simpl.
  - constructor.
  - by constructor.
  - case_decide.
    + constructor; [apply Hf|]. apply Forall_Forall2_diag, Forall_forall.
      intros n _. apply same_slot_refl.
    + constructor; [apply same_slot_refl|done].
  - by constructor.
Qed.

Lemma same_slot_step s ev s' :
  step s ev = Some s' → Forall2 same_slot (container s) (container s').
Proof.
  assert (∀ c, Forall2 same_slot c c) as Hrefl.
  { intros c. apply Forall_Forall2_diag, Forall_forall.
    intros n _. apply same_slot_refl. }
  destruct ev as [entries|p r|]; simpl.
  - intros ->%container_on_intersect. apply Hrefl.
  - case_decide; [|done]. intros [= <-]. simpl.
    destruct (render_outcome _ _ _ _); apply same_slot_with_holder;
      intros h; simpl; split_and!; try done.
    unfold classList_add. case_decide; [done|].
    intros x Hx. apply elem_of_app. by left.
  - case_decide; [done|]. intros [= <-]. unfold Lazy.on_finally.
    rewrite container_pump. apply Hrefl.
Qed.

Lemma same_slots_run evs s s' :
  run s evs = Some s' → Forall2 same_slot (container s) (container s').
Proof.
  revert s. induction evs as [|ev rest IH]; intros s; simpl.
  - intros [= <-]. apply Forall_Forall2_diag, Forall_forall.
    intros n _. apply same_slot_refl.
  - destruct (step s ev) as [s1|] eqn:Hstep; [|done]. simpl.
    intros Hrest%IH. apply same_slot_step in Hstep.
    by eapply same_slots_trans.
Qed.

Lemma holder_pages_same_slots c c' :
  Forall2 same_slot c c' → holder_pages c' = holder_pages c.
Proof.
  induction 1 as [|n n' c c' Hn _ IH]; [done|].
  destruct n, n'; simpl in *; try done.
  destruct Hn as (-> & _). by rewrite IH.
Qed.

(** X12: rendering never shifts the layout.  Along any run the container
    keeps its children in number and order; a holder keeps its page
    number, the padding of its sizer and the classes it had, and every
    other child stays as it is. *)
Theorem X12_layout_is_stable evs s s' :
  run s evs = Some s' →
  Forall2 same_slot (container s) (container s')
  ∧ length (container s') = length (container s)
  ∧ holder_pages (container s') = holder_pages (container s).
Proof.
  intros Hslots%same_slots_run.
  split; [done|]. split; [by apply Forall2_length in Hslots|].
  by apply holder_pages_same_slots.
Qed.

(** *** Starts and settlements *)

Lemma settlements_cons p ev evs :
  settlements p (ev :: evs)
  = ((match ev with
      | Settle q _ => if decide (q = p) then 1 else 0
      | _ => 0
      end) + settlements p evs)%nat.
Proof.
  unfold settlements. destruct ev as [entries|q r|].
  - by rewrite filter_cons_False.
  - case_decide.
    + by rewrite filter_cons_True by (by rewrite bool_decide_eq_true_2).
    + by rewrite filter_cons_False by (by rewrite bool_decide_eq_false_2).
  - by rewrite filter_cons_False.
Qed.

Lemma credit_settle p r s :
  p ∈ inFlight s →
  credit p (renderPage_end tokenError options pdf p r s) = S (credit p s).
Proof.
  intros Hp. unfold credit, render_calls. simpl.
  destruct (decide (p ∈ inFlight s)) as [_|]; [|done].
  destruct (decide (p ∈ inFlight s ∖ {[p]})) as [Hin|_]; [|lia].
  apply elem_of_difference in Hin as [_ Hin]. exfalso. apply Hin.
  by apply elem_of_singleton.
Qed.

Lemma credit_counts p evs s s' :
  run s evs = Some s' →
  credit p s' = (credit p s + settlements p evs)%nat.
Proof.
  revert s. induction evs as [|ev rest IH]; intros s; simpl.
  - intros [= <-]. unfold settlements. simpl. lia.
  - destruct (step s ev) as [s1|] eqn:Hstep; [|done]. simpl.
    intros Hrest%IH. rewrite Hrest, settlements_cons.
    destruct ev as [entries|q r|].
    + rewrite (credit_step tokenError options pdf p _ _ _ Hstep); [lia|by intros []].
    + case_decide as Hq.
      * subst q. simpl in Hstep. case_decide; [|done].
        injection Hstep as <-. rewrite credit_settle by done. lia.
      * rewrite (credit_step tokenError options pdf p _ _ _ Hstep); [lia|done].
    + rewrite (credit_step tokenError options pdf p _ _ _ Hstep); [lia|by intros []].
Qed.

(** X13: the render calls of a page are its settlements, plus one while
    it is in flight: a render is started for a page only after every
    earlier render of the page has settled. *)
Theorem X13_every_start_is_settled_or_in_flight c evs s p :
  run (init c) evs = Some s →
  render_calls p s
  = (settlements p evs + (if decide (p ∈ inFlight s) then 1 else 0))%nat.
Proof.
  intros Hrun%(credit_counts p). rewrite credit_init in Hrun.
  unfold credit in Hrun. case_decide; lia.
Qed.

(** *** The backlog drains *)

Lemma sound_set_counters a n s :
  sound s → sound (set_active a (set_settled n s)).
Proof. intros []. by split. Qed.

Lemma backlog_turn s next rest :
  sound s → queue s = next :: rest →
  S (backlog (turn next rest s)) = backlog s.
Proof.
  intros Hs Hq. rewrite (turn_sound_eq _ _ _ Hs Hq).
  unfold backlog. simpl. rewrite Hq. simpl.
  rewrite size_union, size_singleton; [lia|].
  apply disjoint_singleton_l. apply (sound_disjoint _ Hs).
  rewrite Hq. left.
Qed.

Lemma backlog_pump s : sound s → (backlog (pump s) ≤ backlog s)%nat.
Proof.
  intros Hs.
  cut (sound (pump s) ∧ (backlog (pump s) ≤ backlog s)%nat); [by intros []|].
  apply (pump_rule options
           (λ s', sound s' ∧ (backlog s' ≤ backlog s)%nat)
           (λ s', sound s' ∧ (backlog s' ≤ backlog s)%nat)); try done.
  - intros s0 next rest Hq _ _ [Hs0 Hle]. split; [by apply sound_turn|].
    pose proof (backlog_turn _ _ _ Hs0 Hq). lia.
  - intros s0 rest Hq _ [Hs0 Hle]. exfalso.
    apply (sound_queue_nonzero s0 0%nat Hs0); [|done]. rewrite Hq. left.
Qed.

Lemma backlog_finally s :
  sound s → settled s ≠ 0%nat →
  (backlog (on_finally options s) < backlog s)%nat.
Proof.
  intros Hs Hset. unfold Lazy.on_finally.
  eapply Nat.le_lt_trans; [apply backlog_pump; by apply sound_set_counters|].
  unfold backlog. simpl. lia.
Qed.

Lemma backlog_settle p r s :
  p ∈ inFlight s →
  backlog (renderPage_end tokenError options pdf p r s) = pred (backlog s).
Proof.
  intros Hp. unfold backlog. simpl.
  rewrite size_difference by (by apply singleton_subseteq_l).
  rewrite size_singleton.
  assert (size (inFlight s) ≠ 0%nat) as Hne.
  { intros Hz%size_empty_iff. rewrite Hz in Hp. by apply not_elem_of_empty in Hp. }
  lia.
Qed.

Lemma drains_within n s :
  1 ≤ k → good options s → (backlog s ≤ n)%nat →
  ∃ evs s',
    Forall quiet evs ∧ run s evs = Some s' ∧ (length evs ≤ n)%nat
    ∧ queue s' = [] ∧ inFlight s' = ∅ ∧ settled s' = 0%nat.
Proof.
  intros Hk. revert s. induction n as [|n IH]; intros s Hgood Hn.
  - exists [], s. destruct Hgood as ([Hact Hmax] & Hsound & Hbusy).
    unfold backlog in Hn.
    assert (size (inFlight s) = 0%nat) as Hin by lia.
    apply size_empty_iff in Hin.
    split_and!; [constructor|done|done| |by apply leibniz_equiv|lia].
    destruct (queue s); [done|simpl in Hn; lia].
  - destruct Hgood as ([Hact Hmax] & Hsound & Hbusy).
    destruct (decide (settled s = 0%nat)) as [Hset|Hset].
    + destruct (decide (size (inFlight s) = 0%nat)) as [Hin|Hin].
      * exists [], s. apply size_empty_iff in Hin as Hempty.
        split_and!; [constructor|done|simpl; lia|
                     |by apply leibniz_equiv|done].
        destruct Hbusy as [?|?]; [done|lia].
      * apply size_non_empty_iff, set_choose in Hin as [p Hp].
        assert (step s (Settle p None)
                = Some (renderPage_end tokenError options pdf p None s)) as Hstep.
        { simpl. by rewrite decide_True. }
        destruct (IH (renderPage_end tokenError options pdf p None s))
          as (evs & s' & Hquiet & Hrun & Hlen & Hq & Hin & Hset').
        { eapply (good_step tokenError options pdf); [exact Hstep|done]. }
        { rewrite backlog_settle by done. lia. }
        exists (Settle p None :: evs), s'.
        split_and!; [by constructor| |simpl; lia|done..].
        simpl. by rewrite decide_True.
    + assert (step s Finally = Some (on_finally options s)) as Hstep.
      { simpl. by rewrite decide_False. }
      destruct (IH (on_finally options s))
        as (evs & s' & Hquiet & Hrun & Hlen & Hq & Hin & Hset').
      { eapply (good_step tokenError options pdf); [exact Hstep|done]. }
      { pose proof (backlog_finally s Hsound Hset). lia. }
      exists (Finally :: evs), s'.
      split_and!; [by constructor| |simpl; lia|done..].
      simpl. by rewrite decide_False.
Qed.

(** X14: the backlog drains.  From every state reached with a limit of at
    least one, settlements and [.finally] callbacks alone, no more of them
    than the backlog counts, lead to a state with an empty queue, nothing
    in flight and a counter of zero, in which every page ever pushed has
    been started. *)
Theorem X14_backlog_drains c evs s :
  1 ≤ k →
  fresh c →
  run (init c) evs = Some s →
  ∃ evs' s',
    Forall quiet evs'
    ∧ run s evs' = Some s'
    ∧ queue s' = [] ∧ inFlight s' = ∅ ∧ settled s' = 0%nat ∧ active s' = 0
    ∧ started s' = pushed s
    ∧ (length evs' ≤ backlog s)%nat.
Proof.
  intros Hk Hc Hrun.
  pose proof (good_run tokenError options pdf _ _ _ Hrun (good_init options c Hc))
    as Hgood.
  destruct (drains_within (backlog s) s Hk Hgood)
    as (evs' & s' & Hquiet & Hrun' & Hlen & Hq & Hin & Hset); [done|].
  exists evs', s'.
  destruct (good_run tokenError options pdf _ _ _ Hrun' Hgood)
    as ([Hact _] & Hsound & _).
  split_and!; try done.
  - rewrite Hact, Hin, Hset, size_empty. lia.
  - rewrite <-(pushed_quiet_run _ _ _ Hrun' Hquiet), (sound_log _ Hsound), Hq.
    by rewrite (right_id_L [] (++)).
Qed.

(** *** What a holder shows *)

Lemma classList_add_elem c l : c ∈ classList_add c l.
Proof.
  unfold classList_add. case_decide; [done|]. apply elem_of_app. right. left.
Qed.

Lemma render_outcome_painted p r canvas :
  render_outcome tokenError options pdf p r = inr canvas →
  render_outcome tokenError options pdf p None = inr canvas.
Proof.
  unfold render_outcome. destruct (getPage pdf p); [done|].
  destruct (new_canvas _ _ _ _); [done|]. by destruct r.
Qed.

Lemma holder_shows_step s ev s' :
  step s ev = Some s' → sound s →
  (∀ q h, querySelector_holder q (container s) = Some h →
          holder_shows tokenError options pdf h) →
  ∀ q h, querySelector_holder q (container s') = Some h →
         holder_shows tokenError options pdf h.
Proof.
  intros Hstep Hsound Hshows q h.
  rewrite (holder_step tokenError options pdf q _ _ _ Hstep).
  destruct (querySelector_holder q (container s)) as [h0|] eqn:Hq; [|done].
  simpl. intros [= <-]. specialize (Hshows q h0 Hq).
  destruct ev as [entries|p r|]; simpl; [done| |done].
  case_decide as Hp; [subst q|done].
  simpl in Hstep. case_decide as Hin; [|done].
  destruct (sound_pending _ Hsound p) as (h1 & Hq1 & Hunmarked);
    [by right|].
  rewrite Hq in Hq1. injection Hq1 as <-.
  apply querySelector_Some in Hq as (Hpage & _).
  destruct (render_outcome tokenError options pdf p r) as [e|canvas] eqn:Hout.
  - right. left. eexists. split_and!; [|reflexivity|done].
    by apply or_else_nonempty.
  - right. right. exists canvas. simpl. rewrite Hpage.
    split_and!; [by eapply render_outcome_painted|done|].
    apply classList_add_elem.
Qed.

Lemma holder_shows_run c evs s :
  blank c →
  run (init c) evs = Some s →
  ∀ q h, querySelector_holder q (container s) = Some h →
         holder_shows tokenError options pdf h.
Proof.
  intros [Hfresh Hblank] Hrun.
  cut (good options s
       ∧ ∀ q h, querySelector_holder q (container s) = Some h →
                holder_shows tokenError options pdf h).
  { by intros [_ Hall]. }
  assert (good options (init c)
          ∧ ∀ q h, querySelector_holder q (container (init c)) = Some h →
                   holder_shows tokenError options pdf h) as Hinit.
  { split; [by apply good_init|]. simpl. intros q h0 Hq0. left.
    destruct (fresh_unrendered _ _ _ Hfresh Hq0) as [_ ?].
    apply querySelector_Some in Hq0 as (_ & _ & Hin). split; [|done].
    by apply Hblank. }
  revert Hrun Hinit. generalize (init c). clear Hfresh Hblank.
  induction evs as [|ev rest IH]; intros s0; simpl.
  - by intros [= <-].
  - destruct (step s0 ev) as [s1|] eqn:Hstep; [|done]. simpl.
    intros Hrest [Hgood Hall]. apply (IH _ Hrest). split.
    + by eapply (good_step tokenError options pdf).
    + eapply holder_shows_step; [done| |done]. by destruct Hgood as (_ & ? & _).
Qed.


(** *** From set-up to rendering *)

Lemma holder_elem_pages h c : PageHolder h ∈ c → dataset_page h ∈ holder_pages c.
Proof.
  induction c as [|n rest IH]; [by intros ?%elem_of_nil|].
  intros [<-|Hin]%elem_of_cons; simpl; [left|].
  destruct n; auto. right. auto.
Qed.

Lemma set_up_leaves_blank
    fetch getDocument observer src container0 w :
  Lazy.renderPDFLazy fetch getDocument observer options src container0
  = (Lazy.Teardown pdf, w) →
  holder_pages container0 = [] →
  blank (dom w).
Proof.
  intros Hsetup Hnone. split; [by eapply set_up_leaves_fresh|].
  apply lazy_set_up_inv in Hsetup as (_ & firstPage & _ & ->).
  rewrite removeLoader_placeholders.
  intros h [Hin|Hin]%elem_of_app.
  - apply holder_elem_pages in Hin.
    rewrite holder_pages_removeLoader_twice in Hin by done.
    by apply elem_of_nil in Hin.
  - unfold placeholders in Hin.
    apply list_elem_of_fmap in Hin as (i & Hh & _). by injection Hh as ->.
Qed.

Lemma sizer_apply_settlements q evs h :
  sizer_paddingTop (apply_settlements tokenError options pdf q evs h)
  = sizer_paddingTop h.
Proof.
  revert h. induction evs as [|ev rest IH]; intros h; simpl; [done|].
  rewrite IH. destruct ev as [entries|p r|]; simpl; try done.
  case_decide; [|done]. by destruct (render_outcome _ _ _ _).
Qed.

(** X16: from set-up to rendering.  After [renderPDFLazy] has resolved to
    the teardown object on a container without holders, in every state of
    the scheduler the container has the holders of pages 1..numPages in
    order, and the holder of each page still has the padding computed from
    the first page and shows nothing, an error or the canvas of that
    page. *)
Theorem X16_every_page_keeps_its_placeholder
    fetch getDocument observer src container0 w evs s :
  Lazy.renderPDFLazy fetch getDocument observer options src container0
  = (Lazy.Teardown pdf, w) →
  holder_pages container0 = [] →
  run (init (dom w)) evs = Some s →
  holder_pages (container s) = seq 1 (numPages pdf)
  ∧ ∃ firstPage,
      getPage pdf 1 = inr firstPage
      ∧ ∀ i, (1 ≤ i ≤ numPages pdf)%nat →
          ∃ h, querySelector_holder i (container s) = Some h
               ∧ sizer_paddingTop h
                 = ratio_padding firstPage (Lazy.scale options)
               ∧ holder_shows tokenError options pdf h.
Proof.
  intros Hsetup Hnone Hrun.
  pose proof (set_up_leaves_blank _ _ _ _ _ _ Hsetup Hnone) as Hblank.
  apply lazy_set_up_inv in Hsetup as (_ & firstPage & Hfirst & Hdom).
  split.
  - rewrite (holder_pages_same_slots _ _ (same_slots_run _ _ _ Hrun)). simpl.
    rewrite Hdom, removeLoader_placeholders, holder_pages_app.
    rewrite holder_pages_removeLoader_twice by done.
    apply holder_pages_placeholders.
  - exists firstPage. split; [done|]. intros i Hi.
    pose proof (holder_run tokenError options pdf i _ _ _ Hrun) as Hholder.
    simpl in Hholder. rewrite Hdom, removeLoader_placeholders in Hholder.
    rewrite querySelector_app_fresh in Hholder
      by (rewrite holder_pages_removeLoader_twice by done;
          apply not_elem_of_nil).
    rewrite querySelector_placeholders in Hholder by done.
    simpl in Hholder. eexists. split; [exact Hholder|]. split.
    + by rewrite sizer_apply_settlements.
    + eapply holder_shows_run; [exact Hblank|exact Hrun|exact Hholder].
Qed.

End scheduler_more.

Lemma X9_gate_is_work_conserving_witness :
  active (after [near 3; near 1; near 5]) = 2
  ∧ Z.of_nat (size (inFlight (after [near 3; near 1; near 5]))
              + settled (after [near 3; near 1; near 5])) = 2.
Proof.
  destruct (X9_gate_is_work_conserving refused no_options five_pages (placeholders 5 1%Qc)
              [near 3; near 1; near 5] (after [near 3; near 1; near 5]))
    as [Hfull _].
  - vm_compute. discriminate.
  - apply fresh_placeholders.
  - vm_compute. reflexivity.
  - apply Hfull. vm_compute. discriminate.
Defined.
Lemma X10_nonpositive_limit_renders_nothing_witness :
  started
    (default (init [])
       (run refused {| opt_scale := None; opt_className := None; opt_minBytes := None;
               opt_rootMargin := None; opt_concurrent := Some 0 |}
          five_pages (init (placeholders 5 1%Qc)) [near 2; near 1])) = []
  ∧ queue
      (default (init [])
         (run refused {| opt_scale := None; opt_className := None;
                 opt_minBytes := None; opt_rootMargin := None;
                 opt_concurrent := Some 0 |}
            five_pages (init (placeholders 5 1%Qc)) [near 2; near 1]))
    = [2; 1]%nat.
Proof.
  destruct (X10_nonpositive_limit_renders_nothing refused
              {| opt_scale := None; opt_className := None;
                 opt_minBytes := None; opt_rootMargin := None;
                 opt_concurrent := Some 0 |}
              five_pages (placeholders 5 1%Qc) [near 2; near 1]
              (default (init [])
                 (run refused {| opt_scale := None; opt_className := None;
                         opt_minBytes := None; opt_rootMargin := None;
                         opt_concurrent := Some 0 |}
                    five_pages (init (placeholders 5 1%Qc)) [near 2; near 1])))
    as (Hstarted & _).
  - vm_compute. discriminate.
  - vm_compute. reflexivity.
  - split; [exact Hstarted|]. vm_compute. reflexivity.
Defined.

Lemma X11_after_disconnect_backlog_in_order_witness :
  ∃ new,
    started (after [near 3; near 1; near 5; near 2; Settle 1 None; Finally])
    = started (after [near 3; near 1; near 5; near 2]) ++ new
    ∧ queue (after [near 3; near 1; near 5; near 2])
      = new ++ queue (after [near 3; near 1; near 5; near 2;
                             Settle 1 None; Finally]).
Proof.
  destruct (X11_after_disconnect_backlog_in_order refused no_options five_pages
              (placeholders 5 1%Qc) [near 3; near 1; near 5; near 2]
              (after [near 3; near 1; near 5; near 2])
              [Settle 1 None; Finally]
              (after [near 3; near 1; near 5; near 2; Settle 1 None; Finally]))
    as [_ Hnew].
  - apply fresh_placeholders.
  - vm_compute. reflexivity.
  - repeat constructor.
  - vm_compute. reflexivity.
  - exact Hnew.
Defined.

Lemma X12_layout_is_stable_witness :
  holder_pages (container (after [near 3; Settle 3 boom; Finally; near 1;
                                  Settle 1 None]))
  = [1; 2; 3; 4; 5]%nat.
Proof.
  destruct (X12_layout_is_stable refused no_options five_pages
              [near 3; Settle 3 boom; Finally; near 1; Settle 1 None]
              (init (placeholders 5 1%Qc))
              (after [near 3; Settle 3 boom; Finally; near 1; Settle 1 None]))
    as (_ & _ & Hpages).
  - vm_compute. reflexivity.
  - exact Hpages.
Defined.

Lemma X13_every_start_is_settled_or_in_flight_witness :
  render_calls 1 (after [near 1; Settle 1 boom; Finally; near 1]) = 2%nat.
Proof.
  rewrite (X13_every_start_is_settled_or_in_flight refused no_options five_pages
             (placeholders 5 1%Qc) [near 1; Settle 1 boom; Finally; near 1]
             (after [near 1; Settle 1 boom; Finally; near 1]) 1%nat).
  - vm_compute. reflexivity.
  - vm_compute. reflexivity.
Defined.


Lemma X14_backlog_drains_witness :
  ∃ evs' s',
    run refused no_options five_pages (after [near 3; near 1; near 5; near 2]) evs'
    = Some s'
    ∧ started s' = [3; 1; 5; 2]%nat.
Proof.
  destruct (X14_backlog_drains refused no_options five_pages (placeholders 5 1%Qc)
              [near 3; near 1; near 5; near 2]
              (after [near 3; near 1; near 5; near 2]))
    as (evs' & s' & _ & Hrun & _ & _ & _ & _ & Hstarted & _).
  - vm_compute. discriminate.
  - apply fresh_placeholders.
  - vm_compute. reflexivity.
  - exists evs', s'. split; [exact Hrun|]. rewrite Hstarted.
    vm_compute. reflexivity.
Defined.


Lemma X16_every_page_keeps_its_placeholder_witness :
  holder_pages
    (container
       (default (init [])
          (run refused four_bytes five_pages (init (dom after_set_up))
             [near 3; Settle 3 None; Finally; near 4; Settle 4 boom])))
  = [1; 2; 3; 4; 5]%nat.
Proof.
  destruct (X16_every_page_keeps_its_placeholder refused four_bytes five_pages
              (λ _, inl (mkError None)) (λ _, inr five_pages) (λ _, None)
              (SrcView window) [Div ["pdf-loader"] ""] after_set_up
              [near 3; Settle 3 None; Finally; near 4; Settle 4 boom]
              (default (init [])
                 (run refused four_bytes five_pages (init (dom after_set_up))
                    [near 3; Settle 3 None; Finally; near 4; Settle 4 boom])))
    as [Hpages _].
  - vm_compute. reflexivity.
  - reflexivity.
  - vm_compute. reflexivity.
  - exact Hpages.
Defined.


(** ** [Promise.all] settles once, and runs are finite *)

Section parallel_more.

Variable tokenError : string → Error.
Variable options : Options.
Variable pdf : PDFDocument.

Lemma settled_step s ev s' :
  Parallel.all s ≠ Parallel.Pending →
  Parallel.step tokenError options pdf s ev = Some s' →
  Parallel.all s' = Parallel.all s
  ∧ Parallel.container s' = Parallel.container s.
Proof.
  intros Hall. unfold Parallel.step.
  destruct ev as [i|i r].
  - destruct (Parallel.tasks s !! i) as [[| | |]|]; try done.
    destruct (getPage pdf (i + 1)) as [e|page];
      [|destruct (Parallel.new_canvas _ _ _ _)]; intros [= <-]; try done;
      unfold Parallel.reject_all; simpl;
      by destruct (Parallel.all s) eqn:Hs; simpl; rewrite ?Hs.
  - destruct (Parallel.tasks s !! i) as [[|cv| |]|]; try done.
    destruct r; intros [= <-].
    + unfold Parallel.reject_all. simpl.
      by destruct (Parallel.all s) eqn:Hs; simpl; rewrite ?Hs.
    + unfold Parallel.resolve_element. simpl.
      by destruct (Parallel.all s) eqn:Hs, (pred (Parallel.remaining s));
        simpl; rewrite ?Hs.
Qed.

(** X17: [Promise.all] settles once.  After it has resolved or rejected,
    no task that fails or returns later changes its outcome or the
    container: the first rejection stays, and no canvas is appended
    after it. *)
Theorem X17_promise_all_settles_once s evs s' :
  Parallel.all s ≠ Parallel.Pending →
  Parallel.run tokenError options pdf s evs = Some s' →
  Parallel.all s' = Parallel.all s
  ∧ Parallel.container s' = Parallel.container s.
Proof.
  revert s. induction evs as [|ev rest IH]; intros s Hall; simpl.
  - by intros [= <-].
  - destruct (Parallel.step tokenError options pdf s ev) as [s1|] eqn:Hstep; [|done].
    simpl. intros Hrest.
    destruct (settled_step _ _ _ Hall Hstep) as [Hall1 Hcont1].
    destruct (IH s1) as [-> ->]; [by rewrite Hall1|done|done].
Qed.

Lemma awaited_insert tasks i t t' :
  tasks !! i = Some t →
  (awaited (<[i := t']> tasks) + awaits t = awaited tasks + awaits t')%nat.
Proof.
  unfold awaited. revert i.
  induction tasks as [|t0 tasks IH]; intros [|i]; simpl; try done.
  - intros [= ->]. lia.
  - intros Hi%IH. lia.
Qed.

Lemma tasks_reject_all e s :
  Parallel.tasks (Parallel.reject_all e s) = Parallel.tasks s.
Proof. unfold Parallel.reject_all. by destruct (Parallel.all s). Qed.

Lemma tasks_resolve_element i cv s :
  Parallel.tasks (Parallel.resolve_element i cv s) = Parallel.tasks s.
Proof.
  unfold Parallel.resolve_element.
  by destruct (Parallel.all s), (pred (Parallel.remaining s)).
Qed.

Lemma awaited_step s ev s' :
  Parallel.step tokenError options pdf s ev = Some s' →
  (awaited (Parallel.tasks s') < awaited (Parallel.tasks s))%nat.
Proof.
  unfold Parallel.step. destruct ev as [i|i r].
  - destruct (Parallel.tasks s !! i) as [[| | |]|] eqn:Hi; try done.
    destruct (getPage pdf (i + 1)) as [e|page];
      [|destruct (Parallel.new_canvas _ _ _ _)]; intros [= <-];
      rewrite ?tasks_reject_all; simpl;
      match goal with
      | |- context [<[i := ?t']> _] =>
          pose proof (awaited_insert _ _ _ t' Hi)
      end; simpl in *; lia.
  - destruct (Parallel.tasks s !! i) as [[|cv| |]|] eqn:Hi; try done.
    destruct r; intros [= <-];
      rewrite ?tasks_reject_all, ?tasks_resolve_element; simpl;
      match goal with
      | |- context [<[i := ?t']> _] =>
          pose proof (awaited_insert _ _ _ t' Hi)
      end; simpl in *; lia.
Qed.

Lemma awaited_run s evs s' :
  Parallel.run tokenError options pdf s evs = Some s' →
  (length evs + awaited (Parallel.tasks s') ≤ awaited (Parallel.tasks s))%nat.
Proof.
  revert s. induction evs as [|ev rest IH]; intros s; simpl.
  - intros [= <-]. lia.
  - destruct (Parallel.step tokenError options pdf s ev) as [s1|] eqn:Hstep; [|done].
    simpl. intros Hrest%IH. apply awaited_step in Hstep. lia.
Qed.

(** X18: a run of the parallel renderer is finite: each page accounts
    for at most two events, and when no task awaits a promise no event is
    possible any more. *)
Theorem X18_every_run_ends c0 evs s :
  Parallel.run tokenError options pdf (Parallel.start pdf c0) evs = Some s →
  (length evs + awaited (Parallel.tasks s) ≤ 2 * numPages pdf)%nat
  ∧ (awaited (Parallel.tasks s) = 0%nat →
     ∀ ev, Parallel.step tokenError options pdf s ev = None).
Proof.
  intros Hrun. split.
  - apply awaited_run in Hrun.
    assert (awaited (Parallel.tasks (Parallel.start pdf c0))
            = (2 * numPages pdf)%nat) as Hstart.
    { unfold Parallel.start, awaited.
      destruct (numPages pdf) as [|n]; [done|].
      generalize (S n). intros m. simpl Parallel.tasks.
      induction m as [|m IH]; [done|]. simpl in *. lia. }
    lia.
  - intros Hzero ev.
    destruct (Parallel.step tokenError options pdf s ev) as [s1|] eqn:Hstep; [|done].
    apply awaited_step in Hstep. lia.
Qed.

End parallel_more.

Lemma X17_promise_all_settles_once_witness :
  Parallel.container
    (default (Parallel.start five_pages [])
       (Parallel.run refused no_options five_pages
          (Parallel.start five_pages [Div ["pdf-loader"] ""])
          [Parallel.GotPage 1; Parallel.Rendered 1 boom;
           Parallel.GotPage 0; Parallel.Rendered 0 None]))
  = Parallel.container
      (default (Parallel.start five_pages [])
         (Parallel.run refused no_options five_pages
            (Parallel.start five_pages [Div ["pdf-loader"] ""])
            [Parallel.GotPage 1; Parallel.Rendered 1 boom])).
Proof.
  destruct (X17_promise_all_settles_once refused no_options five_pages
              (default (Parallel.start five_pages [])
                 (Parallel.run refused no_options five_pages
                    (Parallel.start five_pages [Div ["pdf-loader"] ""])
                    [Parallel.GotPage 1; Parallel.Rendered 1 boom]))
              [Parallel.GotPage 0; Parallel.Rendered 0 None]
              (default (Parallel.start five_pages [])
                 (Parallel.run refused no_options five_pages
                    (Parallel.start five_pages [Div ["pdf-loader"] ""])
                    [Parallel.GotPage 1; Parallel.Rendered 1 boom;
                     Parallel.GotPage 0; Parallel.Rendered 0 None])))
    as [_ Hcont].
  - vm_compute. discriminate.
  - vm_compute. reflexivity.
  - exact Hcont.
Defined.

Lemma X18_every_run_ends_witness :
  Parallel.step refused no_options five_pages after_backwards (Parallel.GotPage 0)
  = None.
Proof.
  destruct (X18_every_run_ends refused no_options five_pages [Div ["pdf-loader"] ""]
              backwards after_backwards) as [_ Hends].
  - vm_compute. reflexivity.
  - apply Hends. vm_compute. reflexivity.
Defined.

(** ** The renderer that chains promises *)

Section chained_facts.

Variable pdf : PDFDocument.
Variable c0 : list Chained.Child.

Lemma completed_snoc evs ev :
  completed (evs ++ [ev])
  = completed evs ++ match ev with
                     | Chained.Rendered i None => [(i + 1)%nat]
                     | _ => []
                     end.
Proof.
  unfold completed. rewrite omap_app. f_equal.
  by destruct ev as [i|i [e|]].
Qed.

Lemma chained_inv_start : chained_inv pdf c0 [] (Chained.start pdf c0).
Proof.
  split; simpl.
  - by intros i cv [? _]%lookup_replicate.
  - intros i _ Hin. by apply elem_of_nil in Hin.
  - constructor.
  - exists []. split; [|done]. symmetry. apply (right_id_L [] (++)).
Qed.

Lemma chained_inv_step evs s ev s' :
  Chained.step pdf s ev = Some s' →
  chained_inv pdf c0 evs s → chained_inv pdf c0 (evs ++ [ev]) s'.
Proof.
  intros Hstep [Hawait Hwaiting Hnodup (canvases & Hcont & Hcanvases)].
  pose proof (completed_snoc evs ev) as Hsnoc.
  unfold Chained.step in Hstep. destruct ev as [i|i r].
  - destruct (Chained.tasks s !! i) as [[| | |]|] eqn:Hi; try done.
    assert (i < length (Chained.tasks s))%nat as Hlt
      by by eapply lookup_lt_Some.
    rewrite (right_id_L [] (++)) in Hsnoc.
    destruct (getPage pdf (i + 1)) as [e|page] eqn:Hpage;
      injection Hstep as <-; split; simpl; rewrite ?Hsnoc; try done.
    + intros j cv. destruct (decide (j = i)) as [->|Hne].
      * by rewrite list_lookup_insert_eq.
      * rewrite list_lookup_insert_ne by done. apply Hawait.
    + intros j. destruct (decide (j = i)) as [->|Hne].
      * intros _. apply Hwaiting. by left.
      * rewrite list_lookup_insert_ne by done. apply Hwaiting.
    + by exists canvases.
    + intros j cv. destruct (decide (j = i)) as [->|Hne].
      * rewrite list_lookup_insert_eq by done. intros [= <-].
        unfold chained_canvas. by rewrite Hpage.
      * rewrite list_lookup_insert_ne by done. apply Hawait.
    + intros j. destruct (decide (j = i)) as [->|Hne].
      * intros _. apply Hwaiting. by left.
      * rewrite list_lookup_insert_ne by done. apply Hwaiting.
    + by exists canvases.
  - destruct (Chained.tasks s !! i) as [[|cv| |]|] eqn:Hi; try done.
    assert (i < length (Chained.tasks s))%nat as Hlt
      by by eapply lookup_lt_Some.
    destruct r as [e|]; rewrite ?(right_id_L [] (++)) in Hsnoc;
      injection Hstep as <-; split; simpl; rewrite ?Hsnoc; try done.
    + intros j cv'. destruct (decide (j = i)) as [->|Hne].
      * by rewrite list_lookup_insert_eq.
      * rewrite list_lookup_insert_ne by done. apply Hawait.
    + intros j. destruct (decide (j = i)) as [->|Hne].
      * intros _. apply Hwaiting. right. by exists cv.
      * rewrite list_lookup_insert_ne by done. apply Hwaiting.
    + by exists canvases.
    + intros j cv'. destruct (decide (j = i)) as [->|Hne].
      * by rewrite list_lookup_insert_eq.
      * rewrite list_lookup_insert_ne by done. apply Hawait.
    + intros j. destruct (decide (j = i)) as [->|Hne].
      * rewrite list_lookup_insert_eq by done. by intros [?|[? ?]].
      * rewrite list_lookup_insert_ne by done. intros Hj%Hwaiting.
        intros [?|Hin%list_elem_of_singleton]%elem_of_app; [done|lia].
    + apply NoDup_app. split_and!; [done| |apply NoDup_singleton].
      intros p Hp ->%list_elem_of_singleton. revert Hp. apply Hwaiting.
      right. by exists cv.
    + exists (canvases ++ [cv]).
      rewrite Hcont, !fmap_app, Hcanvases, <-(assoc_L (++)). split; [done|].
      simpl. by rewrite (Hawait i cv Hi).
Qed.

Lemma chained_inv_run evs1 s1 evs2 s2 :
  Chained.run pdf s1 evs2 = Some s2 →
  chained_inv pdf c0 evs1 s1 → chained_inv pdf c0 (evs1 ++ evs2) s2.
Proof.
  revert evs1 s1. induction evs2 as [|ev rest IH]; intros evs1 s1; simpl.
  - intros [= <-]. by rewrite (right_id_L [] (++)).
  - destruct (Chained.step pdf s1 ev) as [s|] eqn:Hstep; [|done]. simpl.
    intros Hrest Hinv.
    change (evs1 ++ ev :: rest) with (evs1 ++ [ev] ++ rest).
    rewrite (assoc_L (++)).
    apply (IH (evs1 ++ [ev]) s Hrest). by eapply chained_inv_step.
Qed.

Lemma chained_canvas_page p cv :
  chained_canvas pdf p = Some cv → cv_page (Chained.sheet_canvas cv) = p.
Proof.
  unfold chained_canvas. destruct (getPage pdf p); [done|]. by intros [= <-].
Qed.

Lemma chained_canvas_pages (pages : list nat) (canvases : list Chained.Sheet) :
  chained_canvas pdf <$> pages = Some <$> canvases →
  (λ cv, cv_page (Chained.sheet_canvas cv)) <$> canvases = pages.
Proof.
  revert canvases. induction pages as [|p pages IH]; intros [|cv canvases];
    simpl; try done.
  intros [= Hp Hrest]. f_equal; [by apply chained_canvas_page|by apply IH].
Qed.

Lemma appended_pages_app c1 c2 :
  appended_pages (c1 ++ c2) = appended_pages c1 ++ appended_pages c2.
Proof. unfold appended_pages. by rewrite omap_app. Qed.

Lemma appended_pages_canvases (canvases : list Chained.Sheet) :
  appended_pages (Chained.Appended <$> canvases)
  = (λ cv, cv_page (Chained.sheet_canvas cv)) <$> canvases.
Proof. induction canvases as [|cv canvases IH]; [done|]. simpl. by f_equal. Qed.

End chained_facts.

(** X19: the renderer that chains promises appends each canvas when its
    own render is done.  After a document has loaded, the container keeps
    all it had (a spinner included) followed by the canvases in the order
    in which the renders completed, each page at most once, and a page that
    fails leaves no trace.  When the document does not load, one text node
    replaces everything under the container and nothing follows. *)
Theorem X19_canvases_in_completion_order getDocument url c0 :
  match getDocument url with
  | inr pdf =>
      ∀ evs s,
        Chained.run pdf (Chained.renderPDF getDocument url c0) evs = Some s →
        NoDup (completed evs)
        ∧ appended_pages (Chained.container s)
          = appended_pages c0 ++ completed evs
        ∧ ∃ canvases,
            Chained.container s = c0 ++ (Chained.Appended <$> canvases)
            ∧ chained_canvas pdf <$> completed evs = Some <$> canvases
  | inl error =>
      Chained.container (Chained.renderPDF getDocument url c0)
      = [Chained.Text ("Failed to load PDF: "
                       +:+ default "undefined" (message error))]
      ∧ ∀ pdf ev,
          Chained.step pdf (Chained.renderPDF getDocument url c0) ev = None
  end.
Proof.
  unfold Chained.renderPDF. destruct (getDocument url) as [error|pdf].
  - split; [done|]. by intros pdf [i|i r].
  - intros evs s Hrun.
    destruct (chained_inv_run pdf c0 [] _ _ _ Hrun (chained_inv_start pdf c0))
      as [_ _ Hnodup (canvases & Hcont & Hcanvases)].
    simpl in *. split; [done|]. split; [|by exists canvases].
    rewrite Hcont, appended_pages_app, appended_pages_canvases.
    f_equal. by apply (chained_canvas_pages pdf).
Qed.

Section chained_orders.

Variable pdf : PDFDocument.

(** Asking for the pages [k+1 .. k+m], in order. *)
Lemma run_ask_all c (before : list Chained.Task) k m :
  length before = k →
  Chained.run pdf
    {| Chained.tasks := before ++ replicate m Chained.AwaitPage;
       Chained.container := c |}
    (Chained.GotPage <$> seq k m)
  = Some {| Chained.tasks := before ++ (asked pdf <$> seq k m);
            Chained.container := c |}.
Proof.
  revert before k. induction m as [|m IH]; intros before k Hk; [done|].
  change (seq k (S m)) with (k :: seq (S k) m). rewrite !fmap_cons.
  change (replicate (S m) Chained.AwaitPage)
    with (Chained.AwaitPage :: replicate m Chained.AwaitPage).
  assert ((before ++ Chained.AwaitPage :: replicate m Chained.AwaitPage) !! k
          = Some Chained.AwaitPage) as Hlookup.
  { rewrite lookup_app_r by lia.
    by replace (k - length before)%nat with 0%nat by lia. }
  assert (∀ t, <[k := t]> (before ++ Chained.AwaitPage
                             :: replicate m Chained.AwaitPage)
               = (before ++ [t]) ++ replicate m Chained.AwaitPage) as Hins.
  { intros t. rewrite insert_app_r_alt by lia.
    replace (k - length before)%nat with 0%nat by lia. simpl.
    by rewrite <-(assoc_L (++)). }
  assert (Chained.step pdf
            {| Chained.tasks := before ++ Chained.AwaitPage
                                  :: replicate m Chained.AwaitPage;
               Chained.container := c |} (Chained.GotPage k)
          = Some {| Chained.tasks := (before ++ [asked pdf k])
                                     ++ replicate m Chained.AwaitPage;
                    Chained.container := c |}) as Hstep.
  { unfold Chained.step, Chained.set_task, asked. cbn [Chained.tasks].
    rewrite Hlookup.
    destruct (getPage pdf (k + 1)); cbn [Chained.tasks Chained.container];
      by rewrite Hins. }
  cbn [Chained.run]. rewrite Hstep. cbn [mbind option_bind].
  rewrite IH by (rewrite length_app; simpl; lia).
  by rewrite <-(assoc_L (++)).
Qed.

(** Reporting renders that are awaited, each once. *)
Lemma run_report order s :
  NoDup order →
  (∀ i, i ∈ order → ∃ cv, Chained.tasks s !! i = Some (Chained.AwaitRender cv)) →
  is_Some (Chained.run pdf s ((λ i, Chained.Rendered i None) <$> order)).
Proof.
  revert s. induction order as [|i order IH]; intros s Hnodup Hawait.
  { by eexists. }
  apply NoDup_cons in Hnodup as [Hi Hnodup].
  destruct (Hawait i) as [cv Hcv]; [left|].
  simpl. rewrite Hcv. simpl. apply IH; [done|].
  intros j Hj. simpl. rewrite list_lookup_insert_ne by (by intros ->).
  apply Hawait. by right.
Qed.

Lemma completed_finish_in_order n order :
  completed (finish_in_order n order) = (λ i, (i + 1)%nat) <$> order.
Proof.
  unfold finish_in_order, completed. rewrite omap_app.
  assert (∀ l : list nat,
    omap (λ ev, match ev with
                | Chained.Rendered i None => Some (i + 1)%nat
                | _ => None
                end) (Chained.GotPage <$> l) = []) as ->.
  { induction l; [done|]. simpl. done. }
  simpl. induction order as [|i order IH]; [done|]. simpl. by f_equal.
Qed.

End chained_orders.

(** X20: in the renderer that chains promises the order of the pages on
    screen is the order in which their renders complete: for every order
    of distinct pages that can be read, the run in which all pages are
    asked for and the renders complete in that order shows the canvases
    in that order. *)
Theorem X20_any_completion_order_shows pdf c0 order :
  NoDup order →
  (∀ i, i ∈ order →
        (i < numPages pdf)%nat ∧ is_Some (chained_canvas pdf (i + 1))) →
  ∃ s,
    Chained.run pdf (Chained.start pdf c0)
      (finish_in_order (numPages pdf) order) = Some s
    ∧ appended_pages (Chained.container s)
      = appended_pages c0 ++ ((λ i, (i + 1)%nat) <$> order).
Proof.
  intros Hnodup Horder.
  pose proof (run_ask_all pdf c0 [] 0 (numPages pdf) eq_refl) as Hask.
  simpl in Hask.
  destruct (run_report pdf order
              {| Chained.tasks := asked pdf <$> seq 0 (numPages pdf);
                 Chained.container := c0 |} Hnodup) as [s Hs].
  { intros i [Hi [cv Hcv]]%Horder. simpl.
    rewrite list_lookup_fmap, lookup_seq_lt by done. simpl.
    unfold asked. unfold chained_canvas in Hcv.
    destruct (getPage pdf (i + 1)); [done|]. by eexists. }
  assert (Chained.run pdf (Chained.start pdf c0)
            (finish_in_order (numPages pdf) order) = Some s) as Hrun.
  { unfold finish_in_order.
    assert (∀ evs1 evs2 s0,
      Chained.run pdf s0 (evs1 ++ evs2)
      = s1 ← Chained.run pdf s0 evs1; Chained.run pdf s1 evs2) as Happ.
    { induction evs1 as [|ev evs1 IH]; intros evs2 s0; simpl; [done|].
      destruct (Chained.step pdf s0 ev); simpl; [apply IH|done]. }
    rewrite Happ. unfold Chained.start. rewrite Hask. simpl. exact Hs. }
  exists s. split; [done|].
  destruct (chained_inv_run pdf c0 [] _ _ _ Hrun (chained_inv_start pdf c0))
    as [_ _ _ (canvases & Hcont & Hcanvases)].
  simpl in Hcanvases.
  rewrite Hcont, appended_pages_app, appended_pages_canvases.
  f_equal. rewrite <-(completed_finish_in_order (numPages pdf)).
  by apply (chained_canvas_pages pdf).
Qed.

Lemma X19_canvases_in_completion_order_witness :
  appended_pages
    (Chained.container
       (default (Chained.start five_pages [])
          (Chained.run five_pages
             (Chained.renderPDF (λ _, inr five_pages) "a.pdf" [])
             [Chained.GotPage 0; Chained.GotPage 1; Chained.Rendered 1 None;
              Chained.Rendered 0 None])))
  = [2; 1]%nat.
Proof.
  pose proof (X19_canvases_in_completion_order (λ _, inr five_pages)
                "a.pdf" []) as H.
  simpl in H.
  destruct (H [Chained.GotPage 0; Chained.GotPage 1; Chained.Rendered 1 None;
               Chained.Rendered 0 None]
              (default (Chained.start five_pages [])
                 (Chained.run five_pages
                    (Chained.renderPDF (λ _, inr five_pages) "a.pdf" [])
                    [Chained.GotPage 0; Chained.GotPage 1;
                     Chained.Rendered 1 None; Chained.Rendered 0 None])))
    as (_ & Hpages & _).
  - vm_compute. reflexivity.
  - exact Hpages.
Defined.

Lemma X20_any_completion_order_shows_witness :
  ∃ s,
    Chained.run five_pages (Chained.start five_pages [])
      (finish_in_order 5 [4; 2; 0]%nat) = Some s
    ∧ appended_pages (Chained.container s) = [5; 3; 1]%nat.
Proof.
  apply (X20_any_completion_order_shows five_pages [] [4; 2; 0]%nat).
  - apply (bool_decide_unpack (NoDup [4; 2; 0]%nat)). vm_compute. exact I.
  - intros i Hi.
    repeat (apply elem_of_cons in Hi as [->|Hi];
            [split; [simpl; lia|by eexists]|]).
    by apply elem_of_nil in Hi.
Defined.
